(** * macro_lightning: the velocity-space threshold integrators

    A shallow embedding of [macro_lightning/physics.py] and of the helpers
    of [macro_lightning/utils.py] it calls, followed by the properties of
    the escape-velocity composers ([twobody_vesc], [multibody_vesc]) and of
    the two grid integrators ([calculate_Mx], [calculate_Sx]) and their
    orchestrator ([calculate_Mx_and_Sx]).

    Modelling conventions.
    - Numbers.  The program computes with IEEE doubles wrapped in astropy
      quantities.  Here a number is a real ([R]); a quantity is the real
      holding its value in one coherent unit system (speeds in km/s), so
      unit tags, unit conversion and the [quantity_input] decorators
      disappear.  Division by zero, which numpy answers with [inf], is
      outside the model.
    - Truthiness.  [x or y] is Python's: [None] is false, a float is
      false exactly when it is zero, and a quantity is asked through
      astropy's [Quantity.__bool__], which before astropy 7 answers [True]
      for every value and from astropy 7 on raises [ValueError].
    - Progress.  [tqdm] wraps the iterators to draw a progress bar and
      hands every item on unchanged; it is dropped.
    - Exceptions.  A call returns [Ok v] or [Raise e]; [e] ranges over the
      exception classes these functions can raise.
    - Arrays.  A numpy array is a [list R]; [a[i] = x] is stdpp's
      [<[i:=x]> a] (all writes of the program are in range).
    - [as_quantity] makes an array of a sequence of numbers and raises
      [NotImplementedError] on anything [Quantity] refuses, a lazy
      iterator among them.
    - Objects.  The first embedding handles values; the module
      [Stateful] repeats the integrators over a store of objects, with
      arguments passed by reference, and the two are shown to agree.
      Settings that the libraries keep for themselves (numpy's error
      state, astropy's unit registry) are written by no statement of
      these functions and are not modelled. *)

From Stdlib Require Import Reals Lra Lia.
From stdpp Require Import base list.

Local Open Scope R_scope.

(** ** Python: exceptions and results *)

Inductive exn : Set :=
| ValueError          (* raise ValueError("vels steps unequal in size.") *)
| IndexError          (* steps[0] on an empty array *)
| TypeError           (* reduce() of an empty sequence; None / number *)
| UnboundLocalError   (* a local variable read before any assignment *)
| NotImplementedError. (* as_quantity, when Quantity() fails *)

Inductive result (A : Type) : Type :=
| Ok (a : A)
| Raise (e : exn).
Arguments Ok {A} a.
Arguments Raise {A} e.

(** Sequencing: an exception in the first computation skips the rest. *)
#[global] Instance result_bind : MBind result := λ A B k r,
  match r with
  | Ok a => k a
  | Raise e => Raise e
  end.

(** A [for] loop whose body may raise: the first exception ends the loop. *)
Fixpoint for_each {S I} (body : S → I → result S) (its : list I) (st : S)
  : result S :=
  match its with
  | [] => Ok st
  | it :: its' => st' ← body st it; for_each body its' st'
  end.

(** Comparisons of reals are decided by the order of [R]. *)
#[global] Instance Rle_decision (x y : R) : Decision (x <= y) := Rle_dec x y.
#[global] Instance Rlt_decision (x y : R) : Decision (x < y) := Rlt_dec x y.
#[global] Instance Rgt_decision (x y : R) : Decision (x > y) := Rgt_dec x y.
#[global] Instance Req_decision : EqDecision R := Req_dec_T.

(** ** numpy and itertools *)

(** [np.diff(a)]: the successive differences [a[i+1] - a[i]]. *)
Fixpoint diff (a : list R) : list R :=
  match a with
  | x :: (y :: _) as t => (y - x) :: diff t
  | _ => []
  end.

(** [np.isclose] / [np.allclose] with their default tolerances. *)
Definition rtol : R := 1 / 100000.      (* 1e-05 *)
Definition atol : R := 1 / 100000000.   (* 1e-08 *)

Definition isclose (a b : R) : bool :=
  bool_decide (Rabs (a - b) <= atol + rtol * Rabs b).

Definition allclose (a b : list R) : bool :=
  forallb (λ p, isclose p.1 p.2) (zip a b).

(** [numpy.linalg.norm] of a vector, as [qnorm] calls it on its arguments. *)
Definition sum_sq (v : list R) : R := foldr (λ x s, x ^ 2 + s) 0 v.
Definition qnorm (args : list R) : R := sqrt (sum_sq args).

(** [itertools.product(a, b, c)]: the first component varies slowest. *)
Definition product3 (a b c : list R) : list (R * R * R) :=
  flat_map (λ x, flat_map (λ y, map (λ z, (x, y, z)) c) b) a.

(** [enumerate(it)] *)
Definition enumerate {A} (l : list A) : list (nat * A) :=
  zip (seq 0 (length l)) l.

(** [functools.reduce(f, l)] without an initial value. *)
Definition reduce (f : R → R → R) (l : list R) : result R :=
  match l with
  | [] => Raise TypeError
  | x :: l' => Ok (foldl f x l')
  end.

(** [itertools.accumulate(l, f)] *)
Fixpoint accumulate_from (f : R → R → R) (acc : R) (l : list R) : list R :=
  match l with
  | [] => []
  | x :: l' => let acc' := f acc x in acc' :: accumulate_from f acc' l'
  end.

Definition accumulate (f : R → R → R) (l : list R) : list R :=
  match l with
  | [] => []
  | x :: l' => x :: accumulate_from f x l'
  end.

(** ** utils.py: [as_quantity] *)

(** What a caller hands to [as_quantity]: a sequence of numbers (a tuple,
    a list, an array), or a lazy iterator such as the object
    [itertools.accumulate] returns, given here by the items it would
    yield. *)
Inductive iterable : Type :=
| Sequence (l : list R)
| Iterator (items : list R).

(** [as_quantity(arg)]: [Quantity(arg, copy=False, subok=True)], every
    failure re-raised as [NotImplementedError].  [Quantity] makes an array
    of a sequence of numbers.  It does not consume an iterator: numpy wraps
    the iterator object itself, which is no number, and [Quantity]
    refuses it. *)
Definition as_quantity (arg : iterable) : result (list R) :=
  match arg with
  | Sequence l => Ok l
  | Iterator _ => Raise NotImplementedError
  end.

(** ** physics.py: escape velocities *)

Definition _sqrt2 : R := sqrt 2.

(** [_norm_v1_v2] *)
Definition _norm_v1_v2 (v1 v2 : R) : R := sqrt (v1 ^ 2 + v2 ^ 2).

(** [twobody_vesc] is not decorated: a caller passes bare numbers, or
    speeds as astropy quantities (the documented type).  The subtraction
    and the sum ask for one kind throughout, so a call is of one kind. *)
Inductive kind : Set :=
| Bare       (* Python floats *)
| Speed.     (* astropy quantities, a speed each *)

(** The truth value of a quantity is astropy's [Quantity.__bool__]:
    before astropy 7 it is [True] whatever the value (with a deprecation
    warning), from astropy 7 on it raises [ValueError]. *)
Inductive astropy : Set :=
| astropy_before_7
| astropy_from_7.

(** [bool(x)]: a float is false exactly when it is zero. *)
Definition truth (ap : astropy) (k : kind) (x : R) : result bool :=
  match k, ap with
  | Bare, _ => Ok (bool_decide (x ≠ 0))
  | Speed, astropy_before_7 => Ok true
  | Speed, astropy_from_7 => Raise ValueError
  end.

(** [vo or d]: [None] is false; any other [vo] is asked for its truth
    value.  [d] is evaluated only when it is needed, and cannot raise. *)
Definition py_or (ap : astropy) (k : kind) (vo : option R) (d : R)
  : result R :=
  match vo with
  | None => Ok d
  | Some v => t ← truth ap k v; Ok (if t : bool then v else d)
  end.

(** [twobody_vesc(ve1, ve2, vo=None)] *)
Definition twobody_vesc (ap : astropy) (k : kind) (ve1 ve2 : R)
    (vo : option R) : result R :=
  vo ← py_or ap k vo (ve2 / _sqrt2);
  Ok (sqrt (ve1 ^ 2 + (ve2 - vo) ^ 2)).

(** The orbital velocities handed to [multibody_vesc]: one number, or a
    sequence that numpy broadcasts against [vs[1:]]. *)
Inductive vo_arg : Type :=
| VoScalar (v : R)
| VoSeq (l : list R).

(** [vs[1:] = vs[1:] - vo]: a sequence must have the length of the slice,
    or length one, for the subtraction and the assignment to broadcast. *)
Definition sub_broadcast (tl : list R) (vo : vo_arg) : result (list R) :=
  match vo with
  | VoScalar v => Ok (map (λ x, x - v) tl)
  | VoSeq l =>
      if decide (length l = length tl) then Ok (zip_with Rminus tl l)
      else match l with
           | [v] => Ok (map (λ x, x - v) tl)
           | _ => Raise ValueError
           end
  end.

(** What [multibody_vesc] returns: a scalar, or the accumulated vector. *)
Inductive vesc_out : Type :=
| Scalar (v : R)
| Vector (l : list R).

(** [multibody_vesc], called on the tuple [vescs] with the keywords
    [vo=None] and [accumulate=False].  With [accumulate=True] the lazy
    [itertools.accumulate] object goes to [as_quantity] as it is. *)
Definition multibody_vesc (vescs : list R) (vo : option vo_arg)
    (acc : bool) : result vesc_out :=
  vs ← as_quantity (Sequence vescs);
  vs ← match vo with
        | None => Ok (take 1 vs ++ map (λ v, v * (1 - 1 / sqrt 2)) (drop 1 vs))
        | Some o => tl ← sub_broadcast (drop 1 vs) o; Ok (take 1 vs ++ tl)
        end;
  if acc then
    l ← as_quantity (Iterator (accumulate _norm_v1_v2 vs)); Ok (Vector l)
  else v ← reduce _norm_v1_v2 vs; Ok (Scalar v).

(** ** physics.py: the Maxwellian bin weight *)

(** [f_BM_bin(vx, vbin, vvir)] *)
Definition f_BM_bin (vx vbin vvir : R) : R :=
  let norm := (vbin / vvir) ^ 3 / Rpower PI (3 / 2) in
  let exp := exp (- Rsqr (vx / vvir)) in
  norm * exp.

(** ** physics.py: the mass integrator *)

(** The locals of [calculate_Mx] that the loop assigns.  [vrel] is bound
    by the first qualifying triple only. *)
Record mx_locals : Type := MxLocals {
  mx_vbar : R;
  mx_vrel : option R;
  mx_Mxs : list R
}.

(** The filter [qnorm(vx, vy, vz) <= vesc]. *)
Definition qualifies (vesc : R) (t : R * R * R) : Prop :=
  let '(vx, vy, vz) := t in qnorm [vx; vy; vz] <= vesc.

#[global] Instance qualifies_dec vesc t : Decision (qualifies vesc t).
Proof. destruct t as [[vx vy] vz]. unfold qualifies. apply _. Defined.

(** [vrel = qnorm(vmin, vx, vy - vcirc, vz)] *)
Definition vrel_at (vcirc vmin : R) (t : R * R * R) : R :=
  let '(vx, vy, vz) := t in qnorm [vmin; vx; vy - vcirc; vz].

(** One iteration of the loop of [calculate_Mx]. *)
Definition mx_body (vstep vvir vesc vcirc vmin Arho : R)
    (st : mx_locals) (it : nat * (R * R * R)) : mx_locals :=
  let '(i, (vx, vy, vz)) := it in
  if decide (qnorm [vx; vy; vz] <= vesc) then
    let maxwellian := f_BM_bin (qnorm [vx; vy; vz]) vstep vvir in
    let vrel := qnorm [vmin; vx; vy - vcirc; vz] in
    let vbar := mx_vbar st + vrel * maxwellian in
    let mx := Arho * vbar in
    MxLocals vbar (Some vrel) (<[i:=mx]> (mx_Mxs st))
  else st.

(** The check [np.allclose(steps[:-1], steps[1:])] on [steps]. *)
Definition steps_allclose (steps : list R) : bool :=
  allclose (take (length steps - 1) steps) (drop 1 steps).

(** [calculate_Mx(vels, vvir, vesc, vcirc, vmin, Arho)], returning
    [(Mxs, vbar, Vhold)].  The seed [Vhold = 800] is overwritten by
    [Vhold = vrel] after the loop, which reads the local [vrel]. *)
Definition calculate_Mx (vels : list R) (vvir vesc vcirc vmin Arho : R)
  : result (list R * R * R) :=
  let vbar := 0 in
  let Vhold := 800 in
  let steps := diff vels in
  if negb (steps_allclose steps) then Raise ValueError
  else
    match steps with
    | [] => Raise IndexError
    | s0 :: _ =>
        let vstep := Rabs s0 in
        let Mxs := replicate (length vels ^ 3) 0 in
        let iterator := product3 vels vels vels in
        let st := foldl (mx_body vstep vvir vesc vcirc vmin Arho)
                    (MxLocals vbar None Mxs) (enumerate iterator) in
        match mx_vrel st with
        | None => Raise UnboundLocalError
        | Some vrel =>
            let Vhold := vrel in
            Ok (filter (λ x, x > 0) (mx_Mxs st), mx_vbar st, Vhold)
        end
    end.

(** ** physics.py: the cross-section integrator *)

Record sx_locals : Type := SxLocals {
  sx_vhold : R;
  sx_Sxs : list R
}.

(** One iteration of the loop of [calculate_Sx].  [sigma_factor] may be
    [None] (the default of [calculate_Mx_and_Sx]), and dividing it by a
    number raises. *)
Definition sx_body (vesc vcirc vmin minsigma : R) (sigma_factor : option R)
    (st : sx_locals) (it : nat * (R * R * R)) : result sx_locals :=
  let '(i, (vx, vy, vz)) := it in
  if decide (qnorm [vx; vy; vz] <= vesc) then
    let vrel := qnorm [vmin; vx; vy - vcirc; vz] in
    let vrel := if decide (vrel > sx_vhold st) then sx_vhold st else vrel in
    let vhold := vrel in
    match sigma_factor with
    | None => Raise TypeError
    | Some sf =>
        let sx := sf / vrel ^ 2 in
        let sx := if decide (sx < minsigma) then minsigma else sx in
        Ok (SxLocals vhold (<[i:=sx]> (sx_Sxs st)))
    end
  else Ok st.

(** [calculate_Sx(vels, vesc, vhold, vcirc, vmin, minsigma, sigma_factor)],
    returning [(Sxs, vhold)]. *)
Definition calculate_Sx (vels : list R) (vesc vhold vcirc vmin minsigma : R)
    (sigma_factor : option R) : result (list R * R) :=
  let Sxs := replicate (length vels ^ 3) 0 in
  let iterator := product3 vels vels vels in
  st ← for_each (sx_body vesc vcirc vmin minsigma sigma_factor)
          (enumerate iterator) (SxLocals vhold Sxs);
  Ok (filter (λ x, x > 0) (sx_Sxs st), sx_vhold st).

(** ** physics.py: the orchestrator *)

(** [calculate_Mx_and_Sx] with every argument given, returning
    [(Mxs, Sxs, vbar, Vhold)]. *)
Definition calculate_Mx_and_Sx (vels : list R)
    (vvir vesc vcirc vmin Arho minsigma : R) (sigma_factor : option R)
  : result (list R * list R * R * R) :=
  '(Mxs, vbar, Vhold) ← calculate_Mx vels vvir vesc vcirc vmin Arho;
  '(Sxs, Vhold) ← calculate_Sx vels vesc Vhold vcirc vmin minsigma
                     sigma_factor;
  Ok (Mxs, Sxs, vbar, Vhold).

(** ** What outlives a call: the object store

    Python passes references.  The axis [vels], the other arguments and
    the keyword defaults of [calculate_Mx_and_Sx] (built once, when the
    [def] statement runs, and shared by every later call) are objects
    that outlive a call; the arrays [Mxs] and [Sxs] are objects the call
    makes and writes into by item assignment.  In this module the three
    integrators are embedded once more, statement by statement, over an
    explicit store of such objects: arguments and results are locations,
    every read of an argument is a read of the store, [np.zeros] and the
    masked copies [Mxs[Mxs > 0]] allocate, and [Mxs[i] = mx] writes the
    store.  The three bodies hold no [global] statement, no augmented
    assignment and no attribute assignment: the two item assignments are
    their only writes to objects, every other assignment rebinds a local
    name.  Numbers a call computes for itself ([vrel], [maxwellian],
    [vbar], ...) are immutable and kept as values until they are handed
    out.  The functions above are shown below to compute what these
    compute. *)
Module Stateful.

(** A location is an index into the store; allocation appends. *)
Definition loc : Set := nat.

Inductive object : Type :=
| Number (x : R)         (* a float or a scalar quantity *)
| Array (a : list R).    (* a one-dimensional array *)

Definition store : Type := list object.

(** A computation runs in a store and leaves a store, also when it
    raises. *)
Definition M (A : Type) : Type := list object → result A * list object.

#[global] Instance M_ret : MRet M := λ A a h, (Ok a, h).

#[global] Instance M_bind : MBind M := λ A B k m h,
  match m h with
  | (Ok a, h') => k a h'
  | (Raise e, h') => (Raise e, h')
  end.

Definition raise {A} (e : exn) : M A := λ h, (Raise e, h).

(** A new object. *)
Definition new (o : object) : M nat := λ h, (Ok (length h), h ++ [o]).

(** Reading an argument as a number, or as an array. *)
Definition number (l : nat) : M R := λ h,
  match h !! l with
  | Some (Number x) => (Ok x, h)
  | _ => (Raise TypeError, h)
  end.

Definition array (l : nat) : M (list R) := λ h,
  match h !! l with
  | Some (Array a) => (Ok a, h)
  | _ => (Raise TypeError, h)
  end.

(** [a[i] = x], which raises [IndexError] out of range. *)
Definition setitem (l i : nat) (x : R) : M unit := λ h,
  match h !! l with
  | Some (Array a) =>
      if decide (i < length a)%nat
      then (Ok (), <[l:=Array (<[i:=x]> a)]> h)
      else (Raise IndexError, h)
  | _ => (Raise TypeError, h)
  end.

Fixpoint for_each {S I} (body : S → I → M S) (its : list I) (st : S)
  : M S :=
  match its with
  | [] => mret st
  | it :: its' => st' ← body st it; for_each body its' st'
  end.

(** The locals that the loop of [calculate_Mx] rebinds; [Mxs] stays bound
    to one array, which the loop writes. *)
Record mx_frame : Type := MxFrame {
  fr_vbar : R;
  fr_vrel : option R
}.

Definition mx_body (Mxs : loc) (vstep : R) (vvir vesc vcirc vmin Arho : loc)
    (st : mx_frame) (it : nat * (R * R * R)) : M mx_frame :=
  let '(i, (vx, vy, vz)) := it in
  vesc_ ← number vesc;
  if decide (qnorm [vx; vy; vz] <= vesc_) then
    vvir_ ← number vvir;
    let maxwellian := f_BM_bin (qnorm [vx; vy; vz]) vstep vvir_ in
    vmin_ ← number vmin;
    vcirc_ ← number vcirc;
    let vrel := qnorm [vmin_; vx; vy - vcirc_; vz] in
    let vbar := fr_vbar st + vrel * maxwellian in
    Arho_ ← number Arho;
    let mx := Arho_ * vbar in
    _ ← setitem Mxs i mx;
    mret (MxFrame vbar (Some vrel))
  else mret st.

Definition calculate_Mx (vels vvir vesc vcirc vmin Arho : loc)
  : M (loc * loc * loc) :=
  a ← array vels;                                     (* np.diff(vels) *)
  let steps := diff a in
  if negb (steps_allclose steps) then raise ValueError
  else
    match steps with
    | [] => raise IndexError
    | s0 :: _ =>
        let vstep := Rabs s0 in
        a ← array vels;                               (* len(vels) *)
        Mxs ← new (Array (replicate (length a ^ 3) 0));
        a ← array vels;                               (* itertools.product *)
        st ← for_each (mx_body Mxs vstep vvir vesc vcirc vmin Arho)
                (enumerate (product3 a a a)) (MxFrame 0 None);
        match fr_vrel st with
        | None => raise UnboundLocalError
        | Some vrel =>
            m ← array Mxs;
            Mxs ← new (Array (filter (λ x, x > 0) m));
            vbar ← new (Number (fr_vbar st));
            Vhold ← new (Number vrel);
            mret (Mxs, vbar, Vhold)
        end
    end.

(** The local [vhold] of [calculate_Sx] names the caller's object until
    the loop rebinds it to a relative velocity of the call's own making;
    [vrel = vhold] makes [vrel] name what [vhold] names. *)
Definition value (v : nat + R) : M R :=
  match v with
  | inl l => number l
  | inr x => mret x
  end.

Definition sx_body (Sxs : loc) (vesc vcirc vmin minsigma : loc)
    (sigma_factor : option loc) (vhold : nat + R) (it : nat * (R * R * R))
  : M (nat + R) :=
  let '(i, (vx, vy, vz)) := it in
  vesc_ ← number vesc;
  if decide (qnorm [vx; vy; vz] <= vesc_) then
    vmin_ ← number vmin;
    vcirc_ ← number vcirc;
    let vrel_ := qnorm [vmin_; vx; vy - vcirc_; vz] in
    vhold_ ← value vhold;
    let '(vrel, vrel_) :=
      if decide (vrel_ > vhold_) then (vhold, vhold_) else (inr vrel_, vrel_)
    in
    let vhold := vrel in
    sf ← match sigma_factor with
          | None => raise TypeError
          | Some l => number l
          end;
    let sx := sf / vrel_ ^ 2 in
    minsigma_ ← number minsigma;
    let sx := if decide (sx < minsigma_) then minsigma_ else sx in
    _ ← setitem Sxs i sx;
    mret vhold
  else mret vhold.

(** When no triple qualifies, the [vhold] returned is the caller's own
    object. *)
Definition calculate_Sx (vels vesc vhold vcirc vmin minsigma : loc)
    (sigma_factor : option loc) : M (loc * loc) :=
  a ← array vels;
  Sxs ← new (Array (replicate (length a ^ 3) 0));
  a ← array vels;
  vhold ← for_each (sx_body Sxs vesc vcirc vmin minsigma sigma_factor)
             (enumerate (product3 a a a)) (inl vhold);
  s ← array Sxs;
  Sxs ← new (Array (filter (λ x, x > 0) s));
  vhold ← match vhold with
           | inl l => mret l
           | inr x => new (Number x)
           end;
  mret (Sxs, vhold).

Definition calculate_Mx_and_Sx
    (vels vvir vesc vcirc vmin Arho minsigma : loc)
    (sigma_factor : option loc) : M (loc * loc * loc * loc) :=
  '(Mxs, vbar, Vhold) ← calculate_Mx vels vvir vesc vcirc vmin Arho;
  '(Sxs, Vhold) ← calculate_Sx vels vesc Vhold vcirc vmin minsigma
                     sigma_factor;
  mret (Mxs, Sxs, vbar, Vhold).

(** The keyword defaults of [calculate_Mx_and_Sx]: where the objects
    built at import are. *)
Record module_state : Type := ModuleState {
  dflt_vvir : loc;
  dflt_vesc : loc;
  dflt_vcirc : loc;
  dflt_vmin : loc;
  dflt_Arho : loc;
  dflt_minsigma : loc
}.

(** The store right after import.  [Arho] is 3 g s/m, that is
    3000 g s/km. *)
Definition at_import : module_state * store :=
  (ModuleState 0%nat 1%nat 2%nat 3%nat 4%nat 5%nat,
   [Number 250; Number 550; Number 220; Number (421 / 10); Number 3000;
    Number (6 / 100000000)]).

(** The arguments of one call; [None] is an omitted keyword, and for
    [sigma_factor] also its default. *)
Record call_args : Type := CallArgs {
  arg_vels : loc;
  arg_vvir : option loc;
  arg_vesc : option loc;
  arg_vcirc : option loc;
  arg_vmin : option loc;
  arg_Arho : option loc;
  arg_minsigma : option loc;
  arg_sigma_factor : option loc
}.

(** A call: omitted keywords are bound to the shared default objects. *)
Definition call_Mx_and_Sx (m : module_state) (a : call_args)
  : M (loc * loc * loc * loc) :=
  calculate_Mx_and_Sx (arg_vels a)
    (default (dflt_vvir m) (arg_vvir a))
    (default (dflt_vesc m) (arg_vesc a))
    (default (dflt_vcirc m) (arg_vcirc a))
    (default (dflt_vmin m) (arg_vmin a))
    (default (dflt_Arho m) (arg_Arho a))
    (default (dflt_minsigma m) (arg_minsigma a))
    (arg_sigma_factor a).

(** A session: calls made one after the other, each in the store the
    previous one left, whether it returned or raised. *)
Fixpoint run_calls (m : module_state) (calls : list call_args) (h : store)
  : store :=
  match calls with
  | [] => h
  | a :: calls' => run_calls m calls' (call_Mx_and_Sx m a h).2
  end.

(** What a location stands for. *)
Definition read_number (h : list object) (l : nat) : option R :=
  match h !! l with
  | Some (Number x) => Some x
  | _ => None
  end.

Definition read_array (h : list object) (l : nat) : option (list R) :=
  match h !! l with
  | Some (Array a) => Some a
  | _ => None
  end.

(** An argument that may be [None]. *)
Definition read_optional (h : list object) (o : option nat)
  : option (option R) :=
  match o with
  | None => Some None
  | Some l => Some <$> read_number h l
  end.

(** What a local that names an object, or holds a number of the call's
    own making, stands for. *)
Definition names (h : list object) (v : nat + R) (x : R) : Prop :=
  match v with
  | inl l => h !! l = Some (Number x)
  | inr y => y = x
  end.

(** The values the arguments of a call stand for. *)
Definition inputs (h : store) (m : module_state) (a : call_args)
  : option (list R * R * R * R * R * R * R * option R) :=
  vels ← read_array h (arg_vels a);
  vvir ← read_number h (default (dflt_vvir m) (arg_vvir a));
  vesc ← read_number h (default (dflt_vesc m) (arg_vesc a));
  vcirc ← read_number h (default (dflt_vcirc m) (arg_vcirc a));
  vmin ← read_number h (default (dflt_vmin m) (arg_vmin a));
  Arho ← read_number h (default (dflt_Arho m) (arg_Arho a));
  minsigma ← read_number h (default (dflt_minsigma m) (arg_minsigma a));
  sf ← read_optional h (arg_sigma_factor a);
  Some (vels, vvir, vesc, vcirc, vmin, Arho, minsigma, sf).

(** What the caller sees of a call: the exception, or the values of the
    four objects returned. *)
Definition outputs (out : result (loc * loc * loc * loc) * store)
  : option (result (list R * list R * R * R)) :=
  match out with
  | (Raise e, _) => Some (Raise e)
  | (Ok (lM, lS, lv, lV), h) =>
      Mxs ← read_array h lM;
      Sxs ← read_array h lS;
      vbar ← read_number h lv;
      Vhold ← read_number h lV;
      Some (Ok (Mxs, Sxs, vbar, Vhold))
  end.

End Stateful.

(** A computation keeps the store below [n]: it leaves the first [n]
    objects as they are, and what it returns satisfies [P]. *)
Definition keeps (n : nat) {A} (P : A → Prop) (c : Stateful.M A) : Prop :=
  ∀ h, (n ≤ length h)%nat →
    take n (c h).2 = take n h
    ∧ (n ≤ length (c h).2)%nat
    ∧ ∀ a, (c h).1 = Ok a → P a.

(** The local [vhold] names the caller's object or holds a number. *)
Definition caller_or_own (lvhold : nat) (v : nat + R) : Prop :=
  match v with
  | inl l => l = lvhold
  | inr _ => True
  end.

(** ** Vocabulary of the specification *)

(** The grid of an axis, in enumeration order. *)
Definition grid (vels : list R) : list (R * R * R) := product3 vels vels vels.

(** The triples that pass the escape-velocity filter, in order. *)
Definition qualifying (vesc : R) (vels : list R) : list (R * R * R) :=
  filter (qualifies vesc) (grid vels).

(** An axis with a step: at least two samples. *)
Definition has_step (vels : list R) : Prop := (2 <= length vels)%nat.

(** An axis that [calculate_Mx] accepts: it has a step and passes the
    spacing check. *)
Definition axis_valid (vels : list R) : Prop :=
  has_step vels ∧ steps_allclose (diff vels) = true.

(** An evenly spaced axis of [n] samples. *)
Definition arange (start step : R) (n : nat) : list R :=
  map (λ i, start + INR i * step) (seq 0 n).

(** Adjacent successive differences are close in numpy's sense. *)
Definition adjacent_close (steps : list R) : Prop :=
  ∀ i a b, steps !! i = Some a → steps !! S i = Some b →
           Rabs (a - b) <= atol + rtol * Rabs b.

(** The spacing test in the words of the specification: the smallest and
    the largest successive difference are approximately equal. *)
Definition spec_spacing_ok (steps : list R) : bool :=
  match steps with
  | [] => true
  | s :: ss => isclose (foldr Rmin s ss) (foldr Rmax s ss)
  end.

(** The speed of a triple and its contribution to the flux integral. *)
Definition speed (t : R * R * R) : R :=
  let '(vx, vy, vz) := t in qnorm [vx; vy; vz].

Definition flux_term (vstep vvir vcirc vmin : R) (t : R * R * R) : R :=
  vrel_at vcirc vmin t * f_BM_bin (speed t) vstep vvir.

(** The cumulative flux after each qualifying triple, from [vbar]. *)
Fixpoint cumulative_flux (vstep vvir vesc vcirc vmin : R) (vbar : R)
    (ts : list (R * R * R)) : list R :=
  match ts with
  | [] => []
  | t :: ts' =>
      if decide (qualifies vesc t) then
        let vbar' := vbar + flux_term vstep vvir vcirc vmin t in
        vbar' :: cumulative_flux vstep vvir vesc vcirc vmin vbar' ts'
      else cumulative_flux vstep vvir vesc vcirc vmin vbar ts'
  end.

(** The dense array the loop of [calculate_Mx] leaves behind, a slot per
    triple: [Arho] times the cumulative flux where the triple qualifies,
    the initial zero elsewhere. *)
Fixpoint mx_slots (vstep vvir vesc vcirc vmin Arho : R) (vbar : R)
    (ts : list (R * R * R)) : list R :=
  match ts with
  | [] => []
  | t :: ts' =>
      if decide (qualifies vesc t) then
        let vbar' := vbar + flux_term vstep vvir vcirc vmin t in
        Arho * vbar' :: mx_slots vstep vvir vesc vcirc vmin Arho vbar' ts'
      else 0 :: mx_slots vstep vvir vesc vcirc vmin Arho vbar ts'
  end.

(** The step magnitude [np.abs(steps[0])] of an axis. *)
Definition vstep_of (vels : list R) : R :=
  match diff vels with
  | [] => 0
  | s0 :: _ => Rabs s0
  end.

(** A list read in output order never decreases / never increases. *)
Definition non_decreasing (l : list R) : Prop :=
  ∀ i a b, l !! i = Some a → l !! S i = Some b → a <= b.

Definition non_increasing (l : list R) : Prop :=
  ∀ i a b, l !! i = Some a → l !! S i = Some b → b <= a.

(** One update of the carried velocity in [calculate_Sx]: its value before
    the triple, the relative velocity of the triple, its value after. *)
Record vhold_update : Type := VholdUpdate {
  vh_before : R;
  vh_vrel : R;
  vh_after : R
}.

(** The carried-velocity updates of a run of the loop of [calculate_Sx],
    one per qualifying triple, read off the iterations of [sx_body]. *)
Fixpoint sx_updates (vesc vcirc vmin minsigma : R) (sigma_factor : option R)
    (its : list (nat * (R * R * R))) (st : sx_locals) : list vhold_update :=
  match its with
  | [] => []
  | it :: its' =>
      match sx_body vesc vcirc vmin minsigma sigma_factor st it with
      | Ok st' =>
          (if decide (qualifies vesc it.2)
           then [VholdUpdate (sx_vhold st) (vrel_at vcirc vmin it.2)
                   (sx_vhold st')]
           else [])
          ++ sx_updates vesc vcirc vmin minsigma sigma_factor its' st'
      | Raise _ => []
      end
  end.

(** The carried velocity sampled once per qualifying triple, starting from
    the value handed in. *)
Definition vhold_samples (vels : list R) (vesc vhold vcirc vmin minsigma : R)
    (sigma_factor : option R) : list R :=
  vhold :: map vh_after
    (sx_updates vesc vcirc vmin minsigma sigma_factor
       (enumerate (grid vels))
       (SxLocals vhold (replicate (length vels ^ 3) 0))).

(** The circular-orbit factor and the left-to-right composition. *)
Definition circular_factor : R := 1 - 1 / sqrt 2.

Definition compose (chain : list R) : R :=
  match chain with
  | [] => 0
  | v :: chain' => foldl _norm_v1_v2 v chain'
  end.

(** The non-empty prefixes of a chain, shortest first. *)
Definition prefixes (chain : list R) : list (list R) :=
  map (λ n, take n chain) (seq 1 (length chain)).

(** ** utils.py: squares and ranges *)

(** [qsquare]: [np.square] of the arguments, element by element. *)
Definition qsquare (args : list R) : list R := map Rsqr args.

(** [np.ceil], as an integer. *)
Definition ceil (x : R) : Z := (- Int_part (- x))%Z.

(** [np.arange(start, stop, step)] on floats: [ceil((stop - start)/step)]
    samples [start + i * step] (none when that count is negative).  A zero
    step is refused by numpy; [None] stands for that refusal. *)
Definition np_arange (start stop step : R) : option (list R) :=
  if decide (step = 0) then None
  else Some (arange start step (Z.to_nat (ceil ((stop - start) / step)))).

(** [qarange(start, stop, step)], with [unit=None]: the three quantities in
    the unit of [step], ranged over by [np.arange]. *)
Definition qarange (start stop step : R) : option (list R) :=
  np_arange start stop step.

(** ** physics.py: reference curves

    The curve functions act on a mass or, element by element, on an array
    of masses; they are given on one mass. *)

(** [np.power(x, y)] for the positive non-integer exponent it is called
    with: zero at zero, and [nan] ([None] here) on a negative base. *)
Definition np_power (x y : R) : option R :=
  if decide (x < 0) then None
  else if decide (x = 0) then Some 0
  else Some (Rpower x y).

(** [CMB(M)] *)
Definition CMB (M : R) : R := M * (45 / 100000000).

(** [nuclear_density(M)] *)
Definition nuclear_density (M : R) : option R :=
  let volume := 4 / 3 * PI * (36 * 10 ^ 13) in
  p ← np_power (M / volume) (2 / 3); Some (PI * p).

(** [black_hole(M)] *)
Definition black_hole (M : R) : R :=
  PI * (3 * 10 ^ 5) ^ 2 * (M / (2 * 10 ^ 33)) ^ 2.

(** [atomic_density(M)] *)
Definition atomic_density (M : R) : option R :=
  let volume := 4 / 3 * PI * 1 in
  p ← np_power (M / volume) (2 / 3); Some (PI * p).

(** [KeplerTop(M)] *)
Definition KeplerTop (M : R) : R := 1 / 10 ^ 6 * M.

(** [LMCTop(M)] *)
Definition LMCTop (M : R) : R := 1 / 10 ^ 4 * M.

(** ** Closed forms of the cross-section loop *)

(** [if sx < minsigma: sx = minsigma] *)
Definition floor_at (minsigma sx : R) : R :=
  if decide (sx < minsigma) then minsigma else sx.

(** The carried velocity after the triples [ts], from [vhold]. *)
Fixpoint carried (vesc vcirc vmin : R) (vhold : R) (ts : list (R * R * R))
  : R :=
  match ts with
  | [] => vhold
  | t :: ts' =>
      if decide (qualifies vesc t)
      then carried vesc vcirc vmin (Rmin (vrel_at vcirc vmin t) vhold) ts'
      else carried vesc vcirc vmin vhold ts'
  end.

(** The cross-sections written for the qualifying triples of [ts], in
    order, from the carried velocity [vhold]. *)
Fixpoint sx_values (vesc vcirc vmin minsigma sf : R) (vhold : R)
    (ts : list (R * R * R)) : list R :=
  match ts with
  | [] => []
  | t :: ts' =>
      if decide (qualifies vesc t) then
        let vrel := Rmin (vrel_at vcirc vmin t) vhold in
        floor_at minsigma (sf / vrel ^ 2)
        :: sx_values vesc vcirc vmin minsigma sf vrel ts'
      else sx_values vesc vcirc vmin minsigma sf vhold ts'
  end.

(** The dense array the loop of [calculate_Sx] leaves behind. *)
Fixpoint sx_slots (vesc vcirc vmin minsigma sf : R) (vhold : R)
    (ts : list (R * R * R)) : list R :=
  match ts with
  | [] => []
  | t :: ts' =>
      if decide (qualifies vesc t) then
        let vrel := Rmin (vrel_at vcirc vmin t) vhold in
        floor_at minsigma (sf / vrel ^ 2)
        :: sx_slots vesc vcirc vmin minsigma sf vrel ts'
      else 0 :: sx_slots vesc vcirc vmin minsigma sf vhold ts'
  end.

(** A list read in output order always increases. *)
Definition strictly_increasing (l : list R) : Prop :=
  ∀ i a b, l !! i = Some a → l !! S i = Some b → a < b.

(** The sum of a list of numbers. *)
Definition total (l : list R) : R := foldr Rplus 0 l.

(** A triple of velocities after a change of the unit of speed. *)
Definition scale3 (k : R) (t : R * R * R) : R * R * R :=
  let '(vx, vy, vz) := t in (k * vx, k * vy, k * vz).

(** * Properties *)

(** ** Real arithmetic *)

Lemma sqrt_at_most (b x : R) : 0 <= b → x <= b * b → sqrt x <= b.
Proof.
  intros Hb Hx. rewrite <- (sqrt_square b Hb). apply sqrt_le_1_alt. exact Hx.
Qed.

Lemma sqrt_above (a x : R) : 0 <= a → a * a < x → a < sqrt x.
Proof.
  intros Ha Hx. rewrite <- (sqrt_square a Ha).
  apply sqrt_lt_1_alt. split; [nra | exact Hx].
Qed.

Lemma sqrt_below (b x : R) : 0 <= b → 0 <= x → x < b * b → sqrt x < b.
Proof.
  intros Hb H0 Hx. rewrite <- (sqrt_square b Hb).
  apply sqrt_lt_1_alt. split; [exact H0 | exact Hx].
Qed.

Lemma sqrt2_bounds : 141421356 / 100000000 < sqrt 2 < 141421357 / 100000000.
Proof.
  split.
  - apply sqrt_above; lra.
  - apply sqrt_below; lra.
Qed.

Lemma inv_sqrt2 : 1 / sqrt 2 = sqrt 2 / 2.
Proof.
  pose proof sqrt2_bounds as [Hl _].
  pose proof (sqrt_sqrt 2 ltac:(lra)) as Hs.
  field_simplify_eq; [lra | lra].
Qed.

Lemma circular_factor_bounds :
  29289321 / 100000000 < circular_factor < 29289322 / 100000000.
Proof.
  unfold circular_factor. rewrite inv_sqrt2.
  pose proof sqrt2_bounds. lra.
Qed.

(** ** Lists *)

Lemma length_product3 (a b c : list R) :
  length (product3 a b c) = (length a * length b * length c)%nat.
Proof.
  unfold product3. induction a as [|x a IH]; simpl; [reflexivity|].
  rewrite length_app, IH.
  assert (Hb : length (flat_map (λ y, map (λ z, (x, y, z)) c) b)
               = (length b * length c)%nat).
  { clear. induction b as [|y b IHb]; simpl; [reflexivity|].
    rewrite length_app, length_map, IHb. reflexivity. }
  rewrite Hb. lia.
Qed.

Lemma length_grid (vels : list R) : length (grid vels) = (length vels ^ 3)%nat.
Proof. unfold grid. rewrite length_product3. simpl. lia. Qed.

Lemma non_decreasing_cons a l :
  Forall (λ x, a <= x) l → non_decreasing l → non_decreasing (a :: l).
Proof.
  intros Ha Hl [|i] x y Hx Hy; simpl in *.
  - inversion Hx; subst. destruct l as [|b l]; [discriminate|].
    inversion Hy; subst. inversion Ha; subst. assumption.
  - eapply Hl; eassumption.
Qed.

Lemma non_decreasing_nil : non_decreasing [].
Proof. intros i a b H. discriminate. Qed.

Lemma non_increasing_cons2 a b l :
  b <= a → non_increasing (b :: l) → non_increasing (a :: b :: l).
Proof.
  intros Hab Hl [|i] x y Hx Hy; simpl in *.
  - inversion Hx; subst. inversion Hy; subst. assumption.
  - eapply Hl; eassumption.
Qed.

Lemma non_increasing_singleton a : non_increasing [a].
Proof. intros [|i] x y Hx Hy; discriminate. Qed.

Lemma positive_entries (l : list R) : Forall (λ x, 0 < x) (filter (λ x, x > 0) l).
Proof.
  apply Forall_forall. intros x Hx.
  apply list_elem_of_filter in Hx as [Hx _]. exact Hx.
Qed.

(** ** The loop of [calculate_Mx] *)

Section mx_loop.
Variables vstep vvir vesc vcirc vmin Arho : R.

Let body := mx_body vstep vvir vesc vcirc vmin Arho.
Let slots := mx_slots vstep vvir vesc vcirc vmin Arho.
Let flux := cumulative_flux vstep vvir vesc vcirc vmin.

Lemma mx_body_qualifies st i t :
  qualifies vesc t →
  body st (i, t)
  = MxLocals (mx_vbar st + flux_term vstep vvir vcirc vmin t)
      (Some (vrel_at vcirc vmin t))
      (<[i := Arho * (mx_vbar st + flux_term vstep vvir vcirc vmin t)]>
         (mx_Mxs st)).
Proof.
  destruct t as [[vx vy] vz]. intros Hq. unfold body, mx_body.
  unfold qualifies in Hq. rewrite decide_True by exact Hq. reflexivity.
Qed.

Lemma mx_body_skips st i t : ¬ qualifies vesc t → body st (i, t) = st.
Proof.
  destruct t as [[vx vy] vz]. intros Hq. unfold body, mx_body.
  unfold qualifies in Hq. rewrite decide_False by exact Hq. reflexivity.
Qed.

(** Running the loop over the triples [ts], whose slots are the zeros
    between [pre] and [post]. *)
Lemma mx_loop_run ts : ∀ pre post vbar vrel,
  foldl body (MxLocals vbar vrel (pre ++ replicate (length ts) 0 ++ post))
    (zip (seq (length pre) (length ts)) ts)
  = MxLocals (default vbar (last (flux vbar ts)))
      (default vrel
         (Some <$> (vrel_at vcirc vmin <$> last (filter (qualifies vesc) ts))))
      (pre ++ slots vbar ts ++ post).
Proof.
  induction ts as [|t ts IH]; intros pre post vbar vrel; [reflexivity|].
  cbn [length seq zip zip_with foldl replicate].
  assert (Hshift : ∀ x : R, pre ++ (x :: replicate (length ts) 0) ++ post
            = (pre ++ [x]) ++ replicate (length ts) 0 ++ post).
  { intros x. rewrite <- (assoc_L (++)). reflexivity. }
  assert (Hlen : ∀ x : R, S (length pre) = length (pre ++ [x])).
  { intros x. rewrite length_app. simpl. lia. }
  unfold slots, flux. cbn [mx_slots cumulative_flux].
  destruct (decide (qualifies vesc t)) as [Hq|Hq].
  - rewrite mx_body_qualifies by exact Hq. cbn [mx_vbar mx_Mxs].
    set (vbar' := vbar + flux_term vstep vvir vcirc vmin t).
    replace (<[length pre := Arho * vbar']>
               (pre ++ (0 :: replicate (length ts) 0) ++ post))
      with ((pre ++ [Arho * vbar']) ++ replicate (length ts) 0 ++ post).
    2:{ rewrite insert_app_r_alt by lia. rewrite Nat.sub_diag.
        rewrite <- (assoc_L (++)). reflexivity. }
    rewrite (Hlen (Arho * vbar')), IH.
    rewrite filter_cons_True by exact Hq. rewrite !last_cons.
    fold flux slots. f_equal.
    + destruct (last (flux vbar' ts)); reflexivity.
    + destruct (last (filter (qualifies vesc) ts)); reflexivity.
    + rewrite <- (assoc_L (++)). reflexivity.
  - rewrite mx_body_skips by exact Hq.
    rewrite (Hshift 0), (Hlen 0), IH.
    rewrite filter_cons_False by exact Hq.
    fold flux slots. f_equal. rewrite <- (assoc_L (++)). reflexivity.
Qed.
End mx_loop.

Lemma diff_has_step vels :
  has_step vels → ∃ s0 rest, diff vels = s0 :: rest.
Proof.
  destruct vels as [|x [|y r]]; unfold has_step; simpl; try lia.
  intros _. eauto.
Qed.

Lemma calculate_Mx_ValueError vels vvir vesc vcirc vmin Arho :
  calculate_Mx vels vvir vesc vcirc vmin Arho = Raise ValueError
  ↔ steps_allclose (diff vels) = false.
Proof.
  unfold calculate_Mx.
  destruct (steps_allclose (diff vels)); simpl.
  - split; [|discriminate].
    destruct (diff vels); [discriminate|].
    match goal with |- context [mx_vrel ?st] => destruct (mx_vrel st) end;
      discriminate.
  - split; reflexivity.
Qed.

(** What [calculate_Mx] computes on an axis it accepts. *)
Lemma calculate_Mx_valid vels vvir vesc vcirc vmin Arho :
  axis_valid vels →
  calculate_Mx vels vvir vesc vcirc vmin Arho
  = match last (qualifying vesc vels) with
    | None => Raise UnboundLocalError
    | Some t =>
        Ok (filter (λ x, x > 0)
              (mx_slots (vstep_of vels) vvir vesc vcirc vmin Arho 0 (grid vels)),
            default 0 (last (cumulative_flux (vstep_of vels) vvir vesc vcirc
                               vmin 0 (grid vels))),
            vrel_at vcirc vmin t)
    end.
Proof.
  intros [Hstep Hclose]. unfold calculate_Mx, vstep_of. rewrite Hclose.
  destruct (diff_has_step vels Hstep) as (s0 & rest & ->). cbn [negb].
  unfold enumerate. fold (grid vels). rewrite <- length_grid.
  pose proof (mx_loop_run (Rabs s0) vvir vesc vcirc vmin Arho (grid vels)
                [] [] 0 None) as Hrun.
  cbn [app length] in Hrun. rewrite (right_id_L [] (++)) in Hrun.
  rewrite Hrun. cbn [mx_vrel mx_vbar mx_Mxs]. rewrite (right_id_L [] (++)).
  unfold qualifying. destruct (last (filter (qualifies vesc) (grid vels)));
    reflexivity.
Qed.

Section mx_output.
Variables vstep vvir vesc vcirc vmin Arho : R.

Let slots := mx_slots vstep vvir vesc vcirc vmin Arho.
Let flux := cumulative_flux vstep vvir vesc vcirc vmin.
Let term := flux_term vstep vvir vcirc vmin.

(** Compaction drops exactly the untouched and the non-positive slots. *)
Lemma mx_slots_compact ts : ∀ vbar,
  filter (λ x, x > 0) (slots vbar ts)
  = filter (λ x, x > 0) (map (Rmult Arho) (flux vbar ts)).
Proof.
  induction ts as [|t ts IH]; intros vbar; [reflexivity|].
  unfold slots, flux. cbn [mx_slots cumulative_flux].
  destruct (decide (qualifies vesc t)).
  - cbn [map]. rewrite !filter_cons. fold slots flux. rewrite IH. reflexivity.
  - rewrite filter_cons_False by lra. apply IH.
Qed.

Lemma length_mx_slots ts vbar : length (slots vbar ts) = length ts.
Proof.
  revert vbar. induction ts as [|t ts IH]; intros vbar; [reflexivity|].
  unfold slots. cbn [mx_slots]. destruct (decide (qualifies vesc t));
    cbn [length]; f_equal; apply IH.
Qed.

(** The weight of a bin has the sign of [(vstep / vvir) ^ 3]. *)
Lemma f_BM_bin_sign vx :
  ∃ w, 0 < w ∧ f_BM_bin vx vstep vvir = (vstep / vvir) ^ 3 * w.
Proof.
  exists (exp (- Rsqr (vx / vvir)) / Rpower PI (3 / 2)). split.
  - apply Rdiv_lt_0_compat; [apply exp_pos | apply exp_pos].
  - unfold f_BM_bin. unfold Rdiv. ring.
Qed.

Lemma vrel_at_nonneg t : 0 <= vrel_at vcirc vmin t.
Proof. destruct t as [[vx vy] vz]. apply sqrt_pos. Qed.

Lemma flux_term_sign t :
  ∃ w, 0 <= w ∧ Arho * term t = (Arho * (vstep / vvir) ^ 3) * w.
Proof.
  destruct (f_BM_bin_sign (speed t)) as (w & Hw & Hf).
  exists (vrel_at vcirc vmin t * w). split.
  - apply Rmult_le_pos; [apply vrel_at_nonneg | lra].
  - unfold term, flux_term. rewrite Hf. ring.
Qed.

(** Scaled by [Arho], the cumulative flux climbs when the increments
    scaled by [Arho] are non-negative ... *)
Lemma scaled_flux_climbs ts : ∀ vbar,
  0 <= Arho * (vstep / vvir) ^ 3 →
  Forall (λ x, Arho * vbar <= x) (map (Rmult Arho) (flux vbar ts))
  ∧ non_decreasing (filter (λ x, x > 0) (map (Rmult Arho) (flux vbar ts))).
Proof.
  intros vbar Hs. revert vbar.
  induction ts as [|t ts IH]; intros vbar.
  - split; [constructor | apply non_decreasing_nil].
  - unfold flux. cbn [cumulative_flux].
    destruct (decide (qualifies vesc t)); fold flux; [|apply IH].
    destruct (flux_term_sign t) as (w & Hw & Ht). fold term.
    assert (Hstep : Arho * vbar <= Arho * (vbar + term t)).
    { rewrite Rmult_plus_distr_l, Ht. nra. }
    destruct (IH (vbar + term t)) as [Hall Hsorted].
    cbn [map]. split.
    + constructor; [exact Hstep|].
      eapply Forall_impl; [exact Hall|]. simpl. intros x Hx. lra.
    + rewrite filter_cons. destruct (decide (Arho * (vbar + term t) > 0));
        [|exact Hsorted].
      apply non_decreasing_cons; [|exact Hsorted].
      apply Forall_forall. intros x Hx.
      apply list_elem_of_filter in Hx as [_ Hx].
      rewrite Forall_forall in Hall. apply Hall. exact Hx.
Qed.

(** ... and stays non-positive otherwise, so that nothing is retained. *)
Lemma scaled_flux_sinks ts : ∀ vbar,
  Arho * (vstep / vvir) ^ 3 <= 0 → Arho * vbar <= 0 →
  filter (λ x, x > 0) (map (Rmult Arho) (flux vbar ts)) = [].
Proof.
  intros vbar Hs. revert vbar.
  induction ts as [|t ts IH]; intros vbar Hv; [reflexivity|].
  unfold flux. cbn [cumulative_flux].
  destruct (decide (qualifies vesc t)); fold flux; [|apply IH; exact Hv].
  destruct (flux_term_sign t) as (w & Hw & Ht). fold term.
  assert (Hstep : Arho * (vbar + term t) <= 0).
  { rewrite Rmult_plus_distr_l, Ht. nra. }
  cbn [map]. rewrite filter_cons_False by lra. apply IH. exact Hstep.
Qed.

Lemma compacted_flux_sorted ts :
  non_decreasing (filter (λ x, x > 0) (map (Rmult Arho) (flux 0 ts))).
Proof.
  destruct (Rle_dec 0 (Arho * (vstep / vvir) ^ 3)) as [Hs|Hs].
  - apply scaled_flux_climbs. exact Hs.
  - rewrite scaled_flux_sinks; [apply non_decreasing_nil | lra | lra].
Qed.
End mx_output.

(** ** The loop of [calculate_Sx] *)

Section sx_loop.
Variables vesc vcirc vmin minsigma : R.
Variable sigma_factor : option R.

Let body := sx_body vesc vcirc vmin minsigma sigma_factor.
Let updates := sx_updates vesc vcirc vmin minsigma sigma_factor.

Lemma sx_body_skips st i t : ¬ qualifies vesc t → body st (i, t) = Ok st.
Proof.
  destruct t as [[vx vy] vz]. intros Hq. unfold body, sx_body.
  unfold qualifies in Hq. rewrite decide_False by exact Hq. reflexivity.
Qed.

(** At a qualifying triple the carried velocity becomes the smaller of
    the relative velocity and its old value; one slot is written. *)
Lemma sx_body_qualifies st i t st' :
  qualifies vesc t → body st (i, t) = Ok st' →
  sx_vhold st' = Rmin (vrel_at vcirc vmin t) (sx_vhold st)
  ∧ ∃ sx, sx_Sxs st' = <[i := sx]> (sx_Sxs st).
Proof.
  destruct t as [[vx vy] vz]. intros Hq. unfold body, sx_body.
  unfold qualifies in Hq. rewrite decide_True by exact Hq.
  destruct sigma_factor as [sf|]; [|discriminate].
  intros [= <-]. cbn [sx_vhold sx_Sxs vrel_at]. split; [|eauto].
  destruct (decide (qnorm [vmin; vx; vy - vcirc; vz] > sx_vhold st)).
  - rewrite Rmin_right by lra. reflexivity.
  - rewrite Rmin_left by lra. reflexivity.
Qed.

Lemma sx_body_length st it st' :
  body st it = Ok st' → length (sx_Sxs st') = length (sx_Sxs st).
Proof.
  destruct it as [i t]. intros Hb.
  destruct (decide (qualifies vesc t)) as [Hq|Hq].
  - destruct (sx_body_qualifies st i t st' Hq Hb) as [_ [sx ->]].
    apply length_insert.
  - rewrite sx_body_skips in Hb by exact Hq. congruence.
Qed.

Lemma sx_loop_length its : ∀ st st',
  for_each body its st = Ok st' → length (sx_Sxs st') = length (sx_Sxs st).
Proof.
  induction its as [|it its IH]; intros st st'; cbn [for_each].
  - congruence.
  - destruct (body st it) as [st1|e] eqn:Hb; [|discriminate].
    cbn. intros Hrun. rewrite (IH _ _ Hrun). eapply sx_body_length, Hb.
Qed.

Lemma sx_updates_min its : ∀ st,
  Forall (λ u, vh_after u = Rmin (vh_vrel u) (vh_before u)) (updates its st).
Proof.
  induction its as [|[i t] its IH]; intros st; [constructor|].
  unfold updates. cbn [sx_updates]. fold body updates.
  destruct (body st (i, t)) as [st1|e] eqn:Hb; [|constructor].
  cbn [snd]. destruct (decide (qualifies vesc t)) as [Hq|Hq]; [|apply IH].
  cbn [app]. constructor; [|apply IH]. cbn.
  apply (sx_body_qualifies st i t st1 Hq Hb).
Qed.

Lemma sx_updates_chain its : ∀ st,
  let us := updates its st in
  map vh_before us = take (length us) (sx_vhold st :: map vh_after us).
Proof.
  induction its as [|[i t] its IH]; intros st; [reflexivity|].
  unfold updates. cbn [sx_updates]. fold body updates.
  destruct (body st (i, t)) as [st1|e] eqn:Hb; [|reflexivity].
  cbn [snd]. destruct (decide (qualifies vesc t)) as [Hq|Hq].
  - cbn [app map length take vh_before vh_after]. f_equal. apply IH.
  - rewrite sx_body_skips in Hb by exact Hq. injection Hb as <-. apply IH.
Qed.

Lemma sx_updates_non_increasing its : ∀ st,
  non_increasing (sx_vhold st :: map vh_after (updates its st)).
Proof.
  induction its as [|[i t] its IH]; intros st;
    [apply non_increasing_singleton|].
  unfold updates. cbn [sx_updates]. fold body updates.
  destruct (body st (i, t)) as [st1|e] eqn:Hb;
    [|apply non_increasing_singleton].
  cbn [snd]. destruct (decide (qualifies vesc t)) as [Hq|Hq].
  - cbn [app map vh_after]. apply non_increasing_cons2; [|apply IH].
    destruct (sx_body_qualifies st i t st1 Hq Hb) as [-> _]. apply Rmin_r.
  - rewrite sx_body_skips in Hb by exact Hq. injection Hb as <-. apply IH.
Qed.

Lemma sx_loop_last its : ∀ st st',
  for_each body its st = Ok st' →
  last (sx_vhold st :: map vh_after (updates its st)) = Some (sx_vhold st').
Proof.
  induction its as [|[i t] its IH]; intros st st'; cbn [for_each].
  - intros [= <-]. reflexivity.
  - unfold updates. cbn [sx_updates]. fold body updates.
    destruct (body st (i, t)) as [st1|e] eqn:Hb; [|discriminate].
    cbn. intros Hrun.
    destruct (decide (qualifies vesc t)) as [Hq|Hq].
    + cbn [app map vh_after]. rewrite last_cons_cons. apply IH, Hrun.
    + rewrite sx_body_skips in Hb by exact Hq. injection Hb as <-.
      apply IH, Hrun.
Qed.

Lemma sx_loop_raises its : ∀ st e,
  for_each body its st = Raise e → sigma_factor = None.
Proof.
  induction its as [|[i [[vx vy] vz]] its IH]; intros st e; cbn [for_each].
  - discriminate.
  - destruct (body st (i, (vx, vy, vz))) as [st1|e1] eqn:Hb; cbn.
    + apply IH.
    + intros _. unfold body, sx_body in Hb.
      destruct (decide (qnorm [vx; vy; vz] <= vesc)); [|discriminate].
      destruct sigma_factor; [discriminate | reflexivity].
Qed.
End sx_loop.

Lemma calculate_Sx_total vels vesc vhold vcirc vmin minsigma sf :
  ∃ Sxs vhold',
    calculate_Sx vels vesc vhold vcirc vmin minsigma (Some sf) = Ok (Sxs, vhold')
    ∧ Forall (λ x, 0 < x) Sxs ∧ (length Sxs <= length vels ^ 3)%nat.
Proof.
  unfold calculate_Sx.
  destruct (for_each (sx_body vesc vcirc vmin minsigma (Some sf))
              (enumerate (product3 vels vels vels))
              (SxLocals vhold (replicate (length vels ^ 3) 0)))
    as [st|e] eqn:Hrun.
  - eexists _, _. split; [reflexivity|]. split; [apply positive_entries|].
    etrans; [apply length_filter|].
    rewrite (sx_loop_length _ _ _ _ _ _ _ _ Hrun). cbn [sx_Sxs].
    rewrite length_replicate. reflexivity.
  - apply sx_loop_raises in Hrun. discriminate.
Qed.

(** ** The spacing check *)

Lemma isclose_spec a b :
  isclose a b = true ↔ Rabs (a - b) <= atol + rtol * Rabs b.
Proof. unfold isclose. apply bool_decide_eq_true. Qed.

Lemma isclose_false a b :
  isclose a b = false ↔ ¬ Rabs (a - b) <= atol + rtol * Rabs b.
Proof. unfold isclose. apply bool_decide_eq_false. Qed.

Lemma steps_allclose_cons a b r :
  steps_allclose (a :: b :: r) = isclose a b && steps_allclose (b :: r).
Proof.
  unfold steps_allclose, allclose. cbn [length Nat.sub drop].
  rewrite Nat.sub_0_r. reflexivity.
Qed.

Lemma adjacent_close_cons a b r :
  adjacent_close (a :: b :: r)
  ↔ Rabs (a - b) <= atol + rtol * Rabs b ∧ adjacent_close (b :: r).
Proof.
  split.
  - intros H. split.
    + apply (H 0%nat); reflexivity.
    + intros i x y Hx Hy. apply (H (S i)); assumption.
  - intros [Hab H] [|i] x y Hx Hy; simpl in *.
    + inversion Hx; subst. inversion Hy; subst. exact Hab.
    + eapply H; eassumption.
Qed.

Lemma steps_allclose_adjacent steps :
  steps_allclose steps = true ↔ adjacent_close steps.
Proof.
  induction steps as [|a steps IH].
  - split; [intros _ i a b H; discriminate | reflexivity].
  - destruct steps as [|b r].
    + split; [intros _ [|i] x y Hx Hy; discriminate | reflexivity].
    + rewrite steps_allclose_cons, andb_true_iff, isclose_spec, IH.
      symmetry. apply adjacent_close_cons.
Qed.

Lemma diff_arange start step n : ∀ k,
  diff (map (λ i, start + INR i * step) (seq k n)) = replicate (n - 1) step.
Proof.
  induction n as [|n IH]; intros k; [reflexivity|].
  destruct n as [|n]; [reflexivity|].
  specialize (IH (S k)). cbn [seq map diff] in *. rewrite IH.
  cbn [Nat.sub replicate]. rewrite Nat.sub_0_r. f_equal.
  rewrite S_INR. ring.
Qed.

Lemma adjacent_close_replicate n step : adjacent_close (replicate n step).
Proof.
  intros i a b Ha Hb.
  apply lookup_replicate in Ha as [-> _]. apply lookup_replicate in Hb as [-> _].
  replace (step - step) with 0 by ring. rewrite Rabs_R0.
  pose proof (Rabs_pos step). unfold atol, rtol. nra.
Qed.

(** ** [itertools.accumulate] *)

Lemma accumulate_from_prefixes f l : ∀ acc,
  accumulate_from f acc l = map (λ n, foldl f acc (take n l)) (seq 1 (length l)).
Proof.
  induction l as [|x l IH]; intros acc; [reflexivity|].
  cbn [accumulate_from length seq map take foldl]. f_equal.
  rewrite IH, <- (seq_shift (length l) 1), map_map. reflexivity.
Qed.

Lemma accumulate_prefixes l :
  accumulate _norm_v1_v2 l = map compose (prefixes l).
Proof.
  destruct l as [|x l]; [reflexivity|].
  unfold accumulate, prefixes. rewrite accumulate_from_prefixes.
  cbn [length seq map take compose foldl]. f_equal.
  rewrite <- (seq_shift (length l) 1), !map_map. reflexivity.
Qed.

(** ** Escape velocities *)

(** What [twobody_vesc] does, by the kind of the call and the library
    version. *)
Lemma twobody_vesc_cases ap k ve1 ve2 vo :
  twobody_vesc ap k ve1 ve2 vo
  = match vo with
    | None => Ok (sqrt (ve1 ^ 2 + (ve2 - ve2 / sqrt 2) ^ 2))
    | Some v =>
        match k, ap with
        | Bare, _ =>
            Ok (sqrt (ve1 ^ 2
                      + (ve2 - (if decide (v = 0) then ve2 / sqrt 2 else v))
                        ^ 2))
        | Speed, astropy_before_7 => Ok (sqrt (ve1 ^ 2 + (ve2 - v) ^ 2))
        | Speed, astropy_from_7 => Raise ValueError
        end
    end.
Proof.
  unfold twobody_vesc, py_or, truth, _sqrt2.
  destruct vo as [v|]; [|reflexivity].
  destruct k, ap; try reflexivity; cbn [mbind result_bind];
    destruct (decide (v = 0)) as [->|Hv];
    [ rewrite bool_decide_eq_false_2 by (intros H; apply H; reflexivity)
    | rewrite bool_decide_eq_true_2 by exact Hv
    | rewrite bool_decide_eq_false_2 by (intros H; apply H; reflexivity)
    | rewrite bool_decide_eq_true_2 by exact Hv ]; reflexivity.
Qed.

Lemma twobody_default ap k ve1 ve2 :
  twobody_vesc ap k ve1 ve2 None
  = Ok (sqrt (ve1 ^ 2 + (ve2 * circular_factor) ^ 2)).
Proof.
  rewrite twobody_vesc_cases. unfold circular_factor.
  f_equal. f_equal. f_equal. f_equal. unfold Rdiv. lra.
Qed.

Lemma twobody_earth_sun ap kd :
  ∃ r, twobody_vesc ap kd (11186 / 1000) (421 / 10) None = Ok r
       ∧ Rabs (r - 166486 / 10000) < 5 / 100000.
Proof.
  rewrite twobody_default. eexists. split; [reflexivity|].
  pose proof circular_factor_bounds as [Hl Hu].
  set (k := circular_factor) in *.
  assert (Hk2 : (29289321 / 100000000) ^ 2 < k ^ 2 < (29289322 / 100000000) ^ 2) by nra.
  assert (H1 : 1664855 / 100000 < sqrt ((11186 / 1000) ^ 2 + (421 / 10 * k) ^ 2))
    by (apply sqrt_above; nra).
  assert (H2 : sqrt ((11186 / 1000) ^ 2 + (421 / 10 * k) ^ 2) < 1664865 / 100000)
    by (apply sqrt_below; nra).
  apply Rabs_def1; lra.
Qed.

Lemma norm_sq_of_norm a b c :
  _norm_v1_v2 (_norm_v1_v2 a b) c = sqrt (a ^ 2 + b ^ 2 + c ^ 2).
Proof.
  unfold _norm_v1_v2. rewrite pow2_sqrt by nra. reflexivity.
Qed.

Lemma multibody_default_reduce v rest :
  multibody_vesc (v :: rest) None false
  = Ok (Scalar (foldl _norm_v1_v2 v (map (λ x, x * circular_factor) rest))).
Proof. reflexivity. Qed.

Lemma multibody_galaxy :
  ∃ v, multibody_vesc [11186 / 1000; 421 / 10; 550] None false = Ok (Scalar v)
       ∧ Rabs (v - 1619493 / 10000) < 5 / 100000.
Proof.
  eexists. split; [apply multibody_default_reduce |].
  cbn [foldl map]. rewrite norm_sq_of_norm.
  pose proof circular_factor_bounds as [Hl Hu].
  set (k := circular_factor) in *.
  assert (Hk2 : (29289321 / 100000000) ^ 2 < k ^ 2 < (29289322 / 100000000) ^ 2) by nra.
  assert (H1 : 16194925 / 100000 < sqrt ((11186 / 1000) ^ 2 + (421 / 10 * k) ^ 2 + (550 * k) ^ 2))
    by (apply sqrt_above; nra).
  assert (H2 : sqrt ((11186 / 1000) ^ 2 + (421 / 10 * k) ^ 2 + (550 * k) ^ 2) < 16194935 / 100000)
    by (apply sqrt_below; nra).
  apply Rabs_def1; lra.
Qed.


(** ** Evaluating the integrators on literal grids *)

Ltac filter_passes :=
  unfold qualifies, qnorm, sum_sq; cbn [foldr]; apply sqrt_at_most; lra.
Ltac filter_rejects :=
  unfold qualifies, qnorm, sum_sq; cbn [foldr]; apply Rlt_not_le;
  apply sqrt_above; lra.
Ltac run_filter :=
  unfold qualifying, grid; cbn [product3 flat_map map app];
  repeat first [ rewrite filter_cons_True by filter_passes
               | rewrite filter_cons_False by filter_rejects ];
  rewrite ?filter_nil.

(** Comparisons of literals through [Rabs], [Rmin] and [Rmax]. *)
Ltac no_comparison_in x :=
  lazymatch x with
  | context [Rle_dec _ _] => fail
  | _ => idtac
  end.
Ltac compare_literals :=
  unfold atol, rtol, Rmin, Rmax;
  repeat match goal with
         | |- context [Rle_dec ?x ?y] =>
             no_comparison_in x; no_comparison_in y;
             destruct (Rle_dec x y); try lra
         end;
  unfold Rabs;
  repeat match goal with
         | |- context [Rcase_abs ?x] => destruct (Rcase_abs x); try lra
         end;
  try lra.

Lemma axis_valid_pair (x y : R) : axis_valid [x; y].
Proof. split; [unfold has_step; simpl; lia | reflexivity]. Qed.

Lemma calculate_Mx_empty_domain vels vvir vesc vcirc vmin Arho :
  axis_valid vels → qualifying vesc vels = [] →
  calculate_Mx vels vvir vesc vcirc vmin Arho = Raise UnboundLocalError.
Proof.
  intros Hv Hq. rewrite calculate_Mx_valid by exact Hv. rewrite Hq. reflexivity.
Qed.

Lemma sx_updates_vrels vesc vcirc vmin minsigma sigma_factor its : ∀ st,
  map vh_vrel (sx_updates vesc vcirc vmin minsigma sigma_factor its st)
  = map (vrel_at vcirc vmin)
      (match sigma_factor with
       | Some _ => filter (qualifies vesc) its.*2
       | None => []
       end).
Proof.
  induction its as [|[i t] its IH]; intros st.
  - destruct sigma_factor; reflexivity.
  - cbn [sx_updates fmap list_fmap snd].
    destruct (decide (qualifies vesc t)) as [Hq|Hq].
    + destruct (sx_body vesc vcirc vmin minsigma sigma_factor st (i, t))
        as [st1|e] eqn:Hb.
      * cbn [app map vh_vrel]. rewrite IH.
        destruct sigma_factor; [|].
        -- rewrite filter_cons_True by exact Hq. reflexivity.
        -- destruct t as [[vx vy] vz]. unfold sx_body in Hb.
           unfold qualifies in Hq. rewrite decide_True in Hb by exact Hq.
           discriminate.
      * assert (sigma_factor = None) as ->.
        { destruct t as [[vx vy] vz]. unfold sx_body in Hb.
          destruct (decide (qnorm [vx; vy; vz] <= vesc)); [|discriminate].
          destruct sigma_factor; [discriminate | reflexivity]. }
        reflexivity.
    + rewrite sx_body_skips by exact Hq. cbn [app]. rewrite IH.
      destruct sigma_factor; [|reflexivity].
      rewrite filter_cons_False by exact Hq. reflexivity.
Qed.

(** ** The object store *)

Lemma run_bind {A B} (c : Stateful.M A) (k : A → Stateful.M B) h :
  (c ≫= k) h
  = match c h with
    | (Ok a, h') => k a h'
    | (Raise e, h') => (Raise e, h')
    end.
Proof. reflexivity. Qed.

Lemma run_number h l x :
  h !! l = Some (Stateful.Number x) → Stateful.number l h = (Ok x, h).
Proof. intros H. unfold Stateful.number. rewrite H. reflexivity. Qed.

Lemma run_array h l a :
  h !! l = Some (Stateful.Array a) → Stateful.array l h = (Ok a, h).
Proof. intros H. unfold Stateful.array. rewrite H. reflexivity. Qed.

Lemma run_new h o :
  Stateful.new o h = (Ok (length h), h ++ [o]).
Proof. reflexivity. Qed.

Lemma run_setitem h a t i x :
  (i < length a)%nat →
  Stateful.setitem (length h) i x (h ++ Stateful.Array a :: t)
  = (Ok (), h ++ Stateful.Array (<[i:=x]> a) :: t).
Proof.
  intros Hi. unfold Stateful.setitem. rewrite list_lookup_middle by reflexivity.
  rewrite decide_True by exact Hi.
  rewrite insert_app_r_alt by lia. rewrite Nat.sub_diag. reflexivity.
Qed.

(** *** The frame rules *)

Lemma keeps_ret n {A} (P : A → Prop) a : P a → keeps n P (mret a).
Proof.
  intros HP h Hn. cbn. split; [reflexivity|]. split; [exact Hn|].
  intros b [= <-]. exact HP.
Qed.

Lemma keeps_raise n {A} (P : A → Prop) e : keeps n P (Stateful.raise e).
Proof.
  intros h Hn. cbn. split; [reflexivity|]. split; [exact Hn|]. intros b [=].
Qed.

Lemma keeps_bind n {A B} (P : A → Prop) (Q : B → Prop) c k :
  keeps n P c → (∀ a, P a → keeps n Q (k a)) → keeps n Q (c ≫= k).
Proof.
  intros Hc Hk h Hn. rewrite run_bind.
  destruct (Hc h Hn) as (Ht & Hl & HP).
  destruct (c h) as [[a|e] h'] eqn:Hr; cbn in Ht, Hl, HP.
  - destruct (Hk a (HP a eq_refl) h' Hl) as (Ht' & Hl' & HQ).
    split; [congruence|]. split; assumption.
  - cbn. split; [exact Ht|]. split; [exact Hl|]. intros b [=].
Qed.

Lemma keeps_weaken n {A} (P Q : A → Prop) c :
  keeps n P c → (∀ a, P a → Q a) → keeps n Q c.
Proof.
  intros Hc HPQ h Hn. destruct (Hc h Hn) as (Ht & Hl & HP).
  split; [exact Ht|]. split; [exact Hl|]. intros a Ha. apply HPQ, HP, Ha.
Qed.

Lemma keeps_number n l : keeps n (λ _, True) (Stateful.number l).
Proof.
  intros h Hn. unfold Stateful.number.
  destruct (h !! l) as [[x|a]|]; cbn; auto.
Qed.

Lemma keeps_array n l : keeps n (λ _, True) (Stateful.array l).
Proof.
  intros h Hn. unfold Stateful.array.
  destruct (h !! l) as [[x|a]|]; cbn; auto.
Qed.

Lemma keeps_new n o : keeps n (λ l, (n ≤ l)%nat) (Stateful.new o).
Proof.
  intros h Hn. unfold Stateful.new. cbn.
  split; [apply take_app_le, Hn|]. split; [rewrite length_app; lia|].
  intros a [= <-]. exact Hn.
Qed.

Lemma keeps_setitem n l i x :
  (n ≤ l)%nat → keeps n (λ _, True) (Stateful.setitem l i x).
Proof.
  intros Hl h Hn. unfold Stateful.setitem.
  destruct (h !! l) as [[y|a]|]; cbn; auto.
  destruct (decide (i < length a)%nat); cbn; auto.
  split; [apply take_insert_ge, Hl|].
  split; [rewrite length_insert; exact Hn | auto].
Qed.

Lemma keeps_for_each n {S I} (Inv : S → Prop) (body : S → I → Stateful.M S)
    its :
  (∀ st it, Inv st → keeps n Inv (body st it)) →
  ∀ st, Inv st → keeps n Inv (Stateful.for_each body its st).
Proof.
  intros Hb. induction its as [|it its IH]; intros st Hst;
    cbn [Stateful.for_each].
  - apply keeps_ret, Hst.
  - eapply keeps_bind; [apply Hb, Hst|]. intros st' Hst'. apply IH, Hst'.
Qed.

Ltac frame_step :=
  first
    [ apply keeps_raise
    | apply keeps_ret; solve [constructor | repeat split; assumption]
    | eapply keeps_bind;
      [ first [ apply keeps_number | apply keeps_array | apply keeps_new
              | apply keeps_setitem; assumption ]
      | intros ? ? ] ].

Lemma keeps_mx_body n Mxs vstep vvir vesc vcirc vmin Arho st it :
  (n ≤ Mxs)%nat →
  keeps n (λ _, True)
    (Stateful.mx_body Mxs vstep vvir vesc vcirc vmin Arho st it).
Proof.
  intros HM. destruct it as [i [[vx vy] vz]]. unfold Stateful.mx_body.
  frame_step. destruct (decide _); repeat frame_step.
Qed.

(** [calculate_Mx] touches no object it found, and the three objects it
    returns are new. *)
Lemma keeps_calculate_Mx n vels vvir vesc vcirc vmin Arho :
  keeps n (λ '(lM, lv, lV), n ≤ lM ∧ n ≤ lv ∧ n ≤ lV)%nat
    (Stateful.calculate_Mx vels vvir vesc vcirc vmin Arho).
Proof.
  unfold Stateful.calculate_Mx. frame_step.
  destruct (negb _); [frame_step|].
  destruct (diff _) as [|s0 steps]; [frame_step|].
  do 3 frame_step.
  eapply keeps_bind;
    [apply (keeps_for_each n (λ _, True)); [|constructor];
     intros; apply keeps_mx_body; assumption|].
  intros st _. destruct (Stateful.fr_vrel st); repeat frame_step.
Qed.

Lemma keeps_value n v : keeps n (λ _, True) (Stateful.value v).
Proof. destruct v; [apply keeps_number | apply keeps_ret; constructor]. Qed.

Lemma keeps_sx_body n Sxs vesc lvhold vcirc vmin minsigma sigma_factor v it :
  (n ≤ Sxs)%nat → caller_or_own lvhold v →
  keeps n (caller_or_own lvhold)
    (Stateful.sx_body Sxs vesc vcirc vmin minsigma sigma_factor v it).
Proof.
  intros HS Hv. destruct it as [i [[vx vy] vz]]. unfold Stateful.sx_body.
  frame_step. destruct (decide _); [|frame_step].
  do 2 frame_step. eapply keeps_bind; [apply keeps_value|]. intros vhold_ _.
  destruct (decide _);
    (eapply keeps_bind;
       [destruct sigma_factor; [apply keeps_number | apply keeps_raise]|];
     intros sf _; repeat frame_step).
Qed.

(** [calculate_Sx] touches no object it found; the array it returns is
    new, and the velocity it returns is new or the caller's [vhold]. *)
Lemma keeps_calculate_Sx n vels vesc vhold vcirc vmin minsigma sigma_factor :
  keeps n (λ '(lS, lV), n ≤ lS ∧ (lV = vhold ∨ n ≤ lV))%nat
    (Stateful.calculate_Sx vels vesc vhold vcirc vmin minsigma sigma_factor).
Proof.
  unfold Stateful.calculate_Sx. do 3 frame_step.
  eapply keeps_bind;
    [apply (keeps_for_each n (caller_or_own vhold)); [|reflexivity];
     intros; apply keeps_sx_body; assumption|].
  intros v Hv. do 2 frame_step.
  eapply keeps_bind with (P := λ l, l = vhold ∨ (n ≤ l)%nat).
  - destruct v as [l|x]; cbn in Hv.
    + apply keeps_ret. left. exact Hv.
    + eapply keeps_weaken; [apply keeps_new|]. intros l Hl. right. exact Hl.
  - intros l Hl. apply keeps_ret. split; assumption.
Qed.

(** [calculate_Mx_and_Sx] touches no object it found, and the four
    objects it returns are new. *)
Lemma keeps_calculate_Mx_and_Sx n vels vvir vesc vcirc vmin Arho minsigma sf :
  keeps n (λ '(lM, lS, lv, lV), n ≤ lM ∧ n ≤ lS ∧ n ≤ lv ∧ n ≤ lV)%nat
    (Stateful.calculate_Mx_and_Sx vels vvir vesc vcirc vmin Arho minsigma sf).
Proof.
  unfold Stateful.calculate_Mx_and_Sx.
  eapply keeps_bind; [apply keeps_calculate_Mx|].
  intros [[Mxs vbar] Vhold] (HM & Hv & HV).
  eapply keeps_bind; [apply keeps_calculate_Sx|].
  intros [Sxs Vhold'] (HS & HV').
  apply keeps_ret. repeat split; try assumption.
  destruct HV' as [->|HV']; assumption.
Qed.

(** A call hands on every object it found, untouched. *)
Lemma call_keeps_store m a h :
  h `prefix_of` (Stateful.call_Mx_and_Sx m a h).2.
Proof.
  destruct (keeps_calculate_Mx_and_Sx (length h)
    (Stateful.arg_vels a)
    (default (Stateful.dflt_vvir m) (Stateful.arg_vvir a))
    (default (Stateful.dflt_vesc m) (Stateful.arg_vesc a))
    (default (Stateful.dflt_vcirc m) (Stateful.arg_vcirc a))
    (default (Stateful.dflt_vmin m) (Stateful.arg_vmin a))
    (default (Stateful.dflt_Arho m) (Stateful.arg_Arho a))
    (default (Stateful.dflt_minsigma m) (Stateful.arg_minsigma a))
    (Stateful.arg_sigma_factor a) h (le_n _)) as (Ht & _ & _).
  rewrite firstn_all in Ht. unfold Stateful.call_Mx_and_Sx.
  rewrite <- Ht at 1. apply prefix_take.
Qed.

(** What a call returns are objects it made. *)
Lemma call_returns_new m a h lM lS lv lV :
  (Stateful.call_Mx_and_Sx m a h).1 = Ok (lM, lS, lv, lV) →
  (length h ≤ lM ∧ length h ≤ lS ∧ length h ≤ lv ∧ length h ≤ lV)%nat.
Proof.
  destruct (keeps_calculate_Mx_and_Sx (length h)
    (Stateful.arg_vels a)
    (default (Stateful.dflt_vvir m) (Stateful.arg_vvir a))
    (default (Stateful.dflt_vesc m) (Stateful.arg_vesc a))
    (default (Stateful.dflt_vcirc m) (Stateful.arg_vcirc a))
    (default (Stateful.dflt_vmin m) (Stateful.arg_vmin a))
    (default (Stateful.dflt_Arho m) (Stateful.arg_Arho a))
    (default (Stateful.dflt_minsigma m) (Stateful.arg_minsigma a))
    (Stateful.arg_sigma_factor a) h (le_n _)) as (_ & _ & HP).
  intros Hr. apply (HP _ Hr).
Qed.

Lemma run_calls_keeps_store m calls : ∀ h,
  h `prefix_of` Stateful.run_calls m calls h.
Proof.
  induction calls as [|a calls IH]; intros h; cbn [Stateful.run_calls];
    [reflexivity|].
  etrans; [apply call_keeps_store | apply IH].
Qed.

(** *** The stateful functions compute what the pure ones do *)

Ltac at_offset k :=
  match goal with
  | |- _ !! ?n = _ => replace n with k by lia; reflexivity
  end.

Lemma enumerate_in_range {A} (l : list A) :
  Forall (λ it, (it.1 < length l)%nat) (enumerate l).
Proof.
  unfold enumerate. apply Forall_forall. intros [i x] Hin.
  apply elem_of_zip_l in Hin. apply elem_of_seq in Hin. cbn. lia.
Qed.

Section refinement.
Variables (h : list Stateful.object).
Variables (lvvir lvesc lvcirc lvmin lArho lminsigma : nat).
Variables (vvir vesc vcirc vmin Arho minsigma : R).
Hypothesis Hvvir : h !! lvvir = Some (Stateful.Number vvir).
Hypothesis Hvesc : h !! lvesc = Some (Stateful.Number vesc).
Hypothesis Hvcirc : h !! lvcirc = Some (Stateful.Number vcirc).
Hypothesis Hvmin : h !! lvmin = Some (Stateful.Number vmin).
Hypothesis HArho : h !! lArho = Some (Stateful.Number Arho).
Hypothesis Hminsigma : h !! lminsigma = Some (Stateful.Number minsigma).

Lemma run_mx_body vstep vbar vrel i t m tl :
  (i < length m)%nat →
  Stateful.mx_body (length h) vstep lvvir lvesc lvcirc lvmin lArho
    (Stateful.MxFrame vbar vrel) (i, t) (h ++ Stateful.Array m :: tl)
  = let st := mx_body vstep vvir vesc vcirc vmin Arho
                (MxLocals vbar vrel m) (i, t) in
    (Ok (Stateful.MxFrame (mx_vbar st) (mx_vrel st)),
     h ++ Stateful.Array (mx_Mxs st) :: tl).
Proof.
  intros Hi. destruct t as [[vx vy] vz]. unfold Stateful.mx_body, mx_body.
  rewrite run_bind, (run_number _ _ vesc) by (apply lookup_app_l_Some, Hvesc).
  destruct (decide (qnorm [vx; vy; vz] <= vesc)) as [Hq|Hq]; [|reflexivity].
  rewrite run_bind, (run_number _ _ vvir) by (apply lookup_app_l_Some, Hvvir).
  rewrite run_bind, (run_number _ _ vmin) by (apply lookup_app_l_Some, Hvmin).
  rewrite run_bind, (run_number _ _ vcirc)
    by (apply lookup_app_l_Some, Hvcirc).
  rewrite run_bind, (run_number _ _ Arho) by (apply lookup_app_l_Some, HArho).
  rewrite run_bind, run_setitem by exact Hi. reflexivity.
Qed.

Lemma mx_loop_refines vstep its : ∀ vbar vrel m tl,
  Forall (λ it, (it.1 < length m)%nat) its →
  Stateful.for_each
    (Stateful.mx_body (length h) vstep lvvir lvesc lvcirc lvmin lArho) its
    (Stateful.MxFrame vbar vrel) (h ++ Stateful.Array m :: tl)
  = let st := foldl (mx_body vstep vvir vesc vcirc vmin Arho)
                (MxLocals vbar vrel m) its in
    (Ok (Stateful.MxFrame (mx_vbar st) (mx_vrel st)),
     h ++ Stateful.Array (mx_Mxs st) :: tl).
Proof.
  induction its as [|[i t] its IH]; intros vbar vrel m tl Hr; [reflexivity|].
  apply Forall_cons in Hr as [Hi Hr]. cbn in Hi.
  cbn [Stateful.for_each foldl]. rewrite run_bind, run_mx_body by exact Hi.
  cbn zeta.
  destruct (mx_body vstep vvir vesc vcirc vmin Arho (MxLocals vbar vrel m)
              (i, t)) as [vbar' vrel' m'] eqn:Hb.
  cbn [mx_vbar mx_vrel mx_Mxs]. apply IH.
  assert (Hlen : length m' = length m).
  { destruct t as [[vx vy] vz]. unfold mx_body in Hb.
    destruct (decide _); injection Hb as <- <- <-;
      [apply length_insert | reflexivity]. }
  rewrite Hlen. exact Hr.
Qed.

Lemma calculate_Mx_refines lvels vels :
  h !! lvels = Some (Stateful.Array vels) →
  let run := Stateful.calculate_Mx lvels lvvir lvesc lvcirc lvmin lArho h in
  ∃ t, run.2 = h ++ t
       ∧ match calculate_Mx vels vvir vesc vcirc vmin Arho with
         | Raise e => run.1 = Raise e
         | Ok (Mxs, vbar, Vhold) =>
             ∃ lM lv lV,
               run.1 = Ok (lM, lv, lV)
               ∧ (h ++ t) !! lM = Some (Stateful.Array Mxs)
               ∧ (h ++ t) !! lv = Some (Stateful.Number vbar)
               ∧ (h ++ t) !! lV = Some (Stateful.Number Vhold)
         end.
Proof.
  intros Hvels. cbn zeta.
  destruct (Stateful.calculate_Mx _ _ _ _ _ _ h) as [r h'] eqn:Hrun.
  cbn [fst snd]. revert Hrun.
  unfold Stateful.calculate_Mx, calculate_Mx.
  rewrite run_bind, (run_array _ _ vels) by exact Hvels.
  destruct (negb (steps_allclose (diff vels)));
    [intros [= <- <-]; exists []; rewrite app_nil_r; split; reflexivity|].
  destruct (diff vels) as [|s0 steps];
    [intros [= <- <-]; exists []; rewrite app_nil_r; split; reflexivity|].
  rewrite run_bind, (run_array _ _ vels) by exact Hvels.
  rewrite run_bind, run_new.
  rewrite run_bind, (run_array _ _ vels) by (apply lookup_app_l_Some, Hvels).
  rewrite run_bind, mx_loop_refines
    by (rewrite length_replicate, <- length_grid;
        apply (enumerate_in_range (grid vels))).
  cbn zeta.
  destruct (foldl _ _ _) as [vbar vrel m]. cbn [mx_vbar mx_vrel mx_Mxs].
  cbn [Stateful.fr_vrel Stateful.fr_vbar].
  destruct vrel as [vrel|];
    [|intros [= <- <-]; eexists; split; reflexivity].
  rewrite run_bind, (run_array _ _ m)
    by (apply list_lookup_middle; reflexivity).
  rewrite !run_bind, !run_new. cbn [mret Stateful.M_ret].
  intros [= <- <-]. rewrite <- !app_assoc. cbn [app].
  eexists. split; [reflexivity|].
  eexists _, _, _. split; [reflexivity|].
  rewrite !length_app. cbn [length].
  split; [|split]; rewrite lookup_app_r by lia.
  - at_offset 1%nat.
  - at_offset 2%nat.
  - at_offset 3%nat.
Qed.

Lemma run_value v x tl :
  Stateful.names h v x → Stateful.value v (h ++ tl) = (Ok x, h ++ tl).
Proof.
  destruct v as [l|y]; cbn; [|intros ->; reflexivity].
  intros Hl. apply run_number, lookup_app_l_Some, Hl.
Qed.

Lemma read_optional_spec lsf sf :
  Stateful.read_optional h lsf = Some sf →
  match lsf, sf with
  | None, None => True
  | Some l, Some s => h !! l = Some (Stateful.Number s)
  | _, _ => False
  end.
Proof.
  unfold Stateful.read_optional, Stateful.read_number.
  destruct lsf as [l|]; [|intros [= <-]; constructor].
  destruct (h !! l) as [[s|a]|]; cbn; try discriminate.
  intros [= <-]. reflexivity.
Qed.

Lemma run_sx_body lsf sf v x i t m tl :
  Stateful.names h v x →
  Stateful.read_optional h lsf = Some sf →
  (i < length m)%nat →
  let run := Stateful.sx_body (length h) lvesc lvcirc lvmin lminsigma lsf v
               (i, t) (h ++ Stateful.Array m :: tl) in
  match sx_body vesc vcirc vmin minsigma sf (SxLocals x m) (i, t) with
  | Ok st =>
      ∃ v', run = (Ok v', h ++ Stateful.Array (sx_Sxs st) :: tl)
            ∧ Stateful.names h v' (sx_vhold st)
            ∧ length (sx_Sxs st) = length m
  | Raise e => run = (Raise e, h ++ Stateful.Array m :: tl)
  end.
Proof.
  intros Hv Hsf Hi. apply read_optional_spec in Hsf.
  destruct t as [[vx vy] vz]. cbn zeta.
  unfold Stateful.sx_body, sx_body. cbn [sx_vhold sx_Sxs].
  rewrite run_bind, (run_number _ _ vesc) by (apply lookup_app_l_Some, Hvesc).
  destruct (decide (qnorm [vx; vy; vz] <= vesc)) as [Hq|Hq];
    [|exists v; split; [reflexivity | split; [exact Hv | reflexivity]]].
  rewrite run_bind, (run_number _ _ vmin) by (apply lookup_app_l_Some, Hvmin).
  rewrite run_bind, (run_number _ _ vcirc)
    by (apply lookup_app_l_Some, Hvcirc).
  rewrite run_bind, (run_value v x) by exact Hv.
  destruct lsf as [l|], sf as [s|]; try contradiction.
  - destruct (decide (qnorm [vmin; vx; vy - vcirc; vz] > x)).
    + rewrite run_bind, (run_number _ _ s) by (apply lookup_app_l_Some, Hsf).
      rewrite run_bind, (run_number _ _ minsigma)
        by (apply lookup_app_l_Some, Hminsigma).
      rewrite run_bind, run_setitem by exact Hi.
      eexists. split; [reflexivity|]. split; [exact Hv|].
      apply length_insert.
    + rewrite run_bind, (run_number _ _ s) by (apply lookup_app_l_Some, Hsf).
      rewrite run_bind, (run_number _ _ minsigma)
        by (apply lookup_app_l_Some, Hminsigma).
      rewrite run_bind, run_setitem by exact Hi.
      eexists. split; [reflexivity|]. split; [reflexivity|].
      apply length_insert.
  - destruct (decide (qnorm [vmin; vx; vy - vcirc; vz] > x)); reflexivity.
Qed.

Lemma sx_loop_refines lsf sf its : ∀ v x m tl,
  Stateful.names h v x →
  Stateful.read_optional h lsf = Some sf →
  Forall (λ it, (it.1 < length m)%nat) its →
  let run := Stateful.for_each
               (Stateful.sx_body (length h) lvesc lvcirc lvmin lminsigma lsf)
               its v (h ++ Stateful.Array m :: tl) in
  match for_each (sx_body vesc vcirc vmin minsigma sf) its (SxLocals x m) with
  | Ok st =>
      ∃ v', run = (Ok v', h ++ Stateful.Array (sx_Sxs st) :: tl)
            ∧ Stateful.names h v' (sx_vhold st)
  | Raise e => ∃ m', run = (Raise e, h ++ Stateful.Array m' :: tl)
  end.
Proof.
  induction its as [|[i t] its IH]; intros v x m tl Hv Hsf Hr; cbn zeta.
  - exists v. split; [reflexivity | exact Hv].
  - apply Forall_cons in Hr as [Hi Hr]. cbn in Hi.
    cbn [Stateful.for_each for_each]. rewrite run_bind.
    pose proof (run_sx_body lsf sf v x i t m tl Hv Hsf Hi) as Hstep.
    cbn zeta in Hstep.
    destruct (sx_body vesc vcirc vmin minsigma sf (SxLocals x m) (i, t))
      as [[x' m']|e]; cbn [mbind result_bind].
    + destruct Hstep as (v' & -> & Hv' & Hlen). cbn [sx_vhold sx_Sxs] in *.
      apply IH; [exact Hv' | exact Hsf | rewrite Hlen; exact Hr].
    + rewrite Hstep. eexists. reflexivity.
Qed.

Lemma calculate_Sx_refines lvels vels lvhold vhold lsf sf :
  h !! lvels = Some (Stateful.Array vels) →
  h !! lvhold = Some (Stateful.Number vhold) →
  Stateful.read_optional h lsf = Some sf →
  let run := Stateful.calculate_Sx lvels lvesc lvhold lvcirc lvmin lminsigma
               lsf h in
  ∃ t, run.2 = h ++ t
       ∧ match calculate_Sx vels vesc vhold vcirc vmin minsigma sf with
         | Raise e => run.1 = Raise e
         | Ok (Sxs, vhold') =>
             ∃ lS lV,
               run.1 = Ok (lS, lV)
               ∧ (h ++ t) !! lS = Some (Stateful.Array Sxs)
               ∧ (h ++ t) !! lV = Some (Stateful.Number vhold')
         end.
Proof.
  intros Hvels Hvhold Hsf. cbn zeta.
  destruct (Stateful.calculate_Sx _ _ _ _ _ _ _ h) as [r h'] eqn:Hrun.
  cbn [fst snd]. revert Hrun.
  unfold Stateful.calculate_Sx, calculate_Sx.
  rewrite run_bind, (run_array _ _ vels) by exact Hvels.
  rewrite run_bind, run_new.
  rewrite run_bind, (run_array _ _ vels) by (apply lookup_app_l_Some, Hvels).
  rewrite run_bind.
  pose proof (sx_loop_refines lsf sf (enumerate (product3 vels vels vels))
                (inl lvhold) vhold (replicate (length vels ^ 3) 0) []
                Hvhold Hsf) as Hloop.
  cbn zeta in Hloop.
  destruct (for_each _ _ _) as [[x m]|e]; cbn [mbind result_bind].
  - destruct Hloop as (v' & -> & Hv').
    { rewrite length_replicate, <- length_grid.
      apply (enumerate_in_range (grid vels)). }
    cbn [sx_vhold sx_Sxs] in *.
    rewrite run_bind, (run_array _ _ m)
      by (apply list_lookup_middle; reflexivity).
    rewrite run_bind, run_new, run_bind.
    destruct v' as [l|y]; cbn in Hv'.
    + cbn [mret Stateful.M_ret]. intros [= <- <-].
      rewrite <- !app_assoc. cbn [app].
      eexists. split; [reflexivity|].
      eexists _, _. split; [reflexivity|]. split.
      * rewrite length_app. cbn [length].
        rewrite lookup_app_r by lia. at_offset 1%nat.
      * apply lookup_app_l_Some, Hv'.
    + subst y. rewrite run_new. cbn [mret Stateful.M_ret]. intros [= <- <-].
      rewrite <- !app_assoc. cbn [app].
      eexists. split; [reflexivity|].
      eexists _, _. split; [reflexivity|].
      rewrite !length_app. cbn [length].
      split; rewrite lookup_app_r by lia; [at_offset 1%nat | at_offset 2%nat].
  - destruct Hloop as (m' & ->).
    { rewrite length_replicate, <- length_grid.
      apply (enumerate_in_range (grid vels)). }
    intros [= <- <-]. eexists. split; reflexivity.
Qed.

End refinement.

Lemma read_number_spec h l x :
  Stateful.read_number h l = Some x ↔ h !! l = Some (Stateful.Number x).
Proof.
  unfold Stateful.read_number. destruct (h !! l) as [[y|a]|]; split;
    intros [= ->]; reflexivity.
Qed.

Lemma read_array_spec h l a :
  Stateful.read_array h l = Some a ↔ h !! l = Some (Stateful.Array a).
Proof.
  unfold Stateful.read_array. destruct (h !! l) as [[y|b]|]; split;
    intros [= ->]; reflexivity.
Qed.

Lemma read_number_later h t l x :
  Stateful.read_number h l = Some x → Stateful.read_number (h ++ t) l = Some x.
Proof. rewrite !read_number_spec. apply lookup_app_l_Some. Qed.

Lemma read_array_later h t l a :
  Stateful.read_array h l = Some a → Stateful.read_array (h ++ t) l = Some a.
Proof. rewrite !read_array_spec. apply lookup_app_l_Some. Qed.

Lemma read_optional_later h t o sf :
  Stateful.read_optional h o = Some sf
  → Stateful.read_optional (h ++ t) o = Some sf.
Proof.
  destruct o as [l|]; cbn; [|trivial].
  destruct (Stateful.read_number h l) as [x|] eqn:Hx; [|discriminate].
  rewrite (read_number_later _ t _ _ Hx). trivial.
Qed.

Lemma inputs_spec h m a vels vvir vesc vcirc vmin Arho minsigma sf :
  Stateful.inputs h m a
  = Some (vels, vvir, vesc, vcirc, vmin, Arho, minsigma, sf) →
  Stateful.read_array h (Stateful.arg_vels a) = Some vels
  ∧ Stateful.read_number h
      (default (Stateful.dflt_vvir m) (Stateful.arg_vvir a)) = Some vvir
  ∧ Stateful.read_number h
      (default (Stateful.dflt_vesc m) (Stateful.arg_vesc a)) = Some vesc
  ∧ Stateful.read_number h
      (default (Stateful.dflt_vcirc m) (Stateful.arg_vcirc a)) = Some vcirc
  ∧ Stateful.read_number h
      (default (Stateful.dflt_vmin m) (Stateful.arg_vmin a)) = Some vmin
  ∧ Stateful.read_number h
      (default (Stateful.dflt_Arho m) (Stateful.arg_Arho a)) = Some Arho
  ∧ Stateful.read_number h
      (default (Stateful.dflt_minsigma m) (Stateful.arg_minsigma a))
    = Some minsigma
  ∧ Stateful.read_optional h (Stateful.arg_sigma_factor a) = Some sf.
Proof.
  unfold Stateful.inputs. intros H.
  repeat match type of H with
  | (?r ≫= _) = _ =>
      destruct r eqn:?; cbn [mbind option_bind] in H; [|discriminate]
  end.
  injection H as <- <- <- <- <- <- <- <-. repeat split; reflexivity.
Qed.

(** The arguments of a call stand for the same values in every later
    store. *)
Lemma inputs_later h t m a vals :
  Stateful.inputs h m a = Some vals → Stateful.inputs (h ++ t) m a = Some vals.
Proof.
  destruct vals as [[[[[[[vels vvir] vesc] vcirc] vmin] Arho] minsigma] sf].
  intros (H1 & H2 & H3 & H4 & H5 & H6 & H7 & H8)%inputs_spec.
  unfold Stateful.inputs.
  rewrite (read_array_later _ t _ _ H1), (read_number_later _ t _ _ H2),
    (read_number_later _ t _ _ H3), (read_number_later _ t _ _ H4),
    (read_number_later _ t _ _ H5), (read_number_later _ t _ _ H6),
    (read_number_later _ t _ _ H7), (read_optional_later _ t _ _ H8).
  reflexivity.
Qed.

Lemma calculate_Mx_and_Sx_refines h lvels lvvir lvesc lvcirc lvmin lArho
    lminsigma lsf vels vvir vesc vcirc vmin Arho minsigma sf :
  Stateful.read_array h lvels = Some vels →
  Stateful.read_number h lvvir = Some vvir →
  Stateful.read_number h lvesc = Some vesc →
  Stateful.read_number h lvcirc = Some vcirc →
  Stateful.read_number h lvmin = Some vmin →
  Stateful.read_number h lArho = Some Arho →
  Stateful.read_number h lminsigma = Some minsigma →
  Stateful.read_optional h lsf = Some sf →
  Stateful.outputs
    (Stateful.calculate_Mx_and_Sx lvels lvvir lvesc lvcirc lvmin lArho
       lminsigma lsf h)
  = Some (calculate_Mx_and_Sx vels vvir vesc vcirc vmin Arho minsigma sf).
Proof.
  rewrite read_array_spec, !read_number_spec.
  intros Hvels Hvvir Hvesc Hvcirc Hvmin HArho Hminsigma Hsf.
  unfold Stateful.calculate_Mx_and_Sx, calculate_Mx_and_Sx.
  rewrite run_bind.
  destruct (calculate_Mx_refines h lvvir lvesc lvcirc lvmin lArho
              vvir vesc vcirc vmin Arho Hvvir Hvesc Hvcirc Hvmin HArho
              lvels vels Hvels) as (t & Ht & HM).
  destruct (Stateful.calculate_Mx _ _ _ _ _ _ h) as [r h1].
  cbn [fst snd] in Ht, HM. subst h1.
  destruct (calculate_Mx vels vvir vesc vcirc vmin Arho)
    as [[[Mxs vbar] Vhold]|e]; cbn [mbind result_bind];
    [|subst r; reflexivity].
  destruct HM as (lM & lv & lV & -> & HlM & Hlv & HlV).
  rewrite run_bind.
  destruct (calculate_Sx_refines (h ++ t) lvesc lvcirc lvmin lminsigma
              vesc vcirc vmin minsigma
              (lookup_app_l_Some _ _ _ _ Hvesc)
              (lookup_app_l_Some _ _ _ _ Hvcirc)
              (lookup_app_l_Some _ _ _ _ Hvmin)
              (lookup_app_l_Some _ _ _ _ Hminsigma)
              lvels vels lV Vhold lsf sf
              (lookup_app_l_Some _ _ _ _ Hvels) HlV
              (read_optional_later _ _ _ _ Hsf)) as (t2 & Ht2 & HS).
  destruct (Stateful.calculate_Sx _ _ _ _ _ _ _ (h ++ t)) as [r h2].
  cbn [fst snd] in Ht2, HS. subst h2.
  destruct (calculate_Sx vels vesc Vhold vcirc vmin minsigma sf)
    as [[Sxs vhold']|e]; cbn [mbind result_bind];
    [|subst r; reflexivity].
  destruct HS as (lS & lV' & -> & HlS & HlV').
  cbn [mret Stateful.M_ret Stateful.outputs].
  apply (lookup_app_l_Some _ t2) in HlM, Hlv.
  apply read_array_spec in HlM, HlS. apply read_number_spec in Hlv, HlV'.
  rewrite HlM, HlS, Hlv, HlV'. reflexivity.
Qed.

(** A call computes the pure function of the values its arguments stand
    for. *)
Lemma call_refines h m a vels vvir vesc vcirc vmin Arho minsigma sf :
  Stateful.inputs h m a
  = Some (vels, vvir, vesc, vcirc, vmin, Arho, minsigma, sf) →
  Stateful.outputs (Stateful.call_Mx_and_Sx m a h)
  = Some (calculate_Mx_and_Sx vels vvir vesc vcirc vmin Arho minsigma sf).
Proof.
  intros (H1 & H2 & H3 & H4 & H5 & H6 & H7 & H8)%inputs_spec.
  unfold Stateful.call_Mx_and_Sx.
  apply calculate_Mx_and_Sx_refines; assumption.
Qed.

Lemma twobody_vesc_formula ap ve1 ve2 vo :
  vo ≠ Some 0 →
  twobody_vesc ap Bare ve1 ve2 vo
  = Ok (sqrt (ve1 ^ 2 + (ve2 - default (ve2 / sqrt 2) vo) ^ 2)).
Proof.
  intros Hvo. rewrite twobody_vesc_cases.
  destruct vo as [v|]; [|reflexivity].
  destruct ap; rewrite decide_False by congruence; reflexivity.
Qed.

Lemma axis_valid_arange start step n :
  (2 <= n)%nat → axis_valid (arange start step n).
Proof.
  intros Hn. split.
  - unfold has_step, arange. rewrite length_map, length_seq. exact Hn.
  - unfold arange. rewrite diff_arange.
    apply steps_allclose_adjacent, adjacent_close_replicate.
Qed.

(** On the axis [0, 1] with escape velocity 2 every triple qualifies; the
    last one, (1, 1, 1), has a relative velocity that is neither the seed
    nor the smallest one on the grid. *)
Example last_qualifying_not_min_nor_seed :
  last (qualifying 2 [0; 1]) = Some (1, 1, 1)
  ∧ (0, 0, 0) ∈ qualifying 2 [0; 1]
  ∧ vrel_at 0 0 (0, 0, 0) < vrel_at 0 0 (1, 1, 1)
  ∧ vrel_at 0 0 (1, 1, 1) ≠ 800.
Proof.
  split; [run_filter; reflexivity|]. split; [run_filter; left|].
  unfold vrel_at, qnorm, sum_sq. cbn [foldr].
  assert (H0 : sqrt (0 ^ 2 + (0 ^ 2 + ((0 - 0) ^ 2 + (0 ^ 2 + 0)))) = 0).
  { replace (0 ^ 2 + (0 ^ 2 + ((0 - 0) ^ 2 + (0 ^ 2 + 0)))) with 0 by lra.
    apply sqrt_0. }
  assert (H1 : 1 < sqrt (0 ^ 2 + (1 ^ 2 + ((1 - 0) ^ 2 + (1 ^ 2 + 0)))))
    by (apply sqrt_above; lra).
  assert (H2 : sqrt (0 ^ 2 + (1 ^ 2 + ((1 - 0) ^ 2 + (1 ^ 2 + 0)))) < 2)
    by (apply sqrt_below; lra).
  split; lra.
Qed.

(** * Main results *)

(** C1.  An escape velocity of 1 km/s on the axis [1, 2] km/s lies below
    the speed of every grid triple, so no triple passes the filter; the
    call then ends in [UnboundLocalError], raised by [Vhold = vrel] on the
    local [vrel] that no iteration has bound.  The program has no
    distinguished failure for an empty integration domain. *)
Theorem calculate_Mx_empty_domain_unbound :
  qualifying 1 [1; 2] = []
  ∧ calculate_Mx [1; 2] 250 1 220 (421 / 10) 3000 = Raise UnboundLocalError.
Proof.
  assert (Hq : qualifying 1 [1; 2] = []) by (run_filter; reflexivity).
  split; [exact Hq|].
  apply calculate_Mx_empty_domain; [apply axis_valid_pair | exact Hq].
Qed.

(** C2.  On every axis that [calculate_Mx] accepts, when some triple
    passes the filter and [(vx, vy, vz)] is the last one that does in
    enumeration order, the call returns and its [Vhold] is
    [norm (vmin, vx, vy - vcirc, vz)]: the relative velocity of that
    triple, neither the minimum over the qualifying triples nor the
    seed 800. *)
Theorem calculate_Mx_Vhold_last_qualifying
    vels vvir vesc vcirc vmin Arho vx vy vz :
  axis_valid vels →
  last (qualifying vesc vels) = Some (vx, vy, vz) →
  ∃ Mxs vbar,
    calculate_Mx vels vvir vesc vcirc vmin Arho
    = Ok (Mxs, vbar, qnorm [vmin; vx; vy - vcirc; vz]).
Proof.
  intros Hv Hlast. rewrite calculate_Mx_valid by exact Hv. rewrite Hlast.
  eexists _, _. reflexivity.
Qed.

Lemma calculate_Mx_Vhold_last_qualifying_witness :
  ∃ Mxs vbar,
    calculate_Mx [0; 1] 1 2 0 0 1 = Ok (Mxs, vbar, qnorm [0; 1; 1 - 0; 1]).
Proof.
  apply (calculate_Mx_Vhold_last_qualifying [0; 1] 1 2 0 0 1 1 1 1).
  - apply axis_valid_pair.
  - run_filter. reflexivity.
Defined.

(** C3.  In a run of [calculate_Sx], every qualifying triple updates the
    carried velocity to [min vrel vhold]; each update starts from the
    value the previous one left, the first from the value handed in; so
    the values sampled once per qualifying triple, starting from the value
    handed in, never increase, and the last of them is the [vhold] the
    call returns.  (With [sigma_factor = None] the first qualifying triple
    raises, and the run has no sample beyond the value handed in.) *)
Theorem calculate_Sx_vhold_non_increasing
    vels vesc vhold vcirc vmin minsigma sigma_factor :
  let us := sx_updates vesc vcirc vmin minsigma sigma_factor
              (enumerate (grid vels))
              (SxLocals vhold (replicate (length vels ^ 3) 0)) in
  let samples :=
    vhold_samples vels vesc vhold vcirc vmin minsigma sigma_factor in
  map vh_vrel us
  = map (vrel_at vcirc vmin)
      (match sigma_factor with
       | Some _ => qualifying vesc vels
       | None => []
       end)
  ∧ Forall (λ u, vh_after u = Rmin (vh_vrel u) (vh_before u)) us
  ∧ map vh_before us = take (length us) samples
  ∧ non_increasing samples
  ∧ match calculate_Sx vels vesc vhold vcirc vmin minsigma sigma_factor with
    | Ok (_, vhold') => last samples = Some vhold'
    | Raise _ => sigma_factor = None
    end.
Proof.
  intros us samples. subst us samples. unfold vhold_samples.
  split; [|split; [|split; [|split]]].
  - rewrite sx_updates_vrels. unfold enumerate. rewrite snd_zip; [reflexivity|].
    rewrite length_seq. reflexivity.
  - apply sx_updates_min.
  - apply (sx_updates_chain _ _ _ _ _ _ (SxLocals vhold _)).
  - apply (sx_updates_non_increasing _ _ _ _ _ _ (SxLocals vhold _)).
  - unfold calculate_Sx. fold (grid vels).
    destruct (for_each _ _ _) as [st|e] eqn:Hrun; cbn.
    + apply (sx_loop_last _ _ _ _ _ _ _ _ Hrun).
    + apply (sx_loop_raises _ _ _ _ _ _ _ _ Hrun).
Qed.

(** C4, as the specification words it, fails: on the axis
    [0, 1, 2.00001, 3.00003] the successive differences drift by 1e-05 at
    each step; every two adjacent ones are close, so the call passes the
    check, while the smallest and the largest are not close, in either
    order. *)
Lemma spacing_check_not_min_max :
  let vels := [0; 1; 200001 / 100000; 300003 / 100000] in
  calculate_Mx vels 250 550 220 (421 / 10) 3000 ≠ Raise ValueError
  ∧ spec_spacing_ok (diff vels) = false
  ∧ isclose (300003 / 100000 - 200001 / 100000) (1 - 0) = false.
Proof.
  cbn zeta. split; [|split].
  - rewrite calculate_Mx_ValueError. cbn [diff].
    rewrite !steps_allclose_cons.
    assert (H1 : isclose (1 - 0) (200001 / 100000 - 1) = true)
      by (apply isclose_spec; compare_literals).
    assert (H2 : isclose (200001 / 100000 - 1)
                   (300003 / 100000 - 200001 / 100000) = true)
      by (apply isclose_spec; compare_literals).
    rewrite H1, H2. discriminate.
  - cbn [diff spec_spacing_ok foldr]. apply isclose_false. compare_literals.
  - apply isclose_false. compare_literals.
Qed.

(** C4, amended.  [calculate_Mx] raises [ValueError] exactly when two
    adjacent successive differences of the axis are not close in numpy's
    sense, [|a - b| <= 1e-08 + 1e-05 * |b|]; the axis [0, 1, 2, 4] is
    rejected, and no evenly spaced axis is. *)
Theorem spacing_check_adjacent vels start step n vvir vesc vcirc vmin Arho :
  (calculate_Mx vels vvir vesc vcirc vmin Arho = Raise ValueError
   ↔ ¬ adjacent_close (diff vels))
  ∧ calculate_Mx [0; 1; 2; 4] vvir vesc vcirc vmin Arho = Raise ValueError
  ∧ calculate_Mx (arange start step n) vvir vesc vcirc vmin Arho
    ≠ Raise ValueError.
Proof.
  split; [|split].
  - rewrite calculate_Mx_ValueError, <- steps_allclose_adjacent.
    destruct (steps_allclose (diff vels)); split; congruence.
  - apply calculate_Mx_ValueError. cbn [diff].
    rewrite !steps_allclose_cons.
    assert (H : isclose (2 - 1) (4 - 2) = false)
      by (apply isclose_false; compare_literals).
    rewrite H. apply andb_false_iff. right. reflexivity.
  - rewrite calculate_Mx_ValueError. unfold arange. rewrite diff_arange.
    apply not_false_iff_true, steps_allclose_adjacent,
      adjacent_close_replicate.
Qed.

(** C5.  On a chain [v :: rest] of escape velocities and with [vo=None],
    [multibody_vesc] multiplies every velocity but the first by
    [1 - 1/sqrt 2]; with [accumulate=False] it returns the
    left-to-right composition of the chain under
    [norm v1 v2 = sqrt (v1^2 + v2^2)]; a single velocity comes back
    unchanged; and the chain 11.186, 42.1, 550 km/s gives 161.9493 km/s
    to four decimals.  With [accumulate=True] the call does not return the
    compositions of the prefixes of the chain: it raises
    [NotImplementedError], on the chain 11.186, 42.1, 550 as on every
    other; the iterator it builds would yield those compositions, one per
    prefix and in order, and [as_quantity] refuses it. *)
Theorem multibody_vesc_circular (v : R) (rest : list R) :
  let chain := v :: map (λ x, x * circular_factor) rest in
  multibody_vesc (v :: rest) None false = Ok (Scalar (compose chain))
  ∧ multibody_vesc [v] None false = Ok (Scalar v)
  ∧ (∃ r, multibody_vesc [11186 / 1000; 421 / 10; 550] None false
          = Ok (Scalar r)
          ∧ Rabs (r - 1619493 / 10000) < 5 / 100000)
  ∧ multibody_vesc [11186 / 1000; 421 / 10; 550] None true
    = Raise NotImplementedError
  ∧ multibody_vesc (v :: rest) None true = Raise NotImplementedError
  ∧ accumulate _norm_v1_v2 chain = map compose (prefixes chain)
  ∧ length (prefixes chain) = length (v :: rest).
Proof.
  cbn zeta. split; [|split; [|split; [|split; [|split; [|split]]]]].
  - reflexivity.
  - reflexivity.
  - apply multibody_galaxy.
  - reflexivity.
  - reflexivity.
  - apply accumulate_prefixes.
  - unfold prefixes. rewrite length_map, length_seq. cbn [length].
    rewrite length_map. reflexivity.
Qed.

(** C6.  With an explicit zero orbital velocity, passed as a bare number,
    the call does not return [sqrt (ve1^2 + (ve2 - vo)^2)]: for [ve1 = 3],
    [ve2 = 4], [vo = 0] that value is 5, and the call returns
    [sqrt (3^2 + (4 - 4/sqrt 2)^2)], which is below 4. *)
Theorem twobody_vesc_explicit_zero_vo (ap : astropy) :
  twobody_vesc ap Bare 3 4 (Some 0)
  = Ok (sqrt (3 ^ 2 + (4 - 4 / sqrt 2) ^ 2))
  ∧ sqrt (3 ^ 2 + (4 - 4 / sqrt 2) ^ 2) < 4
  ∧ sqrt (3 ^ 2 + (4 - 0) ^ 2) = 5.
Proof.
  split; [|split].
  - rewrite twobody_vesc_cases.
    destruct ap; rewrite decide_True by reflexivity; reflexivity.
  - replace (4 - 4 / sqrt 2) with (4 * circular_factor)
      by (unfold circular_factor; field; pose proof sqrt2_bounds; lra).
    pose proof circular_factor_bounds as [Hl Hu].
    apply sqrt_below; nra.
  - replace (3 ^ 2 + (4 - 0) ^ 2) with (5 * 5) by lra.
    apply sqrt_square. lra.
Qed.

(** C7.  On an axis of N samples that [calculate_Mx] accepts, with a
    triple that passes the filter and a numeric [sigma_factor], both
    integrators return, and the mass array and the cross-section array
    hold strictly positive values only and at most N^3 of them. *)
Theorem threshold_arrays_positive_bounded
    vels vvir vesc vcirc vmin Arho vhold minsigma sf :
  axis_valid vels →
  qualifying vesc vels ≠ [] →
  ∃ Mxs vbar Vhold Sxs vhold',
    calculate_Mx vels vvir vesc vcirc vmin Arho = Ok (Mxs, vbar, Vhold)
    ∧ calculate_Sx vels vesc vhold vcirc vmin minsigma (Some sf)
      = Ok (Sxs, vhold')
    ∧ Forall (λ x, 0 < x) Mxs
    ∧ Forall (λ x, 0 < x) Sxs
    ∧ (length Mxs <= length vels ^ 3)%nat
    ∧ (length Sxs <= length vels ^ 3)%nat.
Proof.
  intros Hv Hq.
  destruct (calculate_Sx_total vels vesc vhold vcirc vmin minsigma sf)
    as (Sxs & vhold' & HS & Hpos & Hlen).
  rewrite calculate_Mx_valid by exact Hv.
  apply last_is_Some in Hq as [t Ht]. rewrite Ht.
  eexists _, _, _, Sxs, vhold'.
  split; [reflexivity|]. split; [exact HS|].
  split; [apply positive_entries|]. split; [exact Hpos|].
  split; [|exact Hlen].
  etrans; [apply length_filter|].
  rewrite length_mx_slots, length_grid. reflexivity.
Qed.

Lemma threshold_arrays_positive_bounded_witness :
  ∃ Mxs vbar Vhold Sxs vhold',
    calculate_Mx [0; 1] 1 2 0 1 1 = Ok (Mxs, vbar, Vhold)
    ∧ calculate_Sx [0; 1] 2 800 0 1 1 (Some 1) = Ok (Sxs, vhold')
    ∧ Forall (λ x, 0 < x) Mxs
    ∧ Forall (λ x, 0 < x) Sxs
    ∧ (length Mxs <= length [0; 1] ^ 3)%nat
    ∧ (length Sxs <= length [0; 1] ^ 3)%nat.
Proof.
  apply (threshold_arrays_positive_bounded [0; 1] 1 2 0 1 1 800 1 1).
  - apply axis_valid_pair.
  - run_filter. discriminate.
Defined.

(** C8.  Two calls of [calculate_Mx_and_Sx] whose arguments stand for the
    same values return the same four outputs (or raise the same
    exception), in whatever stores they run: in particular twice in a row,
    and after any history of earlier calls.  The outputs are those of the
    function of the argument values alone.  A call touches no object it
    found (the axis, the arguments, the shared keyword defaults and the
    results of earlier calls stay as they were) and the objects it returns
    are new. *)
Theorem calculate_Mx_and_Sx_deterministic
    (m : Stateful.module_state) (history : list Stateful.call_args)
    (a a' : Stateful.call_args) (h h' : list Stateful.object)
    vels vvir vesc vcirc vmin Arho minsigma sf :
  Stateful.inputs h m a
  = Some (vels, vvir, vesc, vcirc, vmin, Arho, minsigma, sf) →
  Stateful.inputs h' m a'
  = Some (vels, vvir, vesc, vcirc, vmin, Arho, minsigma, sf) →
  let call := Stateful.call_Mx_and_Sx m in
  let later := Stateful.run_calls m history h in
  Stateful.outputs (call a' h') = Stateful.outputs (call a h)
  ∧ Stateful.outputs (call a (call a h).2) = Stateful.outputs (call a h)
  ∧ Stateful.outputs (call a later) = Stateful.outputs (call a h)
  ∧ Stateful.outputs (call a h)
    = Some (calculate_Mx_and_Sx vels vvir vesc vcirc vmin Arho minsigma sf)
  ∧ h `prefix_of` (call a h).2
  ∧ h `prefix_of` later
  ∧ ∀ lM lS lv lV,
      (call a h).1 = Ok (lM, lS, lv, lV) →
      (length h ≤ lM ∧ length h ≤ lS ∧ length h ≤ lv ∧ length h ≤ lV)%nat.
Proof.
  intros Hin Hin'. cbn zeta.
  pose proof (call_refines _ _ _ _ _ _ _ _ _ _ _ Hin) as Hout.
  assert (Hlater : ∀ h2, h `prefix_of` h2 →
            Stateful.outputs (Stateful.call_Mx_and_Sx m a h2)
            = Stateful.outputs (Stateful.call_Mx_and_Sx m a h)).
  { intros h2 [t ->]. rewrite Hout.
    apply call_refines, inputs_later, Hin. }
  split; [rewrite Hout; apply call_refines, Hin'|].
  split; [apply Hlater, call_keeps_store|].
  split; [apply Hlater, run_calls_keeps_store|].
  split; [exact Hout|].
  split; [apply call_keeps_store|].
  split; [apply run_calls_keeps_store|].
  apply call_returns_new.
Qed.

Lemma calculate_Mx_and_Sx_deterministic_witness :
  let m := Stateful.at_import.1 in
  let h := Stateful.at_import.2
           ++ [Stateful.Array [0; 1]; Stateful.Number 1] in
  let a := Stateful.CallArgs 6%nat None (Some 7%nat) None None None None
             (Some 7%nat) in
  let h' := [Stateful.Number 1; Stateful.Array [0; 1]] ++ Stateful.at_import.2
  in
  let a' := Stateful.CallArgs 1%nat (Some 2%nat) (Some 0%nat) (Some 4%nat)
              (Some 5%nat) (Some 6%nat) (Some 7%nat) (Some 0%nat) in
  Stateful.outputs (Stateful.call_Mx_and_Sx m a' h')
  = Stateful.outputs (Stateful.call_Mx_and_Sx m a h)
  ∧ Stateful.outputs
      (Stateful.call_Mx_and_Sx m a (Stateful.run_calls m [a'; a] h))
    = Stateful.outputs (Stateful.call_Mx_and_Sx m a h).
Proof.
  cbn zeta.
  destruct (calculate_Mx_and_Sx_deterministic Stateful.at_import.1 
              [Stateful.CallArgs 1%nat (Some 2%nat) (Some 0%nat) (Some 4%nat)
                 (Some 5%nat) (Some 6%nat) (Some 7%nat) (Some 0%nat);
               Stateful.CallArgs 6%nat None (Some 7%nat) None None None None
                 (Some 7%nat)]
              (Stateful.CallArgs 6%nat None (Some 7%nat) None None None None
                 (Some 7%nat))
              (Stateful.CallArgs 1%nat (Some 2%nat) (Some 0%nat) (Some 4%nat)
                 (Some 5%nat) (Some 6%nat) (Some 7%nat) (Some 0%nat))
              (Stateful.at_import.2
               ++ [Stateful.Array [0; 1]; Stateful.Number 1])
              ([Stateful.Number 1; Stateful.Array [0; 1]]
               ++ Stateful.at_import.2)
              [0; 1] 250 1 220 (421 / 10) 3000 (6 / 100000000) (Some 1)
              eq_refl eq_refl) as (H1 & _ & H3 & _).
  split; [exact H1 | exact H3].
Defined.

(** C9, as the specification words it, fails for a zero that is a
    quantity: its truth value is not that of the number.  Before astropy 7
    the zero is kept and the call on 3, 4 returns 5, not what it returns
    with [vo] omitted; from astropy 7 on the call raises [ValueError],
    where the call with [vo] omitted returns. *)
Lemma twobody_vesc_zero_quantity_kept :
  twobody_vesc astropy_before_7 Speed 3 4 (Some 0) = Ok 5
  ∧ twobody_vesc astropy_before_7 Speed 3 4 (Some 0)
    ≠ twobody_vesc astropy_before_7 Speed 3 4 None
  ∧ twobody_vesc astropy_from_7 Speed 3 4 (Some 0) = Raise ValueError
  ∧ twobody_vesc astropy_from_7 Speed 3 4 (Some 0)
    ≠ twobody_vesc astropy_from_7 Speed 3 4 None.
Proof.
  assert (H5 : sqrt (3 ^ 2 + (4 - 0) ^ 2) = 5).
  { replace (3 ^ 2 + (4 - 0) ^ 2) with (5 * 5) by lra. apply sqrt_square. lra. }
  assert (Hd : sqrt (3 ^ 2 + (4 * circular_factor) ^ 2) < 5).
  { pose proof circular_factor_bounds as [Hl Hu]. apply sqrt_below; nra. }
  rewrite !twobody_default, !twobody_vesc_cases, H5.
  split; [reflexivity|]. split; [|split; [reflexivity | discriminate]].
  intros Heq. assert (5 = sqrt (3 ^ 2 + (4 * circular_factor) ^ 2))
    by congruence. lra.
Qed.

(** C9, amended.  For every [ve1] and [ve2] passed as bare numbers,
    [twobody_vesc] called with [vo = 0] returns what it returns with [vo]
    omitted, [sqrt (ve1^2 + (ve2 - ve2/sqrt 2)^2)]; unless [ve2] is zero
    this is not [sqrt (ve1^2 + ve2^2)].  A zero quantity is not replaced:
    before astropy 7 the call returns [sqrt (ve1^2 + ve2^2)], from
    astropy 7 on it raises [ValueError]. *)
Theorem twobody_vesc_zero_is_default (ap : astropy) (ve1 ve2 : R) :
  twobody_vesc ap Bare ve1 ve2 (Some 0) = twobody_vesc ap Bare ve1 ve2 None
  ∧ twobody_vesc ap Bare ve1 ve2 (Some 0)
    = Ok (sqrt (ve1 ^ 2 + (ve2 - ve2 / sqrt 2) ^ 2))
  ∧ (ve2 ≠ 0 →
     twobody_vesc ap Bare ve1 ve2 (Some 0) ≠ Ok (sqrt (ve1 ^ 2 + ve2 ^ 2)))
  ∧ twobody_vesc astropy_before_7 Speed ve1 ve2 (Some 0)
    = Ok (sqrt (ve1 ^ 2 + ve2 ^ 2))
  ∧ twobody_vesc astropy_from_7 Speed ve1 ve2 (Some 0) = Raise ValueError.
Proof.
  assert (He : twobody_vesc ap Bare ve1 ve2 (Some 0)
               = twobody_vesc ap Bare ve1 ve2 None).
  { rewrite !twobody_vesc_cases.
    destruct ap; rewrite decide_True by reflexivity; reflexivity. }
  split; [exact He|]. split; [rewrite He; apply twobody_vesc_cases|].
  split; [|split].
  - intros Hne. rewrite He, twobody_default. intros [= Heq].
    apply sqrt_inj in Heq; [|nra|nra].
    pose proof circular_factor_bounds as [Hl Hu].
    assert (H1 : circular_factor ^ 2 < 1) by nra.
    assert (H2 : 0 < ve2 ^ 2) by nra.
    nra.
  - rewrite twobody_vesc_cases. do 3 f_equal. lra.
  - apply twobody_vesc_cases.
Qed.

Lemma twobody_vesc_zero_is_default_witness :
  twobody_vesc astropy_before_7 Bare 3 4 (Some 0)
  = twobody_vesc astropy_before_7 Bare 3 4 None
  ∧ twobody_vesc astropy_before_7 Bare 3 4 (Some 0)
    ≠ Ok (sqrt (3 ^ 2 + 4 ^ 2)).
Proof.
  destruct (twobody_vesc_zero_is_default astropy_before_7 3 4)
    as (H1 & _ & H3 & _).
  split; [exact H1 | apply H3; lra].
Defined.

(** C10.  On an axis that [calculate_Mx] accepts, with a triple that
    passes the filter, the call returns; the mass array is, in order, the
    positive ones among [Arho] times the cumulative flux after each
    qualifying triple, and it never decreases from one entry to the
    next. *)
Theorem calculate_Mx_sorted vels vvir vesc vcirc vmin Arho :
  axis_valid vels →
  qualifying vesc vels ≠ [] →
  ∃ Mxs vbar Vhold,
    calculate_Mx vels vvir vesc vcirc vmin Arho = Ok (Mxs, vbar, Vhold)
    ∧ Mxs = filter (λ x, x > 0)
              (map (Rmult Arho)
                 (cumulative_flux (vstep_of vels) vvir vesc vcirc vmin 0
                    (grid vels)))
    ∧ non_decreasing Mxs.
Proof.
  intros Hv Hq. rewrite calculate_Mx_valid by exact Hv.
  apply last_is_Some in Hq as [t Ht]. rewrite Ht.
  eexists _, _, _. split; [reflexivity|].
  rewrite mx_slots_compact. split; [reflexivity|].
  apply compacted_flux_sorted.
Qed.

Lemma calculate_Mx_sorted_witness :
  ∃ Mxs vbar Vhold,
    calculate_Mx [0; 1] 1 2 0 1 1 = Ok (Mxs, vbar, Vhold)
    ∧ Mxs = filter (λ x, x > 0)
              (map (Rmult 1)
                 (cumulative_flux (vstep_of [0; 1]) 1 2 0 1 0 (grid [0; 1])))
    ∧ non_decreasing Mxs.
Proof.
  apply (calculate_Mx_sorted [0; 1] 1 2 0 1 1).
  - apply axis_valid_pair.
  - run_filter. discriminate.
Defined.

(** * Further properties *)

(** ** Euclidean norms and compositions *)

Lemma sum_sq_nonneg v : 0 <= sum_sq v.
Proof.
  induction v as [|x v IH]; cbn [sum_sq foldr]; [lra|].
  fold (sum_sq v). nra.
Qed.

Lemma sum_sq_cons x v : sum_sq (x :: v) = x ^ 2 + sum_sq v.
Proof. reflexivity. Qed.

Lemma sum_sq_perm v w : v ≡ₚ w → sum_sq v = sum_sq w.
Proof.
  induction 1 as [|x v w _ IH|x y v|v w u _ IH1 _ IH2].
  - reflexivity.
  - rewrite !sum_sq_cons, IH. reflexivity.
  - rewrite !sum_sq_cons. lra.
  - congruence.
Qed.

Lemma foldl_norm_sqrt l : ∀ s,
  0 <= s → foldl _norm_v1_v2 (sqrt s) l = sqrt (s + sum_sq l).
Proof.
  induction l as [|x l IH]; intros s Hs; cbn [foldl].
  - f_equal. cbn. lra.
  - unfold _norm_v1_v2 at 2. rewrite pow2_sqrt by exact Hs.
    rewrite IH by nra. rewrite sum_sq_cons. f_equal. lra.
Qed.

(** A composition of two or more velocities is their Euclidean norm. *)
Lemma compose_qnorm v w rest :
  compose (v :: w :: rest) = qnorm (v :: w :: rest).
Proof.
  unfold compose, qnorm. cbn [foldl]. unfold _norm_v1_v2 at 2.
  rewrite foldl_norm_sqrt by nra. rewrite !sum_sq_cons. f_equal. lra.
Qed.

(** X1.  On two bodies the two composers agree: [multibody_vesc] on
    [ve1, ve2] returns what [twobody_vesc] returns, with [vo] omitted and
    with an explicit non-zero orbital velocity.  The one exception is a
    quantity [vo] from astropy 7 on, where [twobody_vesc] asks for its
    truth value and raises [ValueError]. *)
Theorem twobody_vesc_is_multibody_vesc
    (ap : astropy) (k : kind) (ve1 ve2 vo : R) :
  vo ≠ 0 →
  (∃ r, twobody_vesc ap k ve1 ve2 None = Ok r
        ∧ multibody_vesc [ve1; ve2] None false = Ok (Scalar r))
  ∧ (∃ r, multibody_vesc [ve1; ve2] (Some (VoScalar vo)) false
          = Ok (Scalar r)
          ∧ twobody_vesc ap k ve1 ve2 (Some vo)
            = match k, ap with
              | Speed, astropy_from_7 => Raise ValueError
              | _, _ => Ok r
              end).
Proof.
  intros Hvo. split.
  - rewrite twobody_vesc_cases. eexists. split; [reflexivity|].
    cbn. do 2 f_equal. unfold _norm_v1_v2.
    do 2 f_equal. unfold Rdiv. ring.
  - rewrite twobody_vesc_cases. eexists. split; [reflexivity|].
    destruct k, ap; try rewrite decide_False by exact Hvo; reflexivity.
Qed.

Lemma twobody_vesc_is_multibody_vesc_witness :
  (∃ r, twobody_vesc astropy_before_7 Speed 3 4 None = Ok r
        ∧ multibody_vesc [3; 4] None false = Ok (Scalar r))
  ∧ (∃ r, multibody_vesc [3; 4] (Some (VoScalar 1)) false = Ok (Scalar r)
          ∧ twobody_vesc astropy_before_7 Speed 3 4 (Some 1) = Ok r).
Proof.
  apply (twobody_vesc_is_multibody_vesc astropy_before_7 Speed 3 4 1). lra.
Defined.

(** X2.  With [vo=None] the compound escape velocity of two or more
    bodies is the Euclidean norm of the first velocity and the later ones
    scaled by the circular-orbit factor. *)
Theorem multibody_vesc_euclidean (v w : R) (rest : list R) :
  multibody_vesc (v :: w :: rest) None false
  = Ok (Scalar (qnorm (v :: map (λ x, x * circular_factor) (w :: rest)))).
Proof.
  rewrite multibody_default_reduce. do 2 f_equal.
  apply (compose_qnorm v (w * circular_factor)).
Qed.

(** X3.  With [vo=None] the compound escape velocity does not depend on
    the order in which the bodies after the first are given. *)
Theorem multibody_vesc_outer_order (v : R) (rest rest' : list R) :
  rest ≡ₚ rest' →
  multibody_vesc (v :: rest) None false = multibody_vesc (v :: rest') None false.
Proof.
  intros Hp. rewrite !multibody_default_reduce. do 2 f_equal.
  destruct rest as [|w rest].
  - apply Permutation_nil_l in Hp as ->. reflexivity.
  - destruct rest' as [|w' rest'].
    + symmetry in Hp. apply Permutation_nil_l in Hp. discriminate.
    + cbn [map]. 
      rewrite (compose_qnorm v (w * circular_factor)
                 (map (λ x, x * circular_factor) rest)
               : foldl _ _ _ = _).
      rewrite (compose_qnorm v (w' * circular_factor)
                 (map (λ x, x * circular_factor) rest')
               : foldl _ _ _ = _).
      unfold qnorm. f_equal. rewrite !sum_sq_cons. f_equal.
      rewrite <- !sum_sq_cons.
      apply (sum_sq_perm (map (λ x, x * circular_factor) (w :: rest))
                          (map (λ x, x * circular_factor) (w' :: rest'))).
      apply Permutation_map, Hp.
Qed.

Lemma multibody_vesc_outer_order_witness :
  multibody_vesc [1; 2; 3] None false = multibody_vesc [1; 3; 2] None false.
Proof. apply (multibody_vesc_outer_order 1 [2; 3] [3; 2]), perm_swap. Defined.

(** X5.  With a sequence for [vo] and at least one velocity,
    [multibody_vesc] raises [ValueError] exactly when the sequence has
    neither one element nor one element fewer than the velocities (the
    subtraction is from [vs[1:]]); otherwise it returns a scalar with
    [accumulate=False] and raises [NotImplementedError] with
    [accumulate=True]. *)
Theorem multibody_vesc_vo_sequence (v : R) (rest vo : list R) (acc : bool) :
  (multibody_vesc (v :: rest) (Some (VoSeq vo)) acc = Raise ValueError
   ↔ length vo ≠ length rest ∧ length vo ≠ 1%nat)
  ∧ (multibody_vesc (v :: rest) (Some (VoSeq vo)) false ≠ Raise ValueError
     → ∃ r, multibody_vesc (v :: rest) (Some (VoSeq vo)) false
            = Ok (Scalar r))
  ∧ (multibody_vesc (v :: rest) (Some (VoSeq vo)) true ≠ Raise ValueError
     → multibody_vesc (v :: rest) (Some (VoSeq vo)) true
       = Raise NotImplementedError).
Proof.
  unfold multibody_vesc, as_quantity. cbn [mbind result_bind].
  change (drop 1 (v :: rest)) with rest. change (take 1 (v :: rest)) with [v].
  unfold sub_broadcast.
  assert (Hraise : ∀ A (e : exn), (Raise e : result A) ≠ Raise e → False)
    by (intros A e H; apply H; reflexivity).
  destruct (decide (length vo = length rest)) as [Hl|Hl].
  - cbn. split; [|split; [eauto | reflexivity]].
    destruct acc; cbn; (split; [intros [=] | tauto]).
  - destruct vo as [|x [|y vo]]; cbn.
    + split; [|split; intros H; destruct (Hraise _ _ H)].
      split; [intros _; split; [exact Hl | lia] | reflexivity].
    + split; [|split; [eauto | reflexivity]].
      destruct acc; cbn;
        (split; [intros [=] | intros [_ H]; exfalso; apply H; reflexivity]).
    + split; [|split; intros H; destruct (Hraise _ _ H)].
      split; [intros _; split; [exact Hl | lia] | reflexivity].
Qed.

(** X6.  The two-body escape velocity is at least the magnitude of the
    escape velocity of the inner body, whatever [vo]; with the circular
    default it is at most [sqrt (ve1^2 + ve2^2)].  The call returns,
    except on a quantity [vo] from astropy 7 on, where it raises
    [ValueError]. *)
Theorem twobody_vesc_bounds
    (ap : astropy) (k : kind) (ve1 ve2 : R) (vo : option R) :
  match twobody_vesc ap k ve1 ve2 vo with
  | Ok r => Rabs ve1 <= r
  | Raise e => e = ValueError ∧ k = Speed ∧ ap = astropy_from_7 ∧ vo ≠ None
  end
  ∧ ∃ r, twobody_vesc ap k ve1 ve2 None = Ok r
         ∧ r <= sqrt (ve1 ^ 2 + ve2 ^ 2).
Proof.
  assert (Hb : ∀ c, Rabs ve1 <= sqrt (ve1 ^ 2 + (ve2 - c) ^ 2)).
  { intros c. rewrite <- sqrt_Rsqr_abs. apply sqrt_le_1_alt. unfold Rsqr.
    set (d := ve2 - c). assert (0 <= d ^ 2) by nra. nra. }
  split.
  - rewrite twobody_vesc_cases.
    destruct vo as [v|]; [|apply Hb].
    destruct k, ap; try apply Hb. repeat split. discriminate.
  - rewrite twobody_default. eexists. split; [reflexivity|].
    apply sqrt_le_1_alt.
    pose proof circular_factor_bounds as [Hl Hu].
    assert (circular_factor ^ 2 <= 1) by nra.
    assert (0 <= ve2 ^ 2) by nra. nra.
Qed.

Lemma sum_sq_scale k v : sum_sq (map (Rmult k) v) = k ^ 2 * sum_sq v.
Proof.
  induction v as [|x v IH]; cbn [map]; [cbn; lra|].
  rewrite !sum_sq_cons, IH. ring.
Qed.

Lemma total_qsquare v : total (qsquare v) = sum_sq v.
Proof.
  induction v as [|x v IH]; [reflexivity|].
  cbn [qsquare map total foldr]. fold (qsquare v) (total (qsquare v)).
  rewrite IH, sum_sq_cons. unfold Rsqr. ring.
Qed.

Lemma abs_le_qnorm x v : x ∈ v → Rabs x <= qnorm v.
Proof.
  unfold qnorm. rewrite <- sqrt_Rsqr_abs. intros Hx. apply sqrt_le_1_alt.
  induction Hx as [x v|x y v _ IH]; rewrite sum_sq_cons.
  - pose proof (sum_sq_nonneg v). unfold Rsqr. nra.
  - nra.
Qed.

(** X7.  [qnorm] is the Euclidean norm: non-negative, its square the sum
    of [qsquare], absolutely homogeneous, an upper bound of the magnitude
    of every argument, and zero exactly when all arguments are zero. *)
Theorem qnorm_euclidean (k : R) (v : list R) :
  0 <= qnorm v
  ∧ qnorm v ^ 2 = total (qsquare v)
  ∧ qnorm (map (Rmult k) v) = Rabs k * qnorm v
  ∧ Forall (λ x, Rabs x <= qnorm v) v
  ∧ (qnorm v = 0 ↔ Forall (λ x, x = 0) v).
Proof.
  pose proof (sum_sq_nonneg v) as Hs.
  split; [apply sqrt_pos|]. split; [|split; [|split]].
  - unfold qnorm. rewrite pow2_sqrt by exact Hs. symmetry. apply total_qsquare.
  - unfold qnorm. rewrite sum_sq_scale, sqrt_mult by (try nra; exact Hs).
    f_equal. rewrite <- sqrt_Rsqr_abs. f_equal. unfold Rsqr. ring.
  - apply Forall_forall. intros x Hx. apply abs_le_qnorm, Hx.
  - unfold qnorm. split.
    + intros H0. apply sqrt_eq_0 in H0; [|exact Hs]. clear Hs.
      induction v as [|x v IH]; constructor.
      * rewrite sum_sq_cons in H0. pose proof (sum_sq_nonneg v). nra.
      * apply IH. rewrite sum_sq_cons in H0. pose proof (sum_sq_nonneg v). nra.
    + intros Hall. replace (sum_sq v) with 0; [apply sqrt_0|]. clear Hs.
      induction Hall as [|x v -> _ IH]; [reflexivity|].
      rewrite sum_sq_cons, <- IH. ring.
Qed.

(** X8.  The Maxwellian bin weight does not depend on the unit of speed:
    scaling the speed, the bin width and the virial velocity by the same
    non-zero factor leaves it unchanged. *)
Theorem f_BM_bin_scale_invariant (k vx vbin vvir : R) :
  k ≠ 0 → vvir ≠ 0 →
  f_BM_bin (k * vx) (k * vbin) (k * vvir) = f_BM_bin vx vbin vvir.
Proof.
  intros Hk Hv. unfold f_BM_bin. cbn zeta.
  replace (k * vbin / (k * vvir)) with (vbin / vvir) by (field; tauto).
  replace (k * vx / (k * vvir)) with (vx / vvir) by (field; tauto).
  reflexivity.
Qed.

Lemma f_BM_bin_scale_invariant_witness :
  f_BM_bin (1000 * 3) (1000 * 1) (1000 * 250) = f_BM_bin 3 1 250.
Proof. apply (f_BM_bin_scale_invariant 1000 3 1 250); lra. Defined.

(** X9.  For a positive bin width and virial velocity the Maxwellian bin
    weight is positive, falls as the magnitude of the speed grows (so it
    is even in the speed), and peaks at speed zero with the value
    [(vbin / vvir)^3 / pi^(3/2)]. *)
Theorem f_BM_bin_peak (vx1 vx2 vbin vvir : R) :
  0 < vbin → 0 < vvir → Rabs vx1 <= Rabs vx2 →
  0 < f_BM_bin vx2 vbin vvir
  ∧ f_BM_bin vx2 vbin vvir <= f_BM_bin vx1 vbin vvir
  ∧ f_BM_bin vx1 vbin vvir <= f_BM_bin 0 vbin vvir
  ∧ f_BM_bin 0 vbin vvir = (vbin / vvir) ^ 3 / Rpower PI (3 / 2).
Proof.
  intros Hb Hv Habs. unfold f_BM_bin. cbn zeta.
  assert (Hn : 0 < (vbin / vvir) ^ 3 / Rpower PI (3 / 2)).
  { apply Rdiv_lt_0_compat; [|apply exp_pos].
    apply pow_lt, Rdiv_lt_0_compat; assumption. }
  assert (Hmono : ∀ a b, Rabs a <= Rabs b →
            exp (- Rsqr (b / vvir)) <= exp (- Rsqr (a / vvir))).
  { intros a b Hab.
    assert (Hsq : Rsqr (a / vvir) <= Rsqr (b / vvir)).
    { apply Rsqr_le_abs_1. unfold Rdiv. rewrite !Rabs_mult.
      apply Rmult_le_compat_r; [apply Rabs_pos | exact Hab]. }
    destruct (Rle_lt_or_eq_dec _ _ Hsq) as [Hlt|Heq].
    - left. apply exp_increasing. lra.
    - right. rewrite Heq. reflexivity. }
  split; [apply Rmult_lt_0_compat; [exact Hn | apply exp_pos]|].
  split; [apply Rmult_le_compat_l; [lra | apply Hmono, Habs]|].
  split.
  - apply Rmult_le_compat_l; [lra|]. apply Hmono.
    rewrite Rabs_R0. apply Rabs_pos.
  - replace (0 / vvir) with 0 by (unfold Rdiv; ring).
    rewrite Rsqr_0, Ropp_0, exp_0. ring.
Qed.

Lemma f_BM_bin_peak_witness :
  0 < f_BM_bin 2 1 250
  ∧ f_BM_bin 2 1 250 <= f_BM_bin (-1) 1 250
  ∧ f_BM_bin (-1) 1 250 <= f_BM_bin 0 1 250
  ∧ f_BM_bin 0 1 250 = (1 / 250) ^ 3 / Rpower PI (3 / 2).
Proof.
  apply (f_BM_bin_peak (-1) 2 1 250); [lra | lra |].
  unfold Rabs. destruct (Rcase_abs (-1)), (Rcase_abs 2); lra.
Defined.

(** ** Ranges *)

Lemma ceil_spec x : IZR (ceil x) - 1 < x <= IZR (ceil x).
Proof.
  unfold ceil. rewrite opp_IZR.
  destruct (base_Int_part (- x)) as [H1 H2]. lra.
Qed.

Lemma INR_ceil x : 0 < x → INR (Z.to_nat (ceil x)) = IZR (ceil x).
Proof.
  intros Hx. rewrite INR_IZR_INZ, Z2Nat.id; [reflexivity|].
  destruct (ceil_spec x) as [_ H]. apply le_IZR. lra.
Qed.

Lemma ceil_nonpos x : x <= 0 → Z.to_nat (ceil x) = 0%nat.
Proof.
  intros Hx. destruct (ceil_spec x) as [H _].
  assert (ceil x <= 0)%Z; [|lia].
  apply Z.lt_succ_r, lt_IZR. rewrite succ_IZR. lra.
Qed.

Lemma lookup_arange start step n i x :
  arange start step n !! i = Some x → (i < n)%nat ∧ x = start + INR i * step.
Proof.
  unfold arange. rewrite list_lookup_fmap. intros H.
  destruct (seq 0 n !! i) as [j|] eqn:Hj; [|discriminate].
  apply lookup_seq in Hj as [-> Hi]. injection H as <-. split; [exact Hi|].
  reflexivity.
Qed.

Lemma length_arange start step n : length (arange start step n) = n.
Proof. unfold arange. rewrite length_map, length_seq. reflexivity. Qed.

Lemma arange_increasing start step n :
  0 < step → strictly_increasing (arange start step n).
Proof.
  intros Hs i a b Ha Hb.
  apply lookup_arange in Ha as [_ ->]. apply lookup_arange in Hb as [_ ->].
  rewrite S_INR. nra.
Qed.

Lemma Forall_arange (P : R → Prop) start step n :
  (∀ i, (i < n)%nat → P (start + INR i * step)) →
  Forall P (arange start step n).
Proof.
  intros H. apply Forall_lookup. intros i x Hx.
  apply lookup_arange in Hx as [Hi ->]. apply H, Hi.
Qed.

(** X10.  With a positive step [qarange] returns samples that all lie in
    [start, stop) and increase strictly; it is empty exactly when
    [stop <= start], and otherwise one more step from the last sample
    reaches [stop]. *)
Theorem qarange_ascending (start stop step : R) :
  0 < step →
  ∃ l, qarange start stop step = Some l
       ∧ Forall (λ x, start <= x < stop) l
       ∧ strictly_increasing l
       ∧ (l = [] ↔ stop <= start)
       ∧ (start < stop → stop <= start + INR (length l) * step).
Proof.
  intros Hs. unfold qarange, np_arange. rewrite decide_False by lra.
  set (q := (stop - start) / step).
  assert (Hq : q * step = stop - start) by (unfold q; field; lra).
  eexists. split; [reflexivity|]. split; [|split; [|split]].
  - apply Forall_arange. intros i Hi.
    assert (Hpos : 0 < q).
    { destruct (Rlt_le_dec 0 q) as [H|H]; [exact H|].
      rewrite ceil_nonpos in Hi by exact H. lia. }
    assert (Hi' : INR i <= IZR (ceil q) - 1).
    { rewrite <- INR_ceil by exact Hpos.
      replace (INR (Z.to_nat (ceil q)) - 1) with (INR (Z.to_nat (ceil q) - 1)).
      - apply le_INR. lia.
      - rewrite minus_INR by lia. reflexivity. }
    destruct (ceil_spec q) as [H1 _]. pose proof (pos_INR i). nra.
  - apply arange_increasing, Hs.
  - rewrite <- length_zero_iff_nil, length_arange. split.
    + intros Hn. destruct (Rlt_le_dec 0 q) as [H|H]; [|nra].
      pose proof (INR_ceil q H) as Hc. rewrite Hn in Hc. cbn in Hc.
      destruct (ceil_spec q) as [_ H2]. lra.
    + intros Hle. apply ceil_nonpos. 
      destruct (Rlt_le_dec 0 q) as [H|H]; [nra | exact H].
  - intros Hlt. rewrite length_arange.
    assert (Hpos : 0 < q) by nra.
    rewrite INR_ceil by exact Hpos. destruct (ceil_spec q) as [_ H2]. nra.
Qed.

Lemma qarange_ascending_witness :
  ∃ l, qarange 0 1 (1 / 4) = Some l
       ∧ Forall (λ x, 0 <= x < 1) l
       ∧ strictly_increasing l
       ∧ (l = [] ↔ 1 <= 0)
       ∧ (0 < 1 → 1 <= 0 + INR (length l) * (1 / 4)).
Proof. apply (qarange_ascending 0 1 (1 / 4)). lra. Defined.

(** X11.  With a negative step [qarange] returns samples that all lie
    in (stop, start]; it is empty exactly when [start <= stop]. *)
Theorem qarange_descending (start stop step : R) :
  step < 0 →
  ∃ l, qarange start stop step = Some l
       ∧ Forall (λ x, stop < x <= start) l
       ∧ (l = [] ↔ start <= stop).
Proof.
  intros Hs. unfold qarange, np_arange. rewrite decide_False by lra.
  set (q := (stop - start) / step).
  assert (Hq : q * step = stop - start) by (unfold q; field; lra).
  eexists. split; [reflexivity|]. split.
  - apply Forall_arange. intros i Hi.
    assert (Hpos : 0 < q).
    { destruct (Rlt_le_dec 0 q) as [H|H]; [exact H|].
      rewrite ceil_nonpos in Hi by exact H. lia. }
    assert (Hi' : INR i <= IZR (ceil q) - 1).
    { rewrite <- INR_ceil by exact Hpos.
      replace (INR (Z.to_nat (ceil q)) - 1) with (INR (Z.to_nat (ceil q) - 1)).
      - apply le_INR. lia.
      - rewrite minus_INR by lia. reflexivity. }
    destruct (ceil_spec q) as [H1 _]. pose proof (pos_INR i). nra.
  - rewrite <- length_zero_iff_nil, length_arange. split.
    + intros Hn. destruct (Rlt_le_dec 0 q) as [H|H]; [|nra].
      pose proof (INR_ceil q H) as Hc. rewrite Hn in Hc. cbn in Hc.
      destruct (ceil_spec q) as [_ H2]. lra.
    + intros Hle. apply ceil_nonpos.
      destruct (Rlt_le_dec 0 q) as [H|H]; [nra | exact H].
Qed.

Lemma qarange_descending_witness :
  ∃ l, qarange 1 0 (- (1 / 4)) = Some l
       ∧ Forall (λ x, 0 < x <= 1) l
       ∧ (l = [] ↔ 1 <= 0).
Proof. apply (qarange_descending 1 0 (- (1 / 4))). lra. Defined.

(** ** Outcomes and outputs of [calculate_Mx] *)

Lemma diff_short vels : (length vels < 2)%nat → diff vels = [].
Proof. destruct vels as [|x [|y r]]; cbn; [reflexivity..|lia]. Qed.

(** The four ways a call of [calculate_Mx] can end. *)
Lemma calculate_Mx_cases vels vvir vesc vcirc vmin Arho :
  let out := calculate_Mx vels vvir vesc vcirc vmin Arho in
  ((length vels < 2)%nat ∧ out = Raise IndexError)
  ∨ ((2 <= length vels)%nat ∧ steps_allclose (diff vels) = false
     ∧ out = Raise ValueError)
  ∨ (axis_valid vels ∧ qualifying vesc vels = []
     ∧ out = Raise UnboundLocalError)
  ∨ (axis_valid vels ∧ qualifying vesc vels ≠ [] ∧ ∃ r, out = Ok r).
Proof.
  cbn zeta. destruct (le_lt_dec 2 (length vels)) as [Hn|Hn].
  - destruct (steps_allclose (diff vels)) eqn:Hc.
    + assert (Hv : axis_valid vels) by (split; assumption).
      rewrite calculate_Mx_valid by exact Hv.
      destruct (last (qualifying vesc vels)) as [t|] eqn:Hl.
      * right; right; right. split; [exact Hv|]. split; [|eauto].
        intros Hq. rewrite Hq in Hl. discriminate.
      * right; right; left. apply last_None in Hl. auto.
    + right; left. split; [exact Hn|]. split; [reflexivity|].
      apply calculate_Mx_ValueError, Hc.
  - left. split; [exact Hn|]. unfold calculate_Mx.
    rewrite (diff_short vels Hn). reflexivity.
Qed.

(** X12.  How a call of [calculate_Mx] ends: with [IndexError] exactly
    on an axis of fewer than two samples, with [UnboundLocalError] exactly
    on an accepted axis without a qualifying triple, with a result exactly
    on an accepted axis with a qualifying triple, and never with
    [TypeError]. *)
Theorem calculate_Mx_outcomes vels vvir vesc vcirc vmin Arho :
  let out := calculate_Mx vels vvir vesc vcirc vmin Arho in
  (out = Raise IndexError ↔ (length vels < 2)%nat)
  ∧ (out = Raise UnboundLocalError
     ↔ axis_valid vels ∧ qualifying vesc vels = [])
  ∧ ((∃ r, out = Ok r) ↔ axis_valid vels ∧ qualifying vesc vels ≠ [])
  ∧ out ≠ Raise TypeError.
Proof.
  cbn zeta.
  destruct (calculate_Mx_cases vels vvir vesc vcirc vmin Arho)
    as [[Hn ->]|[(Hn & Hc & ->)|[(Hv & Hq & ->)|(Hv & Hq & r & ->)]]].
  - split; [tauto|]. split; [|split; [|discriminate]].
    + split; [discriminate|]. intros [[H _] _]. unfold has_step in H. lia.
    + split; [intros [r [=]]|]. intros [[H _] _]. unfold has_step in H. lia.
  - split; [split; [discriminate | lia]|]. split; [|split; [|discriminate]].
    + split; [discriminate|]. intros [[_ H] _]. congruence.
    + split; [intros [r [=]]|]. intros [[_ H] _]. congruence.
  - destruct Hv as [Hn Hc]. unfold has_step in Hn.
    split; [split; [discriminate | lia]|]. split; [|split; [|discriminate]].
    + split; [|reflexivity]. intros _. split; [split; assumption | exact Hq].
    + split; [intros [r [=]]|]. intros [_ H]. contradiction.
  - destruct Hv as [Hn Hc]. unfold has_step in Hn.
    split; [split; [discriminate | lia]|]. split; [|split; [|discriminate]].
    + split; [discriminate|]. intros [_ H]. contradiction.
    + split; [|eauto]. intros _. split; [split; assumption | exact Hq].
Qed.

(** X13.  An axis built by [qarange] with a positive step smaller than
    [stop - start] has at least two samples and passes the spacing check:
    [calculate_Mx] raises neither [ValueError] nor [IndexError] on it. *)
Theorem qarange_axis_accepted
    (start stop step vvir vesc vcirc vmin Arho : R) :
  0 < step → step < stop - start →
  ∃ vels, qarange start stop step = Some vels
          ∧ axis_valid vels
          ∧ calculate_Mx vels vvir vesc vcirc vmin Arho ≠ Raise ValueError
          ∧ calculate_Mx vels vvir vesc vcirc vmin Arho ≠ Raise IndexError.
Proof.
  intros Hs Hlen. unfold qarange, np_arange. rewrite decide_False by lra.
  set (q := (stop - start) / step).
  assert (Hq : 1 < q).
  { unfold q. apply (Rmult_lt_reg_r step); [exact Hs|].
    unfold Rdiv. rewrite Rmult_assoc, Rinv_l by lra. lra. }
  assert (Hn : (2 <= Z.to_nat (ceil q))%nat).
  { destruct (ceil_spec q) as [_ H].
    assert (1 < ceil q)%Z by (apply lt_IZR; lra). lia. }
  eexists. split; [reflexivity|].
  pose proof (axis_valid_arange start step _ Hn) as Hv.
  split; [exact Hv|].
  destruct (calculate_Mx_cases (arange start step (Z.to_nat (ceil q)))
              vvir vesc vcirc vmin Arho)
    as [[Hl _]|[(_ & Hc & _)|[(_ & _ & ->)|(_ & _ & r & ->)]]].
  - rewrite length_arange in Hl. lia.
  - destruct Hv as [_ Hv]. congruence.
  - split; discriminate.
  - split; discriminate.
Qed.

Lemma qarange_axis_accepted_witness :
  ∃ vels, qarange 0 1 (1 / 4) = Some vels
          ∧ axis_valid vels
          ∧ calculate_Mx vels 250 550 220 (421 / 10) 3000 ≠ Raise ValueError
          ∧ calculate_Mx vels 250 550 220 (421 / 10) 3000 ≠ Raise IndexError.
Proof.
  apply (qarange_axis_accepted 0 1 (1 / 4) 250 550 220 (421 / 10) 3000); lra.
Defined.

Lemma filter_none {A} (P : A → Prop) `{∀ x, Decision (P x)} (l : list A) :
  Forall (λ x, ¬ P x) l → filter P l = [].
Proof.
  induction 1 as [|x l Hx _ IH]; [reflexivity|].
  rewrite filter_cons_False by exact Hx. exact IH.
Qed.

Lemma strictly_increasing_cons a l :
  (∀ b, head l = Some b → a < b) → strictly_increasing l →
  strictly_increasing (a :: l).
Proof.
  intros Ha Hl [|i] x y Hx Hy; cbn in Hx, Hy.
  - injection Hx as <-. apply Ha. destruct l; [discriminate|exact Hy].
  - eapply Hl; eassumption.
Qed.

Lemma vmin_le_vrel_at vcirc vmin t : Rabs vmin <= vrel_at vcirc vmin t.
Proof.
  destruct t as [[vx vy] vz]. unfold vrel_at.
  apply abs_le_qnorm. left.
Qed.

Lemma vrel_at_pos vcirc vmin t : vmin ≠ 0 → 0 < vrel_at vcirc vmin t.
Proof.
  intros Hm. eapply Rlt_le_trans; [|apply vmin_le_vrel_at].
  apply Rabs_pos_lt, Hm.
Qed.

Section mx_flux.
Variables vstep vvir vesc vcirc vmin Arho : R.

Let flux := cumulative_flux vstep vvir vesc vcirc vmin.
Let term := flux_term vstep vvir vcirc vmin.

Lemma length_cumulative_flux ts vbar :
  length (flux vbar ts) = length (filter (qualifies vesc) ts).
Proof.
  revert vbar. induction ts as [|t ts IH]; intros vbar; [reflexivity|].
  unfold flux. cbn [cumulative_flux]. rewrite filter_cons.
  destruct (decide (qualifies vesc t)); cbn [length]; fold flux; rewrite IH;
    reflexivity.
Qed.

(** The flux integral is the sum of the terms of the qualifying triples. *)
Lemma last_cumulative_flux ts : ∀ vbar,
  default vbar (last (flux vbar ts))
  = vbar + total (map term (filter (qualifies vesc) ts)).
Proof.
  induction ts as [|t ts IH]; intros vbar; [cbn; lra|].
  unfold flux. cbn [cumulative_flux]. rewrite filter_cons.
  destruct (decide (qualifies vesc t)); fold flux; [|apply IH].
  rewrite last_cons. specialize (IH (vbar + term t)). fold term.
  cbn [map total foldr]. fold (total (map term (filter (qualifies vesc) ts))).
  destruct (last (flux (vbar + term t) ts)); cbn in *; lra.
Qed.

Lemma scaled_flux_below_last ts : ∀ vbar,
  0 <= Arho * (vstep / vvir) ^ 3 →
  Arho * vbar <= Arho * default vbar (last (flux vbar ts))
  ∧ Forall (λ x, x <= Arho * default vbar (last (flux vbar ts)))
      (map (Rmult Arho) (flux vbar ts)).
Proof.
  intros vbar Hs. revert vbar. induction ts as [|t ts IH]; intros vbar.
  - cbn. split; [lra | constructor].
  - unfold flux. cbn [cumulative_flux].
    destruct (decide (qualifies vesc t)); fold flux; [|apply IH].
    destruct (flux_term_sign vstep vvir vcirc vmin Arho t) as (w & Hw & Ht).
    fold term in Ht |- *.
    assert (Hstep : Arho * vbar <= Arho * (vbar + term t)).
    { rewrite Rmult_plus_distr_l, Ht. nra. }
    destruct (IH (vbar + term t)) as [Hle Hall].
    rewrite last_cons.
    assert (Hd : default vbar
                   (match last (flux (vbar + term t) ts) with
                    | Some y => Some y
                    | None => Some (vbar + term t)
                    end)
                 = default (vbar + term t) (last (flux (vbar + term t) ts))).
    { destruct (last (flux (vbar + term t) ts)); reflexivity. }
    rewrite Hd. split; [lra|]. cbn [map]. constructor; [exact Hle | exact Hall].
Qed.

Lemma scaled_flux_nonpos ts : ∀ vbar,
  Arho * (vstep / vvir) ^ 3 <= 0 → Arho * vbar <= 0 →
  Arho * default vbar (last (flux vbar ts)) <= 0.
Proof.
  intros vbar Hs. revert vbar. induction ts as [|t ts IH]; intros vbar Hv.
  - exact Hv.
  - unfold flux. cbn [cumulative_flux].
    destruct (decide (qualifies vesc t)); fold flux; [|apply IH, Hv].
    destruct (flux_term_sign vstep vvir vcirc vmin Arho t) as (w & Hw & Ht).
    fold term in Ht |- *.
    assert (Hstep : Arho * (vbar + term t) <= 0).
    { rewrite Rmult_plus_distr_l, Ht. nra. }
    rewrite last_cons. specialize (IH _ Hstep).
    destruct (last (flux (vbar + term t) ts)); cbn in *; lra.
Qed.

(** The last retained mass is [Arho] times the flux integral. *)
Lemma compacted_flux_last ts :
  last (filter (λ x, x > 0) (map (Rmult Arho) (flux 0 ts)))
  = if decide (Arho * default 0 (last (flux 0 ts)) > 0)
    then Some (Arho * default 0 (last (flux 0 ts)))
    else None.
Proof.
  destruct (Rle_dec 0 (Arho * (vstep / vvir) ^ 3)) as [Hs|Hs].
  - destruct (scaled_flux_below_last ts 0 Hs) as [_ Hall].
    destruct (decide (Arho * default 0 (last (flux 0 ts)) > 0)) as [Hp|Hp].
    + destruct (last (flux 0 ts)) as [f|] eqn:Hl; cbn in Hp; [|lra].
      apply last_Some in Hl as [l' Hl']. rewrite Hl'.
      rewrite map_app, filter_app. cbn [map default].
      rewrite filter_cons_True by exact Hp. cbn [filter list_filter].
      apply last_snoc.
    + rewrite filter_none; [reflexivity|].
      eapply Forall_impl; [exact Hall|]. cbn. intros x Hx. lra.
  - assert (Hneg : Arho * (vstep / vvir) ^ 3 <= 0) by lra.
    pose proof (scaled_flux_sinks vstep vvir vesc vcirc vmin Arho ts 0 Hneg
                  ltac:(lra)) as Hsink.
    fold flux in Hsink. rewrite Hsink.
    pose proof (scaled_flux_nonpos ts 0 Hneg ltac:(lra)) as Hn.
    rewrite decide_False by lra. reflexivity.
Qed.

(** With positive scaled terms nothing is dropped and the retained masses
    increase strictly. *)
Lemma scaled_flux_strict ts : ∀ vbar,
  (∀ t, 0 < Arho * term t) → 0 <= Arho * vbar →
  Forall (λ x, Arho * vbar < x) (map (Rmult Arho) (flux vbar ts))
  ∧ strictly_increasing (map (Rmult Arho) (flux vbar ts))
  ∧ filter (λ x, x > 0) (map (Rmult Arho) (flux vbar ts))
    = map (Rmult Arho) (flux vbar ts).
Proof.
  intros vbar Ht. revert vbar. induction ts as [|t ts IH]; intros vbar Hv.
  - split; [constructor|]. split; [|reflexivity].
    intros i a b H. discriminate.
  - unfold flux. cbn [cumulative_flux].
    destruct (decide (qualifies vesc t)); fold flux; [|apply IH, Hv].
    fold term. specialize (Ht t) as Hpos.
    assert (Hstep : Arho * vbar < Arho * (vbar + term t)) by nra.
    destruct (IH (vbar + term t)) as (Hall & Hinc & Hkeep); [lra|].
    cbn [map]. split; [|split].
    + constructor; [exact Hstep|].
      eapply Forall_impl; [exact Hall|]. cbn. intros x Hx. lra.
    + apply strictly_increasing_cons; [|exact Hinc].
      intros b Hb. apply head_Some_elem_of in Hb.
      rewrite Forall_forall in Hall. apply Hall, Hb.
    + rewrite filter_cons_True by lra. rewrite Hkeep. reflexivity.
Qed.
End mx_flux.

Lemma flux_term_pos vstep vvir vcirc vmin t :
  0 < vstep → 0 < vvir → vmin ≠ 0 → 0 < flux_term vstep vvir vcirc vmin t.
Proof.
  intros Hs Hv Hm. unfold flux_term. apply Rmult_lt_0_compat.
  - apply vrel_at_pos, Hm.
  - destruct (f_BM_bin_sign vstep vvir (speed t)) as (w & Hw & ->).
    apply Rmult_lt_0_compat; [|exact Hw].
    apply pow_lt, Rdiv_lt_0_compat; assumption.
Qed.

(** X14.  The [vbar] that [calculate_Mx] returns is the sum of
    [vrel * maxwellian] over the qualifying triples, and the last mass
    returned is [Arho * vbar] when that is positive; when it is not, no
    mass is returned. *)
Theorem calculate_Mx_vbar_total_flux vels vvir vesc vcirc vmin Arho :
  axis_valid vels →
  qualifying vesc vels ≠ [] →
  ∃ Mxs vbar Vhold,
    calculate_Mx vels vvir vesc vcirc vmin Arho = Ok (Mxs, vbar, Vhold)
    ∧ vbar = total (map (flux_term (vstep_of vels) vvir vcirc vmin)
                      (qualifying vesc vels))
    ∧ last Mxs = (if decide (Arho * vbar > 0) then Some (Arho * vbar)
                  else None).
Proof.
  intros Hv Hq. rewrite calculate_Mx_valid by exact Hv.
  apply last_is_Some in Hq as [t Ht]. rewrite Ht.
  eexists _, _, _. split; [reflexivity|]. split.
  - rewrite last_cumulative_flux. unfold qualifying. lra.
  - rewrite mx_slots_compact. apply compacted_flux_last.
Qed.

Lemma calculate_Mx_vbar_total_flux_witness :
  ∃ Mxs vbar Vhold,
    calculate_Mx [0; 1] 1 2 0 1 1 = Ok (Mxs, vbar, Vhold)
    ∧ vbar = total (map (flux_term (vstep_of [0; 1]) 1 0 1)
                      (qualifying 2 [0; 1]))
    ∧ last Mxs = (if decide (1 * vbar > 0) then Some (1 * vbar) else None).
Proof.
  apply (calculate_Mx_vbar_total_flux [0; 1] 1 2 0 1 1).
  - apply axis_valid_pair.
  - run_filter. discriminate.
Defined.

(** X15.  With a positive [Arho], virial velocity and step and a
    non-zero [vmin], [calculate_Mx] returns exactly one mass per
    qualifying triple, the masses increase strictly, [vbar] is positive
    and [Vhold] is at least the magnitude of [vmin]. *)
Theorem calculate_Mx_physical vels vvir vesc vcirc vmin Arho :
  axis_valid vels →
  qualifying vesc vels ≠ [] →
  0 < vstep_of vels → 0 < vvir → 0 < Arho → vmin ≠ 0 →
  ∃ Mxs vbar Vhold,
    calculate_Mx vels vvir vesc vcirc vmin Arho = Ok (Mxs, vbar, Vhold)
    ∧ length Mxs = length (qualifying vesc vels)
    ∧ strictly_increasing Mxs
    ∧ 0 < vbar
    ∧ Rabs vmin <= Vhold.
Proof.
  intros Hv Hq Hs Hvv HA Hm. rewrite calculate_Mx_valid by exact Hv.
  pose proof Hq as Hq2. apply last_is_Some in Hq2 as [t Ht]. rewrite Ht.
  assert (Hterm : ∀ t, 0 < flux_term (vstep_of vels) vvir vcirc vmin t)
    by (intros; apply flux_term_pos; assumption).
  destruct (scaled_flux_strict (vstep_of vels) vvir vesc vcirc vmin Arho
              (grid vels) 0) as (Hall & Hinc & Hkeep).
  { intros u. specialize (Hterm u). nra. }
  { lra. }
  eexists _, _, _. split; [reflexivity|].
  rewrite mx_slots_compact, Hkeep. split; [|split; [exact Hinc|split]].
  - rewrite length_map, length_cumulative_flux. reflexivity.
  - rewrite last_cumulative_flux. rewrite Rplus_0_l.
    fold (qualifying vesc vels).
    destruct (qualifying vesc vels) as [|u us]; [contradiction|].
    cbn [map total foldr].
    assert (0 <= foldr Rplus 0
                   (map (flux_term (vstep_of vels) vvir vcirc vmin) us)).
    { clear -Hterm. induction us as [|x us IH]; cbn; [lra|].
      specialize (Hterm x). lra. }
    specialize (Hterm u). lra.
  - apply vmin_le_vrel_at.
Qed.

Lemma calculate_Mx_physical_witness :
  ∃ Mxs vbar Vhold,
    calculate_Mx [0; 1] 1 2 0 1 1 = Ok (Mxs, vbar, Vhold)
    ∧ length Mxs = length (qualifying 2 [0; 1])
    ∧ strictly_increasing Mxs
    ∧ 0 < vbar
    ∧ Rabs 1 <= Vhold.
Proof.
  apply (calculate_Mx_physical [0; 1] 1 2 0 1 1).
  - apply axis_valid_pair.
  - run_filter. discriminate.
  - unfold vstep_of. cbn [diff]. unfold Rabs.
    destruct (Rcase_abs (1 - 0)); lra.
  - lra.
  - lra.
  - lra.
Defined.

(** ** Outcomes and outputs of [calculate_Sx] *)

Section sx_closed_form.
Variables vesc vcirc vmin minsigma : R.

Let vrel := vrel_at vcirc vmin.

Lemma sx_body_some_qualifies sf st i t :
  qualifies vesc t →
  sx_body vesc vcirc vmin minsigma (Some sf) st (i, t)
  = Ok (SxLocals (Rmin (vrel t) (sx_vhold st))
          (<[i := floor_at minsigma
                    (sf / Rmin (vrel t) (sx_vhold st) ^ 2)]> (sx_Sxs st))).
Proof.
  destruct t as [[vx vy] vz]. intros Hq. unfold sx_body, vrel, vrel_at.
  unfold qualifies in Hq. rewrite decide_True by exact Hq. cbn zeta.
  destruct (decide (qnorm [vmin; vx; vy - vcirc; vz] > sx_vhold st)).
  - rewrite Rmin_right by lra. reflexivity.
  - rewrite Rmin_left by lra. reflexivity.
Qed.

(** The loop with a numeric [sigma_factor], over the triples [ts] whose
    slots are the zeros between [pre] and [post]. *)
Lemma sx_loop_run sf ts : ∀ pre post vhold,
  for_each (sx_body vesc vcirc vmin minsigma (Some sf))
    (zip (seq (length pre) (length ts)) ts)
    (SxLocals vhold (pre ++ replicate (length ts) 0 ++ post))
  = Ok (SxLocals (carried vesc vcirc vmin vhold ts)
          (pre ++ sx_slots vesc vcirc vmin minsigma sf vhold ts ++ post)).
Proof.
  induction ts as [|t ts IH]; intros pre post vhold; [reflexivity|].
  cbn [length seq zip zip_with for_each replicate carried sx_slots].
  assert (Hlen : ∀ x : R, S (length pre) = length (pre ++ [x])).
  { intros x. rewrite length_app. cbn. lia. }
  destruct (decide (qualifies vesc t)) as [Hq|Hq].
  - rewrite sx_body_some_qualifies by exact Hq. cbn [sx_vhold sx_Sxs].
    unfold vrel. set (v := Rmin (vrel_at vcirc vmin t) vhold).
    set (sx := floor_at minsigma (sf / v ^ 2)).
    replace (<[length pre := sx]>
               (pre ++ (0 :: replicate (length ts) 0) ++ post))
      with ((pre ++ [sx]) ++ replicate (length ts) 0 ++ post).
    2:{ rewrite insert_app_r_alt by lia. rewrite Nat.sub_diag.
        rewrite <- (assoc_L (++)). reflexivity. }
    cbn [mbind result_bind]. rewrite (Hlen sx), IH.
    rewrite <- (assoc_L (++)). reflexivity.
  - rewrite sx_body_skips by exact Hq. cbn [mbind result_bind].
    replace (pre ++ (0 :: replicate (length ts) 0) ++ post)
      with ((pre ++ [0]) ++ replicate (length ts) 0 ++ post)
      by (rewrite <- (assoc_L (++)); reflexivity).
    rewrite (Hlen 0), IH. rewrite <- (assoc_L (++)). reflexivity.
Qed.

Lemma sx_body_none st i t :
  sx_body vesc vcirc vmin minsigma None st (i, t)
  = if decide (qualifies vesc t) then Raise TypeError else Ok st.
Proof. destruct t as [[vx vy] vz]. reflexivity. Qed.

(** Without a [sigma_factor] the loop runs as long as no triple
    qualifies. *)
Lemma sx_loop_none its : ∀ st,
  for_each (sx_body vesc vcirc vmin minsigma None) its st
  = match filter (qualifies vesc) its.*2 with
    | [] => Ok st
    | _ :: _ => Raise TypeError
    end.
Proof.
  induction its as [|[i t] its IH]; intros st; [reflexivity|].
  cbn [for_each fmap list_fmap snd]. rewrite filter_cons, sx_body_none.
  destruct (decide (qualifies vesc t)); [reflexivity|].
  cbn [mbind result_bind]. apply IH.
Qed.

Lemma sx_slots_compact sf ts : ∀ vhold,
  filter (λ x, x > 0) (sx_slots vesc vcirc vmin minsigma sf vhold ts)
  = filter (λ x, x > 0) (sx_values vesc vcirc vmin minsigma sf vhold ts).
Proof.
  induction ts as [|t ts IH]; intros vhold; [reflexivity|].
  cbn [sx_slots sx_values]. destruct (decide (qualifies vesc t)).
  - rewrite !filter_cons, IH. reflexivity.
  - rewrite filter_cons_False by lra. apply IH.
Qed.

Lemma length_sx_values sf ts vhold :
  length (sx_values vesc vcirc vmin minsigma sf vhold ts)
  = length (filter (qualifies vesc) ts).
Proof.
  revert vhold. induction ts as [|t ts IH]; intros vhold; [reflexivity|].
  cbn [sx_values]. rewrite filter_cons.
  destruct (decide (qualifies vesc t)); cbn [length]; rewrite IH; reflexivity.
Qed.

Lemma sx_slots_empty sf ts vhold :
  filter (qualifies vesc) ts = [] →
  filter (λ x, x > 0) (sx_slots vesc vcirc vmin minsigma sf vhold ts) = []
  ∧ carried vesc vcirc vmin vhold ts = vhold.
Proof.
  intros Hq. rewrite sx_slots_compact.
  pose proof (length_sx_values sf ts vhold) as Hl. rewrite Hq in Hl.
  apply length_zero_iff_nil in Hl. rewrite Hl. split; [reflexivity|].
  induction ts as [|t ts IH]; [reflexivity|]. cbn [carried].
  rewrite filter_cons in Hq. destruct (decide (qualifies vesc t));
    [discriminate|]. apply IH; [exact Hq|].
  cbn [sx_values] in Hl. rewrite decide_False in Hl by assumption. exact Hl.
Qed.

(** The carried velocity is a running minimum. *)
Lemma carried_minimum ts : ∀ vhold,
  carried vesc vcirc vmin vhold ts <= vhold
  ∧ Forall (λ t, carried vesc vcirc vmin vhold ts <= vrel t)
      (filter (qualifies vesc) ts)
  ∧ (carried vesc vcirc vmin vhold ts = vhold
     ∨ ∃ t, t ∈ filter (qualifies vesc) ts
            ∧ carried vesc vcirc vmin vhold ts = vrel t).
Proof.
  induction ts as [|t ts IH]; intros vhold.
  - cbn. split; [lra|]. split; [constructor | left; reflexivity].
  - cbn [carried]. rewrite filter_cons.
    destruct (decide (qualifies vesc t)) as [Hq|Hq]; [|apply IH].
    destruct (IH (Rmin (vrel_at vcirc vmin t) vhold)) as (Hle & Hall & Hat).
    pose proof (Rmin_l (vrel_at vcirc vmin t) vhold) as Hl.
    pose proof (Rmin_r (vrel_at vcirc vmin t) vhold) as Hr.
    split; [lra|]. split.
    + constructor; [unfold vrel; lra | exact Hall].
    + destruct Hat as [Heq|(u & Hu & Heq)].
      * rewrite Heq. unfold Rmin. destruct (Rle_dec _ _).
        -- right. exists t. split; [left | reflexivity].
        -- left. reflexivity.
      * right. exists u. split; [right; exact Hu | exact Heq].
Qed.

Lemma carried_pos ts : ∀ vhold,
  vmin ≠ 0 → 0 < vhold → 0 < carried vesc vcirc vmin vhold ts.
Proof.
  intros vhold Hm Hv.
  destruct (carried_minimum ts vhold) as (_ & _ & [->|(u & _ & ->)]).
  - exact Hv.
  - apply vrel_at_pos, Hm.
Qed.

Lemma floor_at_floor sx : minsigma <= floor_at minsigma sx.
Proof. unfold floor_at. destruct (decide (sx < minsigma)); lra. Qed.

Lemma floor_at_mono sx sx' :
  sx <= sx' → floor_at minsigma sx <= floor_at minsigma sx'.
Proof.
  unfold floor_at. intros H.
  destruct (decide (sx < minsigma)), (decide (sx' < minsigma)); lra.
Qed.

Lemma sx_values_floor sf ts : ∀ vhold,
  Forall (λ x, minsigma <= x) (sx_values vesc vcirc vmin minsigma sf vhold ts).
Proof.
  induction ts as [|t ts IH]; intros vhold; [constructor|].
  cbn [sx_values]. destruct (decide (qualifies vesc t)); [|apply IH].
  constructor; [apply floor_at_floor | apply IH].
Qed.

(** With a non-negative [sigma_factor] and positive velocities the
    cross-sections never decrease. *)
Lemma sx_values_climb sf ts : ∀ vhold,
  0 <= sf → vmin ≠ 0 → 0 < vhold →
  Forall (λ x, floor_at minsigma (sf / vhold ^ 2) <= x)
    (sx_values vesc vcirc vmin minsigma sf vhold ts)
  ∧ non_decreasing
      (filter (λ x, x > 0) (sx_values vesc vcirc vmin minsigma sf vhold ts)).
Proof.
  intros vhold Hsf Hm. revert vhold.
  induction ts as [|t ts IH]; intros vhold Hv.
  - split; [constructor | apply non_decreasing_nil].
  - cbn [sx_values]. destruct (decide (qualifies vesc t)); [|apply IH, Hv].
    set (v := Rmin (vrel_at vcirc vmin t) vhold).
    assert (Hvpos : 0 < v).
    { unfold v, Rmin. destruct (Rle_dec _ _); [apply vrel_at_pos, Hm | exact Hv]. }
    assert (Hvle : v <= vhold) by apply Rmin_r.
    assert (Hstep : sf / vhold ^ 2 <= sf / v ^ 2).
    { unfold Rdiv. apply Rmult_le_compat_l; [exact Hsf|].
      apply Rinv_le_contravar; nra. }
    destruct (IH v Hvpos) as [Hall Hsorted]. split.
    + constructor; [apply floor_at_mono, Hstep|].
      eapply Forall_impl; [exact Hall|]. cbn beta. intros x Hx.
      pose proof (floor_at_mono _ _ Hstep). lra.
    + rewrite filter_cons.
      destruct (decide (floor_at minsigma (sf / v ^ 2) > 0));
        [|exact Hsorted].
      apply non_decreasing_cons; [|exact Hsorted].
      apply Forall_forall. intros x Hx.
      apply list_elem_of_filter in Hx as [_ Hx].
      rewrite Forall_forall in Hall. apply Hall, Hx.
Qed.
End sx_closed_form.

(** What [calculate_Sx] computes with a numeric [sigma_factor]. *)
Lemma calculate_Sx_some vels vesc vhold vcirc vmin minsigma sf :
  calculate_Sx vels vesc vhold vcirc vmin minsigma (Some sf)
  = Ok (filter (λ x, x > 0)
          (sx_values vesc vcirc vmin minsigma sf vhold (grid vels)),
        carried vesc vcirc vmin vhold (grid vels)).
Proof.
  unfold calculate_Sx, enumerate. fold (grid vels). rewrite <- length_grid.
  pose proof (sx_loop_run vesc vcirc vmin minsigma sf (grid vels) [] [] vhold)
    as Hrun.
  cbn [app length] in Hrun. rewrite (right_id_L [] (++)) in Hrun.
  rewrite Hrun. cbn. rewrite (right_id_L [] (++)), sx_slots_compact.
  reflexivity.
Qed.

Lemma calculate_Sx_none vels vesc vhold vcirc vmin minsigma :
  calculate_Sx vels vesc vhold vcirc vmin minsigma None
  = match qualifying vesc vels with
    | [] => Ok ([], vhold)
    | _ :: _ => Raise TypeError
    end.
Proof.
  unfold calculate_Sx. rewrite sx_loop_none. unfold enumerate.
  rewrite snd_zip by (rewrite length_seq; reflexivity).
  fold (grid vels) (qualifying vesc vels).
  destruct (qualifying vesc vels); [|reflexivity].
  cbn. f_equal. f_equal. apply filter_none.
  apply Forall_forall. intros x Hx. apply elem_of_replicate in Hx as [-> _].
  lra.
Qed.

(** X16.  When no triple qualifies, [calculate_Sx] returns the empty
    array and the carried velocity it was given, also without a
    [sigma_factor]. *)
Theorem calculate_Sx_empty_domain
    vels vesc vhold vcirc vmin minsigma sigma_factor :
  qualifying vesc vels = [] →
  calculate_Sx vels vesc vhold vcirc vmin minsigma sigma_factor
  = Ok ([], vhold).
Proof.
  intros Hq. destruct sigma_factor as [sf|].
  - rewrite calculate_Sx_some.
    destruct (sx_slots_empty vesc vcirc vmin minsigma sf (grid vels) vhold Hq)
      as [H1 H2].
    rewrite sx_slots_compact in H1. rewrite H1, H2. reflexivity.
  - rewrite calculate_Sx_none, Hq. reflexivity.
Qed.

Lemma calculate_Sx_empty_domain_witness :
  calculate_Sx [1; 2] 1 800 220 (421 / 10) (6 / 100000000) None
  = Ok ([], 800).
Proof.
  apply (calculate_Sx_empty_domain [1; 2] 1 800 220 (421 / 10)
           (6 / 100000000) None).
  run_filter. reflexivity.
Defined.

(** X17.  Without a [sigma_factor], [calculate_Sx] raises [TypeError]
    as soon as a triple qualifies. *)
Theorem calculate_Sx_without_sigma_factor
    vels vesc vhold vcirc vmin minsigma :
  qualifying vesc vels ≠ [] →
  calculate_Sx vels vesc vhold vcirc vmin minsigma None = Raise TypeError.
Proof.
  intros Hq. rewrite calculate_Sx_none.
  destruct (qualifying vesc vels); [contradiction | reflexivity].
Qed.

Lemma calculate_Sx_without_sigma_factor_witness :
  calculate_Sx [0; 1] 2 800 220 (421 / 10) (6 / 100000000) None
  = Raise TypeError.
Proof.
  apply (calculate_Sx_without_sigma_factor [0; 1] 2 800 220 (421 / 10)
           (6 / 100000000)).
  run_filter. discriminate.
Defined.

(** X18.  The carried velocity that [calculate_Sx] returns is the
    minimum of the value handed in and the relative velocities of the
    qualifying triples: it is at most each of them and equal to one of
    them. *)
Theorem calculate_Sx_vhold_minimum vels vesc vhold vcirc vmin minsigma sf :
  ∃ Sxs vhold',
    calculate_Sx vels vesc vhold vcirc vmin minsigma (Some sf)
    = Ok (Sxs, vhold')
    ∧ vhold' <= vhold
    ∧ Forall (λ t, vhold' <= vrel_at vcirc vmin t) (qualifying vesc vels)
    ∧ (vhold' = vhold
       ∨ ∃ t, t ∈ qualifying vesc vels ∧ vhold' = vrel_at vcirc vmin t).
Proof.
  rewrite calculate_Sx_some. eexists _, _. split; [reflexivity|].
  apply carried_minimum.
Qed.

(** X19.  With a positive [minsigma] (and velocities that keep the
    division away from zero) every cross-section returned is at least
    [minsigma] and there is exactly one per qualifying triple. *)
Theorem calculate_Sx_floor vels vesc vhold vcirc vmin minsigma sf :
  0 < minsigma → vmin ≠ 0 → 0 < vhold →
  ∃ Sxs vhold',
    calculate_Sx vels vesc vhold vcirc vmin minsigma (Some sf)
    = Ok (Sxs, vhold')
    ∧ Forall (λ x, minsigma <= x) Sxs
    ∧ length Sxs = length (qualifying vesc vels).
Proof.
  intros Hm _ _. rewrite calculate_Sx_some. eexists _, _.
  split; [reflexivity|].
  pose proof (sx_values_floor vesc vcirc vmin minsigma sf (grid vels) vhold)
    as Hfl.
  assert (Hkeep : filter (λ x, x > 0)
                    (sx_values vesc vcirc vmin minsigma sf vhold (grid vels))
                  = sx_values vesc vcirc vmin minsigma sf vhold (grid vels)).
  { induction Hfl as [|x l Hx _ IH]; [reflexivity|].
    rewrite filter_cons_True by lra. rewrite IH. reflexivity. }
  rewrite Hkeep. split; [exact Hfl|]. apply length_sx_values.
Qed.

Lemma calculate_Sx_floor_witness :
  ∃ Sxs vhold',
    calculate_Sx [0; 1] 2 800 0 1 (6 / 100000000) (Some 1) = Ok (Sxs, vhold')
    ∧ Forall (λ x, 6 / 100000000 <= x) Sxs
    ∧ length Sxs = length (qualifying 2 [0; 1]).
Proof.
  apply (calculate_Sx_floor [0; 1] 2 800 0 1 (6 / 100000000) 1); lra.
Defined.

(** X20.  With a non-negative [sigma_factor], a non-zero [vmin] and a
    positive carried velocity handed in, the cross-sections returned
    never decrease from one entry to the next, and the carried velocity
    returned is positive. *)
Theorem calculate_Sx_sorted vels vesc vhold vcirc vmin minsigma sf :
  0 <= sf → vmin ≠ 0 → 0 < vhold →
  ∃ Sxs vhold',
    calculate_Sx vels vesc vhold vcirc vmin minsigma (Some sf)
    = Ok (Sxs, vhold')
    ∧ non_decreasing Sxs
    ∧ 0 < vhold'.
Proof.
  intros Hsf Hm Hv. rewrite calculate_Sx_some. eexists _, _.
  split; [reflexivity|]. split.
  - apply sx_values_climb; assumption.
  - apply carried_pos; assumption.
Qed.

Lemma calculate_Sx_sorted_witness :
  ∃ Sxs vhold',
    calculate_Sx [0; 1] 2 800 0 1 (6 / 100000000) (Some 1) = Ok (Sxs, vhold')
    ∧ non_decreasing Sxs
    ∧ 0 < vhold'.
Proof.
  apply (calculate_Sx_sorted [0; 1] 2 800 0 1 (6 / 100000000) 1); lra.
Defined.

(** ** The orchestrator *)

Lemma sx_values_keep vesc vcirc vmin minsigma sf ts vhold :
  0 < minsigma →
  filter (λ x, x > 0) (sx_values vesc vcirc vmin minsigma sf vhold ts)
  = sx_values vesc vcirc vmin minsigma sf vhold ts.
Proof.
  intros Hm.
  pose proof (sx_values_floor vesc vcirc vmin minsigma sf ts vhold) as Hfl.
  induction Hfl as [|x l Hx _ IH]; [reflexivity|].
  rewrite filter_cons_True by lra. rewrite IH. reflexivity.
Qed.

(** X21.  Called with its default [sigma_factor=None],
    [calculate_Mx_and_Sx] never returns: it raises what [calculate_Mx]
    raises, and [TypeError] when [calculate_Mx] returns. *)
Theorem calculate_Mx_and_Sx_needs_sigma_factor
    vels vvir vesc vcirc vmin Arho minsigma :
  (∃ e, calculate_Mx_and_Sx vels vvir vesc vcirc vmin Arho minsigma None
        = Raise e)
  ∧ match calculate_Mx vels vvir vesc vcirc vmin Arho with
    | Ok _ =>
        calculate_Mx_and_Sx vels vvir vesc vcirc vmin Arho minsigma None
        = Raise TypeError
    | Raise e =>
        calculate_Mx_and_Sx vels vvir vesc vcirc vmin Arho minsigma None
        = Raise e
    end.
Proof.
  unfold calculate_Mx_and_Sx.
  destruct (calculate_Mx_cases vels vvir vesc vcirc vmin Arho)
    as [[_ ->]|[(_ & _ & ->)|[(_ & _ & ->)|(_ & Hq & [[Mxs vbar] Vhold] & ->)]]];
    cbn [mbind result_bind]; try (split; [eexists|]; reflexivity).
  rewrite calculate_Sx_none.
  destruct (qualifying vesc vels); [contradiction|].
  split; [eexists|]; reflexivity.
Qed.

(** X22.  With a numeric [sigma_factor] the [Vhold] returned by
    [calculate_Mx_and_Sx] is the smallest relative velocity over the
    qualifying triples, and at least the magnitude of [vmin]. *)
Theorem calculate_Mx_and_Sx_Vhold_minimum
    vels vvir vesc vcirc vmin Arho minsigma sf :
  axis_valid vels →
  qualifying vesc vels ≠ [] →
  ∃ Mxs Sxs vbar Vhold,
    calculate_Mx_and_Sx vels vvir vesc vcirc vmin Arho minsigma (Some sf)
    = Ok (Mxs, Sxs, vbar, Vhold)
    ∧ Forall (λ t, Vhold <= vrel_at vcirc vmin t) (qualifying vesc vels)
    ∧ (∃ t, t ∈ qualifying vesc vels ∧ Vhold = vrel_at vcirc vmin t)
    ∧ Rabs vmin <= Vhold.
Proof.
  intros Hv Hq. unfold calculate_Mx_and_Sx.
  rewrite calculate_Mx_valid by exact Hv.
  apply last_is_Some in Hq as [tl Htl]. rewrite Htl.
  cbn [mbind result_bind]. rewrite calculate_Sx_some.
  cbn [mbind result_bind]. eexists _, _, _, _. split; [reflexivity|].
  destruct (carried_minimum vesc vcirc vmin (grid vels)
              (vrel_at vcirc vmin tl)) as (_ & Hall & Hat).
  assert (Hex : ∃ t, t ∈ qualifying vesc vels
                     ∧ carried vesc vcirc vmin (vrel_at vcirc vmin tl)
                         (grid vels) = vrel_at vcirc vmin t).
  { destruct Hat as [Heq|Hex]; [|exact Hex].
    exists tl. split; [|exact Heq]. apply last_Some_elem_of, Htl. }
  split; [exact Hall|]. split; [exact Hex|].
  destruct Hex as (t & _ & ->). apply vmin_le_vrel_at.
Qed.

Lemma calculate_Mx_and_Sx_Vhold_minimum_witness :
  ∃ Mxs Sxs vbar Vhold,
    calculate_Mx_and_Sx [0; 1] 1 2 0 1 1 (6 / 100000000) (Some 1)
    = Ok (Mxs, Sxs, vbar, Vhold)
    ∧ Forall (λ t, Vhold <= vrel_at 0 1 t) (qualifying 2 [0; 1])
    ∧ (∃ t, t ∈ qualifying 2 [0; 1] ∧ Vhold = vrel_at 0 1 t)
    ∧ Rabs 1 <= Vhold.
Proof.
  apply (calculate_Mx_and_Sx_Vhold_minimum [0; 1] 1 2 0 1 1
           (6 / 100000000) 1).
  - apply axis_valid_pair.
  - run_filter. discriminate.
Defined.

(** X23.  With a positive [Arho], virial velocity, step and [minsigma],
    a non-zero [vmin] and a non-negative [sigma_factor],
    [calculate_Mx_and_Sx] returns paired arrays: one mass and one
    cross-section per qualifying triple, the masses increasing strictly
    and the cross-sections never decreasing. *)
Theorem calculate_Mx_and_Sx_paired
    vels vvir vesc vcirc vmin Arho minsigma sf :
  axis_valid vels →
  qualifying vesc vels ≠ [] →
  0 < vstep_of vels → 0 < vvir → 0 < Arho → vmin ≠ 0 →
  0 < minsigma → 0 <= sf →
  ∃ Mxs Sxs vbar Vhold,
    calculate_Mx_and_Sx vels vvir vesc vcirc vmin Arho minsigma (Some sf)
    = Ok (Mxs, Sxs, vbar, Vhold)
    ∧ length Mxs = length (qualifying vesc vels)
    ∧ length Sxs = length (qualifying vesc vels)
    ∧ strictly_increasing Mxs
    ∧ non_decreasing Sxs.
Proof.
  intros Hv Hq Hs Hvv HA Hm Hms Hsf. unfold calculate_Mx_and_Sx.
  rewrite calculate_Mx_valid by exact Hv.
  apply last_is_Some in Hq as [tl Htl]. rewrite Htl.
  cbn [mbind result_bind]. rewrite calculate_Sx_some.
  cbn [mbind result_bind]. eexists _, _, _, _. split; [reflexivity|].
  assert (Hterm : ∀ t, 0 < Arho * flux_term (vstep_of vels) vvir vcirc vmin t).
  { intros t. apply Rmult_lt_0_compat; [exact HA|].
    apply flux_term_pos; assumption. }
  destruct (scaled_flux_strict (vstep_of vels) vvir vesc vcirc vmin Arho
              (grid vels) 0 Hterm ltac:(lra)) as (_ & Hinc & Hkeep).
  rewrite mx_slots_compact, Hkeep.
  pose proof (vrel_at_pos vcirc vmin tl Hm) as Hpos.
  destruct (sx_values_climb vesc vcirc vmin minsigma sf (grid vels)
              (vrel_at vcirc vmin tl) Hsf Hm Hpos) as [_ Hsorted].
  split; [|split; [|split; [exact Hinc | exact Hsorted]]].
  - rewrite length_map, length_cumulative_flux. reflexivity.
  - rewrite sx_values_keep by exact Hms. apply length_sx_values.
Qed.

Lemma calculate_Mx_and_Sx_paired_witness :
  ∃ Mxs Sxs vbar Vhold,
    calculate_Mx_and_Sx [0; 1] 1 2 0 1 1 (6 / 100000000) (Some 1)
    = Ok (Mxs, Sxs, vbar, Vhold)
    ∧ length Mxs = length (qualifying 2 [0; 1])
    ∧ length Sxs = length (qualifying 2 [0; 1])
    ∧ strictly_increasing Mxs
    ∧ non_decreasing Sxs.
Proof.
  apply (calculate_Mx_and_Sx_paired [0; 1] 1 2 0 1 1 (6 / 100000000) 1).
  - apply axis_valid_pair.
  - run_filter. discriminate.
  - unfold vstep_of. cbn [diff]. unfold Rabs.
    destruct (Rcase_abs (1 - 0)); lra.
  - lra.
  - lra.
  - lra.
  - lra.
  - lra.
Defined.

(** ** Reference curves *)

Lemma np_power_pos x y : 0 < x → np_power x y = Some (Rpower x y).
Proof.
  intros Hx. unfold np_power.
  rewrite decide_False by lra. rewrite decide_False by lra. reflexivity.
Qed.

(** X24.  For every positive mass the nuclear-density curve lies
    strictly below the atomic-density curve, by the constant factor
    [(3.6e14)^(2/3)]; both are positive. *)
Theorem nuclear_below_atomic (M : R) :
  0 < M →
  ∃ n a,
    nuclear_density M = Some n
    ∧ atomic_density M = Some a
    ∧ 0 < n < a
    ∧ a = n * Rpower (36 * 10 ^ 13) (2 / 3).
Proof.
  intros HM. pose proof PI_RGT_0 as Hpi.
  assert (Hva : 0 < 4 / 3 * PI * 1) by nra.
  assert (HK : 0 < 36 * 10 ^ 13) by lra.
  assert (Hvn : 0 < 4 / 3 * PI * (36 * 10 ^ 13)) by nra.
  assert (Hxn : 0 < M / (4 / 3 * PI * (36 * 10 ^ 13)))
    by (apply Rdiv_lt_0_compat; assumption).
  assert (Hxa : 0 < M / (4 / 3 * PI * 1))
    by (apply Rdiv_lt_0_compat; assumption).
  unfold nuclear_density, atomic_density. cbn zeta.
  rewrite !np_power_pos by assumption. cbn [mbind option_bind].
  eexists _, _. split; [reflexivity|]. split; [reflexivity|].
  assert (Hsplit : M / (4 / 3 * PI * 1)
                   = M / (4 / 3 * PI * (36 * 10 ^ 13)) * (36 * 10 ^ 13))
    by (field; lra).
  assert (Heq : Rpower (M / (4 / 3 * PI * 1)) (2 / 3)
                = Rpower (M / (4 / 3 * PI * (36 * 10 ^ 13))) (2 / 3)
                  * Rpower (36 * 10 ^ 13) (2 / 3)).
  { rewrite Hsplit at 1. symmetry. apply Rpower_mult_distr; assumption. }
  assert (Hn : 0 < Rpower (M / (4 / 3 * PI * (36 * 10 ^ 13))) (2 / 3))
    by apply exp_pos.
  assert (HKp : 1 < Rpower (36 * 10 ^ 13) (2 / 3)).
  { assert (Hln : 0 < ln (36 * 10 ^ 13))
      by (rewrite <- ln_1; apply ln_increasing; lra).
    assert (Hexp : exp 0 < exp (2 / 3 * ln (36 * 10 ^ 13)))
      by (apply exp_increasing; lra).
    rewrite exp_0 in Hexp. exact Hexp. }
  split; [|rewrite Heq; ring].
  rewrite Heq.
  set (n := Rpower (M / (4 / 3 * PI * (36 * 10 ^ 13))) (2 / 3)) in *.
  set (Kp := Rpower (36 * 10 ^ 13) (2 / 3)) in *.
  assert (Hpn : 0 < PI * n) by nra.
  split; [exact Hpn|].
  replace (PI * (n * Kp)) with (PI * n * Kp) by ring. nra.
Qed.

Lemma nuclear_below_atomic_witness :
  ∃ n a,
    nuclear_density 55 = Some n
    ∧ atomic_density 55 = Some a
    ∧ 0 < n < a
    ∧ a = n * Rpower (36 * 10 ^ 13) (2 / 3).
Proof. apply (nuclear_below_atomic 55). lra. Defined.

(** X25.  For every positive mass up to 1e51 g, and so on the whole
    default range of [plot_lensing_constraints], the lower edge
    [black_hole] of the lensing band lies strictly below its upper edge
    [LMCTop]; [KeplerTop] lies below [LMCTop] too. *)
Theorem lensing_band_ordered (M : R) :
  0 < M → M <= 10 ^ 51 →
  0 < black_hole M < LMCTop M ∧ KeplerTop M < LMCTop M.
Proof.
  intros HM Hle. pose proof PI_RGT_0 as Hpi. pose proof PI_4 as Hpi4.
  unfold black_hole, LMCTop, KeplerTop.
  assert (Hb : PI * (3 * 10 ^ 5) ^ 2 * (M / (2 * 10 ^ 33)) ^ 2
               = PI * M * (M * (9 / (4 * 10 ^ 56)))) by (field; lra).
  rewrite Hb. split; [split|].
  - apply Rmult_lt_0_compat; [nra|]. apply Rmult_lt_0_compat; lra.
  - assert (H1 : M * (9 / (4 * 10 ^ 56)) <= 10 ^ 51 * (9 / (4 * 10 ^ 56)))
      by (apply Rmult_le_compat_r; lra).
    assert (H2 : 10 ^ 51 * (9 / (4 * 10 ^ 56)) = 9 / 400000) by (field; lra).
    assert (H3 : 0 < M * (9 / (4 * 10 ^ 56)))
      by (apply Rmult_lt_0_compat; lra).
    set (c := M * (9 / (4 * 10 ^ 56))) in *.
    assert (H4 : PI * c <= 4 * (9 / 400000)) by nra.
    replace (PI * M * c) with (M * (PI * c)) by ring.
    replace (1 / 10 ^ 4 * M) with (M * (1 / 10 ^ 4)) by ring.
    apply Rmult_lt_compat_l; lra.
  - nra.
Qed.

Lemma lensing_band_ordered_witness :
  0 < black_hole (10 ^ 23) < LMCTop (10 ^ 23)
  ∧ KeplerTop (10 ^ 23) < LMCTop (10 ^ 23).
Proof. apply (lensing_band_ordered (10 ^ 23)); lra. Defined.

(** ** A change of the unit of speed *)

Lemma norm_v1_v2_scale k a b :
  0 <= k → _norm_v1_v2 (k * a) (k * b) = k * _norm_v1_v2 a b.
Proof.
  intros Hk. unfold _norm_v1_v2.
  replace ((k * a) ^ 2 + (k * b) ^ 2) with (Rsqr k * (a ^ 2 + b ^ 2))
    by (unfold Rsqr; ring).
  rewrite sqrt_mult by (try apply Rle_0_sqr; nra).
  rewrite sqrt_Rsqr by exact Hk. reflexivity.
Qed.

Lemma foldl_norm_scale k l : ∀ a,
  0 <= k →
  foldl _norm_v1_v2 (k * a) (map (Rmult k) l) = k * foldl _norm_v1_v2 a l.
Proof.
  induction l as [|x l IH]; intros a Hk; [reflexivity|].
  cbn [map foldl]. rewrite norm_v1_v2_scale by exact Hk. apply IH, Hk.
Qed.

(** X26.  With [vo=None] the compound escape velocity does not depend on
    the unit of speed: scaling every velocity by a non-negative factor
    scales the result by that factor. *)
Theorem multibody_vesc_unit_independent (k v : R) (rest : list R) :
  0 <= k →
  ∃ r, multibody_vesc (v :: rest) None false = Ok (Scalar r)
       ∧ multibody_vesc (map (Rmult k) (v :: rest)) None false
         = Ok (Scalar (k * r)).
Proof.
  intros Hk. eexists. split; [apply multibody_default_reduce|].
  cbn [map]. rewrite multibody_default_reduce. do 2 f_equal.
  rewrite <- foldl_norm_scale by exact Hk. f_equal.
  rewrite !map_map. apply map_ext. intros x. ring.
Qed.

Lemma multibody_vesc_unit_independent_witness :
  ∃ r, multibody_vesc [11186 / 1000; 421 / 10; 550] None false = Ok (Scalar r)
       ∧ multibody_vesc (map (Rmult 1000) [11186 / 1000; 421 / 10; 550])
           None false
         = Ok (Scalar (1000 * r)).
Proof.
  apply (multibody_vesc_unit_independent 1000 (11186 / 1000) [421 / 10; 550]).
  lra.
Defined.

Lemma qnorm_scale k v : qnorm (map (Rmult k) v) = Rabs k * qnorm v.
Proof.
  unfold qnorm. rewrite sum_sq_scale.
  rewrite sqrt_mult by (try nra; apply sum_sq_nonneg).
  f_equal. rewrite <- sqrt_Rsqr_abs. f_equal. unfold Rsqr. ring.
Qed.

Lemma Rmin_scale k a b : 0 <= k → Rmin (k * a) (k * b) = k * Rmin a b.
Proof.
  intros Hk. unfold Rmin.
  destruct (Rle_dec (k * a) (k * b)), (Rle_dec a b); try reflexivity; nra.
Qed.

Lemma product3_scale k (a b c : list R) :
  product3 (map (Rmult k) a) (map (Rmult k) b) (map (Rmult k) c)
  = map (scale3 k) (product3 a b c).
Proof.
  unfold product3.
  assert (Hb : ∀ x,
            flat_map (λ y, map (λ z, (k * x, y, z)) (map (Rmult k) c))
              (map (Rmult k) b)
            = map (scale3 k) (flat_map (λ y, map (λ z, (x, y, z)) c) b)).
  { intros x. induction b as [|y b IH]; [reflexivity|].
    cbn [map flat_map]. rewrite map_app, IH, !map_map. reflexivity. }
  induction a as [|x a IH]; [reflexivity|].
  cbn [map flat_map]. rewrite map_app, IH, Hb. reflexivity.
Qed.

Lemma grid_scale k vels :
  grid (map (Rmult k) vels) = map (scale3 k) (grid vels).
Proof. apply product3_scale. Qed.

Lemma diff_scale k vels : diff (map (Rmult k) vels) = map (Rmult k) (diff vels).
Proof.
  induction vels as [|x [|y r] IH]; [reflexivity..|].
  cbn [map diff] in *. rewrite IH. f_equal. ring.
Qed.

Lemma vstep_of_scale k vels :
  0 <= k → vstep_of (map (Rmult k) vels) = k * vstep_of vels.
Proof.
  intros Hk. unfold vstep_of. rewrite diff_scale.
  destruct (diff vels) as [|s0 r]; cbn [map]; [ring|].
  rewrite Rabs_mult, (Rabs_pos_eq k) by exact Hk. reflexivity.
Qed.

Section scaled.
Variable k : R.
Hypothesis Hk : 0 < k.

Lemma speed_scale t : speed (scale3 k t) = k * speed t.
Proof.
  destruct t as [[vx vy] vz]. unfold speed, scale3.
  rewrite (qnorm_scale k [vx; vy; vz] : qnorm [_; _; _] = _).
  rewrite Rabs_pos_eq by lra. reflexivity.
Qed.

Lemma qualifies_scale vesc t :
  qualifies (k * vesc) (scale3 k t) ↔ qualifies vesc t.
Proof.
  pose proof (speed_scale t) as Hs.
  destruct t as [[vx vy] vz]. unfold speed, scale3 in Hs.
  unfold qualifies, scale3. rewrite Hs. split; intros H; nra.
Qed.

Lemma vrel_at_scale vcirc vmin t :
  vrel_at (k * vcirc) (k * vmin) (scale3 k t) = k * vrel_at vcirc vmin t.
Proof.
  destruct t as [[vx vy] vz]. unfold vrel_at, scale3.
  replace (k * vy - k * vcirc) with (k * (vy - vcirc)) by ring.
  rewrite (qnorm_scale k [vmin; vx; vy - vcirc; vz] : qnorm [_; _; _; _] = _).
  rewrite Rabs_pos_eq by lra. reflexivity.
Qed.

Lemma filter_qualifies_scale vesc ts :
  filter (qualifies (k * vesc)) (map (scale3 k) ts)
  = map (scale3 k) (filter (qualifies vesc) ts).
Proof.
  induction ts as [|t ts IH]; [reflexivity|].
  cbn [map]. rewrite !filter_cons.
  destruct (decide (qualifies vesc t)) as [Hq|Hq].
  - rewrite decide_True by (apply qualifies_scale, Hq).
    cbn [map]. rewrite IH. reflexivity.
  - rewrite decide_False by (rewrite qualifies_scale; exact Hq). exact IH.
Qed.

Lemma flux_term_scale vstep vvir vcirc vmin t :
  vvir ≠ 0 →
  flux_term (k * vstep) (k * vvir) (k * vcirc) (k * vmin) (scale3 k t)
  = k * flux_term vstep vvir vcirc vmin t.
Proof.
  intros Hv. unfold flux_term. rewrite vrel_at_scale, speed_scale.
  unfold f_BM_bin. cbn zeta.
  replace (k * vstep / (k * vvir)) with (vstep / vvir) by (field; lra).
  replace (k * speed t / (k * vvir)) with (speed t / vvir) by (field; lra).
  ring.
Qed.

Lemma cumulative_flux_scale vstep vvir vesc vcirc vmin ts : ∀ vbar,
  vvir ≠ 0 →
  cumulative_flux (k * vstep) (k * vvir) (k * vesc) (k * vcirc) (k * vmin)
    (k * vbar) (map (scale3 k) ts)
  = map (Rmult k) (cumulative_flux vstep vvir vesc vcirc vmin vbar ts).
Proof.
  intros vbar Hv. revert vbar. induction ts as [|t ts IH]; intros vbar;
    [reflexivity|].
  cbn [map cumulative_flux].
  destruct (decide (qualifies vesc t)) as [Hq|Hq].
  - rewrite decide_True by (apply qualifies_scale, Hq).
    rewrite flux_term_scale by exact Hv.
    rewrite <- Rmult_plus_distr_l, IH. reflexivity.
  - rewrite decide_False by (rewrite qualifies_scale; exact Hq). apply IH.
Qed.

Lemma mx_slots_scale vstep vvir vesc vcirc vmin Arho ts : ∀ vbar,
  vvir ≠ 0 →
  mx_slots (k * vstep) (k * vvir) (k * vesc) (k * vcirc) (k * vmin)
    (Arho / k) (k * vbar) (map (scale3 k) ts)
  = mx_slots vstep vvir vesc vcirc vmin Arho vbar ts.
Proof.
  intros vbar Hv. revert vbar. induction ts as [|t ts IH]; intros vbar;
    [reflexivity|].
  cbn [map mx_slots].
  destruct (decide (qualifies vesc t)) as [Hq|Hq].
  - rewrite decide_True by (apply qualifies_scale, Hq).
    rewrite flux_term_scale by exact Hv.
    rewrite <- Rmult_plus_distr_l, IH. f_equal. field. lra.
  - rewrite decide_False by (rewrite qualifies_scale; exact Hq).
    rewrite IH. reflexivity.
Qed.

Lemma carried_scale vesc vcirc vmin ts : ∀ vhold,
  carried (k * vesc) (k * vcirc) (k * vmin) (k * vhold) (map (scale3 k) ts)
  = k * carried vesc vcirc vmin vhold ts.
Proof.
  induction ts as [|t ts IH]; intros vhold; [reflexivity|].
  cbn [map carried].
  destruct (decide (qualifies vesc t)) as [Hq|Hq].
  - rewrite decide_True by (apply qualifies_scale, Hq).
    rewrite vrel_at_scale, Rmin_scale by lra. apply IH.
  - rewrite decide_False by (rewrite qualifies_scale; exact Hq). apply IH.
Qed.

Lemma sx_values_scale vesc vcirc vmin minsigma sf ts : ∀ vhold,
  sx_values (k * vesc) (k * vcirc) (k * vmin) minsigma (k ^ 2 * sf)
    (k * vhold) (map (scale3 k) ts)
  = sx_values vesc vcirc vmin minsigma sf vhold ts.
Proof.
  induction ts as [|t ts IH]; intros vhold; [reflexivity|].
  cbn [map sx_values].
  destruct (decide (qualifies vesc t)) as [Hq|Hq].
  - rewrite decide_True by (apply qualifies_scale, Hq).
    rewrite vrel_at_scale, Rmin_scale by lra. rewrite IH. f_equal. f_equal.
    set (v := Rmin (vrel_at vcirc vmin t) vhold).
    unfold Rdiv. replace ((k * v) ^ 2) with (k ^ 2 * v ^ 2) by ring.
    rewrite Rinv_mult.
    replace (k ^ 2 * sf * (/ k ^ 2 * / v ^ 2))
      with (sf * / v ^ 2 * (k ^ 2 * / k ^ 2)) by ring.
    rewrite Rinv_r by nra. ring.
  - rewrite decide_False by (rewrite qualifies_scale; exact Hq). apply IH.
Qed.
End scaled.

(** X27.  A change of the unit of speed (all speeds scaled by a positive
    factor [k], [Arho] divided by it) under which the axis stays accepted
    leaves the masses unchanged and scales [vbar] and [Vhold] by [k]. *)
Theorem calculate_Mx_unit_independent k vels vvir vesc vcirc vmin Arho :
  0 < k → vvir ≠ 0 →
  axis_valid vels → axis_valid (map (Rmult k) vels) →
  qualifying vesc vels ≠ [] →
  ∃ Mxs vbar Vhold,
    calculate_Mx vels vvir vesc vcirc vmin Arho = Ok (Mxs, vbar, Vhold)
    ∧ calculate_Mx (map (Rmult k) vels) (k * vvir) (k * vesc) (k * vcirc)
        (k * vmin) (Arho / k)
      = Ok (Mxs, k * vbar, k * Vhold).
Proof.
  intros Hk Hvv Hv Hv' Hq.
  rewrite !calculate_Mx_valid by assumption.
  unfold qualifying in *.
  rewrite grid_scale, filter_qualifies_scale by exact Hk.
  rewrite vstep_of_scale by lra. rewrite fmap_last.
  apply last_is_Some in Hq as [t Ht]. rewrite Ht. cbn [fmap option_fmap option_map].
  eexists _, _, _. split; [reflexivity|].
  pose proof (mx_slots_scale k Hk (vstep_of vels) vvir vesc vcirc vmin Arho
                (grid vels) 0 Hvv) as Hslots.
  pose proof (cumulative_flux_scale k Hk (vstep_of vels) vvir vesc vcirc vmin
                (grid vels) 0 Hvv) as Hflux.
  rewrite Rmult_0_r in Hslots, Hflux. rewrite Hslots, Hflux.
  rewrite vrel_at_scale by exact Hk. rewrite fmap_last.
  destruct (last (cumulative_flux (vstep_of vels) vvir vesc vcirc vmin 0
                    (grid vels))); cbn; [reflexivity|].
  rewrite Rmult_0_r. reflexivity.
Qed.

Lemma calculate_Mx_unit_independent_witness :
  ∃ Mxs vbar Vhold,
    calculate_Mx [0; 1] 1 2 0 1 1 = Ok (Mxs, vbar, Vhold)
    ∧ calculate_Mx (map (Rmult (1 / 2)) [0; 1]) (1 / 2 * 1) (1 / 2 * 2)
        (1 / 2 * 0) (1 / 2 * 1) (1 / (1 / 2))
      = Ok (Mxs, 1 / 2 * vbar, 1 / 2 * Vhold).
Proof.
  apply (calculate_Mx_unit_independent (1 / 2) [0; 1] 1 2 0 1 1).
  - lra.
  - lra.
  - apply axis_valid_pair.
  - apply axis_valid_pair.
  - run_filter. discriminate.
Defined.

(** X28.  A change of the unit of speed (all speeds scaled by a positive
    factor [k], [sigma_factor] by [k^2]) leaves the cross-sections
    unchanged and scales the carried velocity returned by [k]. *)
Theorem calculate_Sx_unit_independent
    k vels vesc vhold vcirc vmin minsigma sf :
  0 < k →
  ∃ Sxs vhold',
    calculate_Sx vels vesc vhold vcirc vmin minsigma (Some sf)
    = Ok (Sxs, vhold')
    ∧ calculate_Sx (map (Rmult k) vels) (k * vesc) (k * vhold) (k * vcirc)
        (k * vmin) minsigma (Some (k ^ 2 * sf))
      = Ok (Sxs, k * vhold').
Proof.
  intros Hk. rewrite !calculate_Sx_some. rewrite grid_scale.
  rewrite sx_values_scale, carried_scale by exact Hk.
  eexists _, _. split; reflexivity.
Qed.

Lemma calculate_Sx_unit_independent_witness :
  ∃ Sxs vhold',
    calculate_Sx [0; 1] 2 800 0 1 (6 / 100000000) (Some 1) = Ok (Sxs, vhold')
    ∧ calculate_Sx (map (Rmult 1000) [0; 1]) (1000 * 2) (1000 * 800)
        (1000 * 0) (1000 * 1) (6 / 100000000) (Some (1000 ^ 2 * 1))
      = Ok (Sxs, 1000 * vhold').
Proof.
  apply (calculate_Sx_unit_independent 1000 [0; 1] 2 800 0 1
           (6 / 100000000) 1).
  lra.
Defined.

(** ** The spacing check and the escape velocity *)

(** X29.  The spacing check has an absolute tolerance: an axis whose
    successive differences are all at most 5e-09 in magnitude passes it,
    however uneven its spacing. *)
Theorem spacing_check_absolute_tolerance vels vvir vesc vcirc vmin Arho :
  Forall (λ s, Rabs s <= 5 / 10 ^ 9) (diff vels) →
  steps_allclose (diff vels) = true
  ∧ calculate_Mx vels vvir vesc vcirc vmin Arho ≠ Raise ValueError.
Proof.
  intros Hsmall.
  assert (Hc : steps_allclose (diff vels) = true).
  { apply steps_allclose_adjacent. intros i a b Ha Hb.
    rewrite Forall_lookup in Hsmall.
    pose proof (Hsmall _ _ Ha) as Has. pose proof (Hsmall _ _ Hb) as Hbs.
    cbn beta in Has, Hbs.
    pose proof (Rabs_triang a (- b)) as Ht. rewrite Rabs_Ropp in Ht.
    pose proof (Rabs_pos b). unfold atol, rtol, Rminus. nra. }
  split; [exact Hc|]. rewrite calculate_Mx_ValueError, Hc. discriminate.
Qed.

Lemma spacing_check_absolute_tolerance_witness :
  steps_allclose (diff [0; 1 / 10 ^ 9; 3 / 10 ^ 9]) = true
  ∧ calculate_Mx [0; 1 / 10 ^ 9; 3 / 10 ^ 9] 250 550 220 (421 / 10) 3000
    ≠ Raise ValueError.
Proof.
  apply (spacing_check_absolute_tolerance [0; 1 / 10 ^ 9; 3 / 10 ^ 9]
           250 550 220 (421 / 10) 3000).
  cbn [diff]. repeat constructor; unfold Rabs;
    match goal with |- context [Rcase_abs ?x] => destruct (Rcase_abs x) end;
    lra.
Defined.

Lemma total_filter_mono {A} (P Q : A → Prop)
    `{∀ x, Decision (P x)} `{∀ x, Decision (Q x)} (f : A → R) (l : list A) :
  (∀ x, P x → Q x) → (∀ x, 0 <= f x) →
  total (map f (filter P l)) <= total (map f (filter Q l))
  ∧ (length (filter P l) <= length (filter Q l))%nat.
Proof.
  intros HPQ Hf. induction l as [|x l [IH1 IH2]]; [cbn; split; [lra|lia]|].
  rewrite !filter_cons.
  destruct (decide (P x)) as [HP|HP].
  - rewrite decide_True by (apply HPQ, HP). cbn [map total foldr length].
    fold (total (map f (filter P l))) (total (map f (filter Q l))).
    split; [lra | lia].
  - destruct (decide (Q x)); cbn [map total foldr length];
      fold (total (map f (filter Q l))); [|split; assumption].
    specialize (Hf x). split; [lra | lia].
Qed.

Lemma vstep_of_nonneg vels : 0 <= vstep_of vels.
Proof.
  unfold vstep_of. destruct (diff vels); [lra | apply Rabs_pos].
Qed.

Lemma flux_term_nonneg vstep vvir vcirc vmin t :
  0 <= vstep → 0 < vvir → 0 <= flux_term vstep vvir vcirc vmin t.
Proof.
  intros Hs Hv. unfold flux_term. apply Rmult_le_pos.
  - apply vrel_at_nonneg.
  - destruct (f_BM_bin_sign vstep vvir (speed t)) as (w & Hw & ->).
    apply Rmult_le_pos; [|lra].
    apply pow_le. apply Rmult_le_pos; [exact Hs|].
    left. apply Rinv_0_lt_compat, Hv.
Qed.

(** X30.  On an accepted axis and with a positive virial velocity,
    raising the escape velocity keeps every qualifying triple and never
    lowers the flux integral [vbar], which is non-negative. *)
Theorem calculate_Mx_grows_with_vesc vels vvir vesc vesc' vcirc vmin Arho :
  axis_valid vels →
  qualifying vesc vels ≠ [] →
  vesc <= vesc' → 0 < vvir →
  ∃ Mxs vbar Vhold Mxs' vbar' Vhold',
    calculate_Mx vels vvir vesc vcirc vmin Arho = Ok (Mxs, vbar, Vhold)
    ∧ calculate_Mx vels vvir vesc' vcirc vmin Arho = Ok (Mxs', vbar', Vhold')
    ∧ 0 <= vbar <= vbar'
    ∧ (∀ t, t ∈ qualifying vesc vels → t ∈ qualifying vesc' vels)
    ∧ (length (qualifying vesc vels) <= length (qualifying vesc' vels))%nat.
Proof.
  intros Hv Hq Hle Hvv.
  assert (Himp : ∀ t, qualifies vesc t → qualifies vesc' t).
  { intros [[vx vy] vz]. unfold qualifies. lra. }
  assert (Hterm : ∀ t, 0 <= flux_term (vstep_of vels) vvir vcirc vmin t)
    by (intros; apply flux_term_nonneg; [apply vstep_of_nonneg | exact Hvv]).
  destruct (total_filter_mono (qualifies vesc) (qualifies vesc')
              (flux_term (vstep_of vels) vvir vcirc vmin) (grid vels)
              Himp Hterm) as [Htot Hlen].
  assert (Hq' : qualifying vesc' vels ≠ []).
  { intros Heq. unfold qualifying in *. rewrite Heq in Hlen.
    destruct (filter (qualifies vesc) (grid vels)); [contradiction|].
    cbn in Hlen. lia. }
  rewrite !calculate_Mx_valid by exact Hv.
  apply last_is_Some in Hq as [t ->]. apply last_is_Some in Hq' as [t' ->].
  eexists _, _, _, _, _, _. split; [reflexivity|]. split; [reflexivity|].
  rewrite !last_cumulative_flux, !Rplus_0_l.
  split; [|split; [|exact Hlen]].
  2:{ intros x. unfold qualifying. rewrite !list_elem_of_filter.
      intros [Hx Hin]. split; [apply Himp, Hx | exact Hin]. }
  split; [|exact Htot].
  clear -Hterm. induction (filter (qualifies vesc) (grid vels)) as [|x l IH];
    cbn; [lra|]. specialize (Hterm x). fold (total (map
      (flux_term (vstep_of vels) vvir vcirc vmin) l)). lra.
Qed.

Lemma calculate_Mx_grows_with_vesc_witness :
  ∃ Mxs vbar Vhold Mxs' vbar' Vhold',
    calculate_Mx [0; 1] 1 1 0 1 1 = Ok (Mxs, vbar, Vhold)
    ∧ calculate_Mx [0; 1] 1 2 0 1 1 = Ok (Mxs', vbar', Vhold')
    ∧ 0 <= vbar <= vbar'
    ∧ (∀ t, t ∈ qualifying 1 [0; 1] → t ∈ qualifying 2 [0; 1])
    ∧ Nat.le (length (qualifying 1 [0; 1])) (length (qualifying 2 [0; 1])).
Proof.
  apply (calculate_Mx_grows_with_vesc [0; 1] 1 1 2 0 1 1).
  - apply axis_valid_pair.
  - run_filter. discriminate.
  - lra.
  - lra.
Defined.
